(** * xdxf2slob: the XDXF to slob conversion pipeline

    A shallow embedding of [xdxf2slob/__init__.py]: the element handlers,
    the abbreviation table, the article renderer [_text], the title
    expander [_mktitle], the streaming loop [parse] and the name that
    [main] gives the output file.

    Conventions.
    - A Python [str] is a [string] whose characters are code points below
      256; [None] is the [None] of [option].  [lower], [lstrip] and
      [isspace] follow Python on that range.
    - An [xml.etree.ElementTree.Element] is a [Node]: tag, attribute
      dictionary (insertion ordered), text, tail and children.  The pure
      model takes the children to be elements ([Element]) and a handler
      to return the element it has updated; the store model takes the
      children to be references into a store, where [deepcopy] allocates
      and the handlers update in place.  [h_text_spec] relates the two.
    - A raised exception is the [Raise] of [result].
    - The tags and attribute names are taken without namespace, and the
      attributes are serialised in dictionary order. *)

From Stdlib Require Import Ascii String.
From stdpp Require Import base option list strings gmap.

(** ** Python strings *)

Definition truthy (o : option string) : bool :=
  match o with
  | Some (String _ _) => true
  | _ => false
  end.

(** [o or ''] *)
Definition or_empty (o : option string) : string := default "" o.

Definition lower_char (c : ascii) : ascii :=
  let n := nat_of_ascii c in
  if ((65 <=? n) && (n <=? 90)) || ((192 <=? n) && (n <=? 222) && negb (n =? 215))
  then ascii_of_nat (n + 32) else c.

Fixpoint lower (s : string) : string :=
  match s with
  | EmptyString => EmptyString
  | String c s' => String (lower_char c) (lower s')
  end.

Definition isspace (c : ascii) : bool :=
  let n := nat_of_ascii c in
  ((9 <=? n) && (n <=? 13)) || ((28 <=? n) && (n <=? 32)) || (n =? 133) || (n =? 160).

Fixpoint lstrip (s : string) : string :=
  match s with
  | EmptyString => EmptyString
  | String c s' => if isspace c then lstrip s' else s
  end.

Definition LF : ascii := ascii_of_nat 10.
Definition SP : ascii := ascii_of_nat 32.

Local Open Scope string_scope.

(** [s.replace('\n', ' ')] *)
Fixpoint replace_newline (s : string) : string :=
  match s with
  | EmptyString => EmptyString
  | String c s' => String (if Ascii.eqb c LF then SP else c) (replace_newline s')
  end.

Fixpoint str_concat (l : list string) : string :=
  match l with
  | [] => ""
  | s :: l' => s ++ str_concat l'
  end.

(** ** Exceptions *)

Inductive exn := TypeError | ParseError.

Inductive result (A : Type) : Type :=
  | Ok (a : A)
  | Raise (e : exn).
Arguments Ok {A} a.
Arguments Raise {A} e.

#[global] Instance result_bind : MBind result := fun A B f r =>
  match r with
  | Ok a => f a
  | Raise e => Raise e
  end.

#[global] Instance result_ret : MRet result := fun A a => Ok a.

Fixpoint rmapM {A B} (f : A -> result B) (l : list A) : result (list B) :=
  match l with
  | [] => Ok []
  | a :: l' => b ← f a; bs ← rmapM f l'; Ok (b :: bs)
  end.

(** ** Elements *)

Definition attrs := list (string * option string).

Record Node (C : Type) : Type := mkNode {
  tag : string;
  attrib : attrs;
  text : option string;
  tail : option string;
  children : list C
}.
Arguments mkNode {C} _ _ _ _ _.
Arguments tag {C} _.
Arguments attrib {C} _.
Arguments text {C} _.
Arguments tail {C} _.
Arguments children {C} _.

#[warnings="-register-all"]
Inductive Element : Type := Elem (n : Node Element).

Definition node (e : Element) : Node Element := match e with Elem n => n end.
Coercion node : Element >-> Node.

(** [e.get(key)], [None] of the outer option when the key is absent *)
Fixpoint attr_get (key : string) (a : attrs) : option (option string) :=
  match a with
  | [] => None
  | (k, v) :: a' => if String.eqb k key then Some v else attr_get key a'
  end.

(** [e.set(key, value)]: a dictionary assignment *)
Fixpoint attr_set (key : string) (value : option string) (a : attrs) : attrs :=
  match a with
  | [] => [(key, value)]
  | (k, v) :: a' => if String.eqb k key then (k, value) :: a' else (k, v) :: attr_set key value a'
  end.

Definition set_attr {C} (key : string) (value : option string) (e : Node C) : Node C :=
  mkNode (tag e) (attr_set key value (attrib e)) (text e) (tail e) (children e).

Definition set_tag {C} (t : string) (e : Node C) : Node C :=
  mkNode t (attrib e) (text e) (tail e) (children e).

Definition set_text {C} (x : option string) (e : Node C) : Node C :=
  mkNode (tag e) (attrib e) x (tail e) (children e).

Definition set_children {C D} (cs : list D) (e : Node C) : Node D :=
  mkNode (tag e) (attrib e) (text e) (tail e) cs.

Definition clear_attrib {C} (e : Node C) : Node C :=
  mkNode (tag e) [] (text e) (tail e) (children e).

(** [e.clear()] *)
Definition clear (e : Element) : Element := Elem (mkNode (tag e) [] None None []).

(** [e.findall(t)] for a plain tag name: the direct children with that tag *)
Definition findall (t : string) (e : Element) : list Element :=
  filter (fun c : Element => tag c = t) (children e).

(** [e.find(t)] *)
Definition find (t : string) (e : Element) : option Element := head (findall t e).

(** [bool(e)] is [len(e) != 0] *)
Definition elem_bool (e : Element) : bool :=
  match children e with
  | [] => false
  | _ => true
  end.

(** ** Constants *)

Definition ARTICLE_CONTENT_TYPE : string := "text/html;charset=utf-8".

Definition VISUAL_TAGS : list string :=
  ["ar"; "k"; "opt"; "nu"; "def"; "pos"; "tense"; "tr"; "dtrn"; "kref";
   "rref"; "iref"; "abr"; "c"; "ex"; "co"; "su"].

Definition BLOCK_TAGS : list string := ["k"].

Definition str_in (s : string) (l : list string) : bool := bool_decide (s ∈ l).

(** ** Tag handlers *)

Definition abbrs := gmap (option string) (option string).

Definition _tag_handler_ar {C} (e : Node C) : Node C :=
  set_tag "div" (set_attr "class" (Some (tag e)) e).

Definition _tag_handler_c {C} (child : Node C) : Node C :=
  let child1 := set_tag "span" child in
  let color := default (Some "") (attr_get "c" (attrib child1)) in
  let child2 := clear_attrib child1 in
  if truthy color
  then set_attr "style" (Some ("color: " ++ or_empty color ++ ";")) child2
  else child2.

Definition _tag_handler_iref {C} (child : Node C) : Node C := set_tag "a" child.

Definition _tag_handler_kref {C} (child : Node C) : Node C :=
  let child1 := set_tag "a" child in
  set_attr "href" (text child1) child1.

Definition _tag_handler_su {C} (child : Node C) : Node C :=
  set_attr "class" (Some "su") (set_tag "div" child).

Definition _tag_handler_def {C} (child : Node C) : Node C := set_tag "blockquote" child.

Definition _tag_handler_abr {C} (abbreviations : abbrs) (child : Node C) : Node C :=
  let child1 := set_tag "abbr" child in
  let abr := text child1 in
  match abbreviations !! abr with
  | Some expansion => set_attr "title" expansion child1
  | None => child1
  end.

Definition default_tag_handler {C} (child : Node C) : Node C :=
  if str_in (tag child) VISUAL_TAGS
  then
    let child1 := set_attr "class" (Some (tag child)) child in
    set_tag (if str_in (tag child1) BLOCK_TAGS then "div" else "span") child1
  else child.

(** The methods of [XDXF] that [getattr] can find under a name starting
    with [_tag_handler_], and the default. *)
Inductive handler :=
  | H_ar | H_c | H_iref | H_kref | H_su | H_def | H_abr | H_default.

(** [getattr(self, '_tag_handler_' + name, self.default_tag_handler)] *)
Definition lookup_handler (name : string) : handler :=
  if String.eqb name "ar" then H_ar
  else if String.eqb name "c" then H_c
  else if String.eqb name "iref" then H_iref
  else if String.eqb name "kref" then H_kref
  else if String.eqb name "su" then H_su
  else if String.eqb name "def" then H_def
  else if String.eqb name "abr" then H_abr
  else H_default.

Definition run_handler {C} (h : handler) (abbreviations : abbrs) (e : Node C) : Node C :=
  match h with
  | H_ar => _tag_handler_ar e
  | H_c => _tag_handler_c e
  | H_iref => _tag_handler_iref e
  | H_kref => _tag_handler_kref e
  | H_su => _tag_handler_su e
  | H_def => _tag_handler_def e
  | H_abr => _tag_handler_abr abbreviations e
  | H_default => default_tag_handler e
  end.

Definition handler_for {C} (element : Node C) : handler :=
  lookup_handler (lower (tag element)).

Definition _transform_element {C} (abbreviations : abbrs) (element : Node C) : Node C :=
  run_handler (handler_for element) abbreviations element.

(** ** Serialisation: [etree.tostring]

    [ElementTree._serialize_xml] for tags and attribute names without a
    namespace, attributes in dictionary order.  An attribute whose value
    is [None] makes [_escape_attrib] raise [TypeError]. *)

Definition DQ : string := String (ascii_of_nat 34) "".

Definition escape_cdata_char (c : ascii) : string :=
  if Ascii.eqb c "&" then "&amp;"
  else if Ascii.eqb c "<" then "&lt;"
  else if Ascii.eqb c ">" then "&gt;"
  else String c "".

Definition escape_attrib_char (c : ascii) : string :=
  if Ascii.eqb c "&" then "&amp;"
  else if Ascii.eqb c "<" then "&lt;"
  else if Ascii.eqb c ">" then "&gt;"
  else if Ascii.eqb c (ascii_of_nat 34) then "&quot;"
  else if Ascii.eqb c (ascii_of_nat 13) then "&#13;"
  else if Ascii.eqb c (ascii_of_nat 10) then "&#10;"
  else if Ascii.eqb c (ascii_of_nat 9) then "&#09;"
  else String c "".

Fixpoint str_flat_map (f : ascii -> string) (s : string) : string :=
  match s with
  | EmptyString => EmptyString
  | String c s' => f c ++ str_flat_map f s'
  end.

Definition _escape_cdata : string -> string := str_flat_map escape_cdata_char.
Definition _escape_attrib : string -> string := str_flat_map escape_attrib_char.

Definition serialize_attr (kv : string * option string) : result string :=
  match kv.2 with
  | Some v => Ok (" " ++ kv.1 ++ "=" ++ DQ ++ _escape_attrib v ++ DQ)
  | None => Raise TypeError
  end.

Fixpoint _serialize_xml (elem : Element) : result string :=
  match elem with
  | Elem n =>
      items ← rmapM serialize_attr (attrib n);
      inner ← (fix go (cs : list Element) : result string :=
                 match cs with
                 | [] => Ok ""
                 | e :: cs' => s ← _serialize_xml e; r ← go cs'; Ok (s ++ r)
                 end) (children n);
      Ok ("<" ++ tag n ++ str_concat items
          ++ (if truthy (text n) || negb (bool_decide (children n = []))
              then ">" ++ _escape_cdata (or_empty (text n)) ++ inner ++ "</" ++ tag n ++ ">"
              else " />")
          ++ (if truthy (tail n) then _escape_cdata (or_empty (tail n)) else ""))
  end.

(** [s.encode('utf8')] on code points below 256 *)
Definition encode_utf8_char (c : ascii) : string :=
  let n := nat_of_ascii c in
  if (n <? 128)%nat then String c ""
  else String (ascii_of_nat (192 + n / 64)%nat) (String (ascii_of_nat (128 + n mod 64)%nat) "").

Definition encode_utf8 : string -> string := str_flat_map encode_utf8_char.

(** [etree.tostring(e, encoding='unicode')] *)
Definition tostring_unicode (e : Element) : result string := _serialize_xml e.

(** [etree.tostring(e, encoding='utf8')]: the declaration, then the bytes *)
Definition tostring_utf8 (e : Element) : result string :=
  s ← _serialize_xml e;
  Ok ("<?xml version='1.0' encoding='utf8'?>" ++ String LF "" ++ encode_utf8 s).

(** [ARTICLE_TEMPLATE % txt]: the template ends with its only [%s] *)
Definition ARTICLE_TEMPLATE (txt : string) : string :=
  "<script src=" ++ DQ ++ "~/js/styleswitcher.js" ++ DQ ++ "></script>"
  ++ "<link rel=" ++ DQ ++ "stylesheet" ++ DQ ++ " href=" ++ DQ ++ "~/css/default.css" ++ DQ
  ++ " type=" ++ DQ ++ "text/css" ++ DQ ++ ">"
  ++ "<link rel=" ++ DQ ++ "alternate stylesheet" ++ DQ ++ " href=" ++ DQ ++ "~/css/night.css" ++ DQ
  ++ " type=" ++ DQ ++ "text/css" ++ DQ ++ " title=" ++ DQ ++ "Night" ++ DQ ++ ">"
  ++ txt.

(** ** The article renderer [_text] *)

(** The options of an [XDXF] object; its [input_file] is the argument
    [f] of [parse]. *)
Record XDXF := mkXDXF {
  skip_article_title : bool;
  remove_newline : bool
}.

(** The body of [if self.skip_article_title:].  [element.remove(k)]
    removes the very element [k], so what is left are the children whose
    tag is not [k]. *)
Definition strip_titles (element : Element) : Element :=
  let tail0 :=
    fold_left (fun (acc : string) (k : Element) =>
                 if truthy (tail k) then acc ++ or_empty (tail k) else acc)
              (findall "k" element) "" in
  let kept := filter (fun c : Element => tag c ≠ "k") (children element) in
  let tail1 := lstrip tail0 in
  Elem (mkNode (tag element) (attrib element)
          (if truthy (text element) then Some (tail1 ++ or_empty (text element)) else Some tail1)
          (tail element) kept).

(** An execution of a handler: the element, named by its path from the
    article root (child indices), and the handler that [getattr] chose. *)
Definition path := list nat.
Definition call := (path * handler)%type.

(** [for child in element.iter(): self._transform_element(child, ...)],
    with the calls it makes.  [iter] walks the element first and then its
    children's subtrees in order; the handlers never touch a child list,
    so the children walked are those of the element as it was. *)
Fixpoint iter_transform (abbreviations : abbrs) (p : path) (element : Element)
  : Element * list call :=
  match element with
  | Elem n =>
      let n' := _transform_element abbreviations n in
      let r :=
        (fix go (i : nat) (cs : list Element) : list Element * list call :=
           match cs with
           | [] => ([], [])
           | c :: cs' =>
               let r1 := iter_transform abbreviations (p ++ [i])%list c in
               let r2 := go (S i) cs' in
               (r1.1 :: r2.1, (r1.2 ++ r2.2)%list)
           end) 0%nat (children n) in
      (Elem (set_children r.1 n'), (p, handler_for n) :: r.2)
  end.

(** [_text] up to the serialisation: the rewritten copy and the handler
    calls made on it. *)
Definition _text_walk (self : XDXF) (abbreviations : abbrs) (xdxf_element : Element)
  : Element * list call :=
  let element := xdxf_element in
  let element := if skip_article_title self then strip_titles element else element in
  let element1 := Elem (_transform_element abbreviations element) in
  let r := iter_transform abbreviations [] element1 in
  (r.1, ([], handler_for element) :: r.2).

(** The last three lines of [_text], on the rewritten copy *)
Definition render (self : XDXF) (element : Element) : result string :=
  txt ← tostring_unicode element;
  let txt := if remove_newline self then replace_newline txt else txt in
  Ok (encode_utf8 (ARTICLE_TEMPLATE txt)).

Definition _text (self : XDXF) (abbreviations : abbrs) (xdxf_element : Element)
  : result string :=
  render self (_text_walk self abbreviations xdxf_element).1.

(** ** The title expander [_mktitle]

    The loop reads the title element's text and, of each child, only the
    tag, the text and the tail: a [kid]. *)

Record kid := mkKid {
  k_tag : string;
  k_text : option string;
  k_tail : option string
}.

Definition kid_of {C} (n : Node C) : kid := mkKid (tag n) (text n) (tail n).

(** [if title: title += x else: title = x].  [str + None] raises. *)
Definition iadd (title x : option string) : result (option string) :=
  if truthy title
  then match x with
       | Some s => Ok (Some (or_empty title ++ s))
       | None => Raise TypeError
       end
  else Ok x.

(** One turn of [for c in title_element:], on the pair [(title, opt_i)]. *)
Definition mktitle_step (include_opts : list Z) (st : option string * Z) (c : kid)
  : result (option string * Z) :=
  let title := st.1 in
  let opt_i := st.2 in
  title ← (if bool_decide (k_tag c = "nu") && truthy (k_tail c)
           then iadd title (k_tail c) else Ok title);
  if bool_decide (k_tag c = "opt")
  then
    let opt_i := (opt_i + 1)%Z in
    title ← (if bool_decide (opt_i ∈ include_opts)
             then iadd title (k_text c) else Ok title);
    title ← (if truthy (k_tail c) then iadd title (k_tail c) else Ok title);
    Ok (title, opt_i)
  else Ok (title, opt_i).

Fixpoint mktitle_loop (include_opts : list Z) (st : option string * Z) (cs : list kid)
  : result (option string * Z) :=
  match cs with
  | [] => Ok st
  | c :: cs' => st' ← mktitle_step include_opts st c; mktitle_loop include_opts st' cs'
  end.

Definition mktitle_on (title_text : option string) (kids : list kid) (include_opts : list Z)
  : result (option string) :=
  st ← mktitle_loop include_opts (title_text, (-1)%Z) kids;
  Ok st.1.

Definition kids_of (e : Element) : list kid := (fun c : Element => kid_of c) <$> children e.

Definition _mktitle (title_element : Element) (include_opts : list Z) : result (option string) :=
  mktitle_on (text title_element) (kids_of title_element) include_opts.

(** [itertools.combinations(l, j)]: the [j]-element subsequences of [l],
    in lexicographic order of their positions. *)
Fixpoint combinations {A} (l : list A) (j : nat) : list (list A) :=
  match l with
  | [] => match j with O => [[]] | S _ => [] end
  | x :: l' =>
      match j with
      | O => [[]]
      | S j' => (cons x <$> combinations l' j') ++ combinations l' (S j')
      end
  end%list.

(** [range(n)] *)
Definition range (n : nat) : list Z := Z.of_nat <$> seq 0 n.

(** The tuples [comb] that the two nested loops of [parse] go through. *)
Definition title_combs (n_opts : nat) : list (list Z) :=
  flat_map (fun j => combinations (range n_opts) j) (seq 0 (n_opts + 1)).

Definition count_opts (kids : list kid) : nat :=
  length (filter (fun c => k_tag c = "opt") kids).

(** The body of [for title_element in element.findall('k'):], as the
    list of titles it appends. *)
Definition expand_on (title_text : option string) (kids : list kid)
  : result (list (option string)) :=
  let n_opts := count_opts kids in
  if bool_decide (n_opts ≠ 0%nat)
  then rmapM (mktitle_on title_text kids) (title_combs n_opts)
  else t ← mktitle_on title_text kids []; Ok [t].

Definition expand_title (title_element : Element) : result (list (option string)) :=
  expand_on (text title_element) (kids_of title_element).

(** [titles] at the end of the loop over [element.findall('k')] *)
Definition article_titles (element : Element) : result (list (option string)) :=
  tss ← rmapM expand_title (findall "k" element);
  Ok (concat tss).

(** ** The abbreviation table [_mkabbrs] *)

Definition _mkabbrs (element : Element) : abbrs :=
  fold_left
    (fun (abbrs0 : abbrs) (abrdef : Element) =>
       if bool_decide (lower (tag abrdef) = "abr_def")
       then
         match find "v" abrdef with
         | Some value =>
             if elem_bool value
             then
               let value_txt := text value in
               fold_left (fun (m : abbrs) (key : Element) => <[text key := value_txt]> m)
                         (findall "k" abrdef) abbrs0
             else abbrs0
         | None => abbrs0
         end
       else abbrs0)
    (children element) (∅ : abbrs).

(** ** The streaming loop [parse] *)

(** [urllib.parse.quote(bytes, safe='')] *)
Definition unreserved (c : ascii) : bool :=
  let n := nat_of_ascii c in
  (((48 <=? n) && (n <=? 57)) || ((65 <=? n) && (n <=? 90)) || ((97 <=? n) && (n <=? 122))
   || (n =? 95) || (n =? 46) || (n =? 45) || (n =? 126))%nat.

Definition hex_digit (d : nat) : ascii :=
  (if d <? 10 then ascii_of_nat (48 + d) else ascii_of_nat (55 + d))%nat.

Definition quote_byte (c : ascii) : string :=
  if unreserved c then String c ""
  else
    let n := nat_of_ascii c in
    String "%" (String (hex_digit (n / 16)%nat) (String (hex_digit (n mod 16)%nat) "")).

Definition quote : string -> string := str_flat_map quote_byte.

Inductive item :=
  | Tag (name : string) (value : option string)
  | Content (txt : string) (keys : list (option string)) (type : string).

(** What the loop does to the outside: an item handed to the consumer,
    or a [logging.warn] record (format string and argument). *)
Inductive effect :=
  | Yield (i : item)
  | Warn (fmt : string) (arg : string).

Record run := mkRun {
  abbreviations : abbrs;
  trace : list effect;
  raised : option exn
}.

Definition emit (eff : effect) (st : run) : run :=
  mkRun (abbreviations st) (trace st ++ [eff])%list (raised st).

Definition raise (x : exn) (st : run) : run :=
  mkRun (abbreviations st) (trace st) (Some x).

Definition start : run := mkRun ∅ [] None.

Definition on_description (st : run) (element : Element) : run * Element :=
  if bool_decide (tag element = "description")
  then (emit (Yield (Tag "copyright" (Some (or_empty (text element))))) st, clear element)
  else (st, element).

Definition on_full_name (st : run) (element : Element) : run * Element :=
  if bool_decide (tag element = "full_name")
  then
    let label := or_empty (text element) in
    let st := emit (Yield (Tag "label" (Some label))) st in
    let st := emit (Yield (Tag "uri" (Some (quote (encode_utf8 label))))) st in
    (st, clear element)
  else (st, element).

Definition on_xdxf (st : run) (element : Element) : run * Element :=
  if bool_decide (tag element = "xdxf")
  then
    let st := emit (Yield (Tag "lang_to" (default (Some "") (attr_get "lang_to" (attrib element))))) st in
    let st := emit (Yield (Tag "lang_from" (default (Some "") (attr_get "lang_from" (attrib element))))) st in
    (st, clear element)
  else (st, element).

Definition on_abbreviations (st : run) (element : Element) : run * Element :=
  if bool_decide (tag element = "abbreviations")
  then (mkRun (_mkabbrs element) (trace st) (raised st), element)
  else (st, element).

Definition on_ar (self : XDXF) (st : run) (element : Element) : run * Element :=
  if bool_decide (tag element = "ar")
  then
    match _text self (abbreviations st) element with
    | Raise x => (raise x st, element)
    | Ok txt =>
        match article_titles element with
        | Raise x => (raise x st, element)
        | Ok titles =>
            match titles with
            | _ :: _ => (emit (Yield (Content txt titles ARTICLE_CONTENT_TYPE)) st, clear element)
            | [] =>
                match tostring_utf8 element with
                | Raise x => (raise x st, element)
                | Ok s => (emit (Warn ("No title found in article:" ++ String LF "%s") s) st,
                           clear element)
                end
            end
        end
    end
  else (st, element).

(** The body of the [for] loop for one [end] event.  Nothing runs once an
    exception has left the generator. *)
Definition on_end (self : XDXF) (st : run) (element : Element) : run * Element :=
  match raised st with
  | Some _ => (st, element)
  | None =>
      let '(st, element) := on_description st element in
      let '(st, element) := on_full_name st element in
      let '(st, element) := on_xdxf st element in
      let '(st, element) := on_abbreviations st element in
      on_ar self st element
  end.

(** [iterparse] reports an element when its end tag is read, that is
    after all of its descendants: the children are handled first, and the
    element is seen with its children as their handling left them
    ([clear]ed or not).  The tail of an element is taken as it stands when
    the element is handled: set for every descendant, and for the element
    itself set or not yet, as the tree given to [visit] has it.  A tail
    that the parser reads only after the element has been handled is
    taken to stay unset: the reads of [iterparse] are assumed not to end
    between the end tag of a handled element and the text after it, so
    that an element that [clear] has emptied is still empty when its
    parent is handled. *)
Fixpoint visit (self : XDXF) (element : Element) (st : run) : run * Element :=
  match element with
  | Elem n =>
      let r :=
        (fix go (cs : list Element) (st : run) : run * list Element :=
           match cs with
           | [] => (st, [])
           | c :: cs' =>
               let r1 := visit self c st in
               let r2 := go cs' r1.1 in
               (r2.1, r1.2 :: r2.2)
           end) (children n) st in
      on_end self r.1 (Elem (set_children r.2 n))
  end.

(** The input file as the XML parser reads it: a well-formed document,
    or one that is not, of which the parser reports the elements closed
    before the place of the error ([closed]: the outermost of them, in
    document order) and then raises [ParseError]. *)
Inductive source :=
  | WellFormed (root : Element)
  | Malformed (closed : list Element).

Definition parse (self : XDXF) (f : source) : run :=
  match f with
  | WellFormed root => (visit self root start).1
  | Malformed closed =>
      let st := fold_left (fun st e => (visit self e st).1) closed start in
      match raised st with
      | Some _ => st
      | None => raise ParseError st
      end
  end.

(** The items a consumer of [parse] receives, and the warnings logged. *)
Definition items (st : run) : list item :=
  omap (fun eff => match eff with Yield i => Some i | Warn _ _ => None end) (trace st).

Definition warnings (st : run) : list string :=
  omap (fun eff => match eff with Warn _ a => Some a | Yield _ => None end) (trace st).

(** ** The store model

    Elements as Python has them: objects in a store, an element's
    children being references.  [deepcopy] allocates, the handlers and
    [remove] update in place.  A function of this part returns [None]
    when it runs out of [fuel] (the depth of Python's recursion) or meets
    a reference to nothing, which no element built by the parser has. *)

Abbreviation loc := nat.
Abbreviation heap := (list (Node loc)).

(** A loop over references that threads the store *)
Fixpoint h_map (f : heap -> loc -> option (heap * loc)) (cs : list loc) (h : heap)
  : option (heap * list loc) :=
  match cs with
  | [] => Some (h, [])
  | c :: cs' => r1 ← f h c; r2 ← h_map f cs' r1.1; Some (r2.1, r1.2 :: r2.2)
  end.

Fixpoint h_fold (f : heap -> loc -> option heap) (cs : list loc) (h : heap) : option heap :=
  match cs with
  | [] => Some h
  | c :: cs' => h1 ← f h c; h_fold f cs' h1
  end.

(** [copy.deepcopy(element)]: a new element with the same tag, attributes,
    text and tail, whose children are copies of the children. *)
Fixpoint deepcopy (fuel : nat) (h : heap) (l : loc) : option (heap * loc) :=
  match fuel with
  | O => None
  | S fuel' =>
      n ← h !! l;
      r ← h_map (deepcopy fuel') (children n) h;
      Some ((r.1 ++ [set_children r.2 n])%list, length r.1)
  end.

Definition h_transform_element (abbreviations : abbrs) (h : heap) (l : loc) : option heap :=
  n ← h !! l;
  Some (<[l := _transform_element abbreviations n]> h).

(** [for child in element.iter(): self._transform_element(child, ...)] *)
Fixpoint h_iter_transform (fuel : nat) (abbreviations : abbrs) (h : heap) (l : loc)
  : option heap :=
  match fuel with
  | O => None
  | S fuel' =>
      h1 ← h_transform_element abbreviations h l;
      n ← h1 !! l;
      h_fold (h_iter_transform fuel' abbreviations) (children n) h1
  end.

(** The nodes behind a list of references *)
Definition h_nodes (h : heap) (cs : list loc) : option (list (Node loc)) :=
  mapM (fun c => h !! c) cs.

(** [element.findall(t)] *)
Definition h_findall (t : string) (h : heap) (l : loc) : option (list loc) :=
  n ← h !! l;
  ns ← h_nodes h (children n);
  Some (filter (fun cn : loc * Node loc => tag cn.2 = t) (zip (children n) ns)).*1.

(** [l.remove(x)]: drops the first item equal to [x] *)
Fixpoint list_remove_first (x : loc) (l : list loc) : list loc :=
  match l with
  | [] => []
  | y :: l' => if bool_decide (y = x) then l' else y :: list_remove_first x l'
  end.

(** [element.remove(k)] *)
Definition h_remove (h : heap) (element k : loc) : option heap :=
  n ← h !! element;
  Some (<[element := set_children (list_remove_first k (children n)) n]> h).

(** The body of [if self.skip_article_title:] *)
Definition h_strip_step (element : loc) (st : string * heap) (k : loc) : option (string * heap) :=
  nk ← st.2 !! k;
  let tail0 := if truthy (tail nk) then st.1 ++ or_empty (tail nk) else st.1 in
  h ← h_remove st.2 element k;
  Some (tail0, h).

Fixpoint h_strip_loop (element : loc) (st : string * heap) (ks : list loc)
  : option (string * heap) :=
  match ks with
  | [] => Some st
  | k :: ks' => st' ← h_strip_step element st k; h_strip_loop element st' ks'
  end.

Definition h_strip_titles (h : heap) (element : loc) : option heap :=
  ks ← h_findall "k" h element;
  st ← h_strip_loop element ("", h) ks;
  let tail1 := lstrip st.1 in
  n ← st.2 !! element;
  Some (<[element := set_text (if truthy (text n) then Some (tail1 ++ or_empty (text n))
                               else Some tail1) n]> st.2).

(** The tree an element of the store stands for, as [tostring] walks it *)
Fixpoint h_read (fuel : nat) (h : heap) (l : loc) : option Element :=
  match fuel with
  | O => None
  | S fuel' =>
      n ← h !! l;
      cs ← mapM (h_read fuel' h) (children n);
      Some (Elem (set_children cs n))
  end.

(** [_text] on the store: the store it leaves and what it returns *)
Definition h_text (fuel : nat) (self : XDXF) (abbreviations : abbrs)
    (h : heap) (xdxf_element : loc) : option (heap * result string) :=
  r ← deepcopy fuel h xdxf_element;
  let element := r.2 in
  h1 ← (if skip_article_title self then h_strip_titles r.1 element else Some r.1);
  h2 ← h_transform_element abbreviations h1 element;
  h3 ← h_iter_transform fuel abbreviations h2 element;
  e ← h_read fuel h3 element;
  Some (h3, render self e).

(** [_mktitle] and the title loop of [parse] on the store *)
Definition h_kids (h : heap) (l : loc) : option (list kid) :=
  n ← h !! l;
  (fun ns : list (Node loc) => (fun c : Node loc => kid_of c) <$> ns) <$> h_nodes h (children n).

Definition h_mktitle (h : heap) (title_element : loc) (include_opts : list Z)
  : option (result (option string)) :=
  n ← h !! title_element;
  kids ← h_kids h title_element;
  Some (mktitle_on (text n) kids include_opts).

Definition h_expand_title (h : heap) (title_element : loc)
  : option (result (list (option string))) :=
  n ← h !! title_element;
  kids ← h_kids h title_element;
  Some (expand_on (text n) kids).

Definition h_article_titles (h : heap) (element : loc)
  : option (result (list (option string))) :=
  ks ← h_findall "k" h element;
  rs ← mapM (h_expand_title h) ks;
  Some (tss ← rmapM id rs; Ok (concat tss)).

(** Lines 207 to 216 of [parse]: render the article, then expand the
    titles of the element that was passed to [_text]. *)
Definition h_article (fuel : nat) (self : XDXF) (abbreviations : abbrs)
    (h : heap) (element : loc)
  : option (heap * result (string * list (option string))) :=
  r ← h_text fuel self abbreviations h element;
  titles ← h_article_titles r.1 element;
  Some (r.1, (txt ← r.2; ts ← titles; Ok (txt, ts))).

(** ** The name of the output file in [main]

    [os.path] is [posixpath]: the separator is [/], there is no
    alternative separator, and [os.path.extsep] is the dot. *)

(** [s.rfind(c)] for a character [c]: the index of its last occurrence,
    or -1 *)
Fixpoint rfind_from (c : ascii) (s : string) (i last : Z) : Z :=
  match s with
  | EmptyString => last
  | String a s' => rfind_from c s' (i + 1)%Z (if Ascii.eqb a c then i else last)
  end.

Definition rfind (c : ascii) (s : string) : Z := rfind_from c s 0 (-1).

(** [s[:n]] and [s[n:]] for an index [n] that is not negative *)
Fixpoint str_take (n : nat) (s : string) : string :=
  match n, s with
  | S n', String a s' => String a (str_take n' s')
  | _, _ => EmptyString
  end.

Fixpoint str_drop (n : nat) (s : string) : string :=
  match n, s with
  | S n', String a s' => str_drop n' s'
  | _, _ => s
  end.

(** [os.path.basename(p)]: [i = p.rfind(sep) + 1; return p[i:]] *)
Definition basename (p : string) : string := str_drop (Z.to_nat (rfind "/" p + 1)) p.

(** The loop [while filenameIndex < dotIndex:] of [genericpath._splitext],
    with [n] turns to go, and the [return p, p[:0]] after it. *)
Fixpoint splitext_scan (p : string) (dotIndex : Z) (n : nat) (filenameIndex : Z)
  : string * string :=
  match n with
  | O => (p, "")
  | S n' =>
      if negb (String.eqb (str_take 1 (str_drop (Z.to_nat filenameIndex) p)) ".")
      then (str_take (Z.to_nat dotIndex) p, str_drop (Z.to_nat dotIndex) p)
      else splitext_scan p dotIndex n' (filenameIndex + 1)%Z
  end.

(** [os.path.splitext(p)] *)
Definition splitext (p : string) : string * string :=
  let sepIndex := rfind "/" p in
  let dotIndex := rfind "." p in
  if (sepIndex <? dotIndex)%Z
  then splitext_scan p dotIndex (Z.to_nat (dotIndex - (sepIndex + 1))) (sepIndex + 1)%Z
  else (p, "").

(** The loop [while True:] of [main], which takes the extensions off one
    by one; [None] when [fuel] turns were not enough. *)
Fixpoint strip_exts (fuel : nat) (noext : string) : option string :=
  match fuel with
  | O => None
  | S fuel' =>
      let r := splitext noext in
      if truthy (Some r.2) then strip_exts fuel' r.1 else Some r.1
  end.

(** [outname] at line 298 of [main], for the arguments [output_file] and
    [input_file] *)
Definition outname (fuel : nat) (output_file : option string) (input_file : string)
  : option string :=
  match output_file with
  | Some o => Some o
  | None =>
      noext ← strip_exts fuel (basename input_file);
      Some (noext ++ "." ++ "slob")
  end.

(** * Vocabulary of the properties *)

(** The tags a handler can leave behind have no handler of their own and
    are not visual tags. *)
Definition settled (t : string) : Prop :=
  lookup_handler (lower t) = H_default /\ str_in t VISUAL_TAGS = false.

(** Closed membership facts on tag names are settled by evaluation. *)
Ltac tag_mem := apply (bool_decide_unpack _); vm_compute; reflexivity.

(** With the tag known, name the handler that [getattr] finds and decide
    the membership tests of the default handler. *)
Ltac dispatch :=
  unfold _transform_element;
  repeat match goal with
    | |- context [handler_for ?n] =>
        let h := eval vm_compute in (lookup_handler (lower (tag n))) in
        change (handler_for n) with h
    end;
  cbn [run_handler];
  unfold _tag_handler_ar, _tag_handler_c, _tag_handler_iref, _tag_handler_kref,
    _tag_handler_su, _tag_handler_def, _tag_handler_abr, default_tag_handler;
  cbn [tag attrib text tail children set_tag set_attr clear_attrib];
  repeat match goal with
    | |- context [str_in ?s ?l] =>
        let b := eval vm_compute in (str_in s l) in
        change (str_in s l) with b
    end;
  cbn [tag attrib text tail children set_tag set_attr clear_attrib].

(** A class-bearing container: a [div] or a [span] whose [class] is the
    tag the element had. *)
Definition class_container {C} (old new : Node C) : Prop :=
  (tag new = "div" \/ tag new = "span")
  /\ attr_get "class" (attrib new) = Some (Some (tag old)).

(** The trailing texts of the [k] children, concatenated in document order *)
Definition k_tails (e : Element) : string :=
  str_concat ((fun k : Element => or_empty (tail k)) <$> findall "k" e).

(** The elements of a tree in document order, each with its path *)
Fixpoint preorder (p : path) (e : Element) : list (path * Node Element) :=
  match e with
  | Elem n =>
      (p, n) ::
      (fix go (i : nat) (cs : list Element) : list (path * Node Element) :=
         match cs with
         | [] => []
         | c :: cs' => preorder (p ++ [i]) c ++ go (S i) cs'
         end) 0%nat (children n)
  end%list.

Fixpoint preorder_kids (p : path) (i : nat) (cs : list Element) : list (path * Node Element) :=
  match cs with
  | [] => []
  | c :: cs' => preorder (p ++ [i]) c ++ preorder_kids p (S i) cs'
  end%list.

(** What a child adds to a title: a [nu] child its trailing text, an
    [opt] child its text when its index [next] is chosen and its trailing
    text in any case, any other child nothing. *)
Fixpoint title_parts (include_opts : list Z) (next : Z) (cs : list kid) : list string :=
  match cs with
  | [] => []
  | c :: cs' =>
      if bool_decide (k_tag c = "opt")
      then ((if bool_decide (next ∈ include_opts) then or_empty (k_text c) else "")
            ++ or_empty (k_tail c))
           :: title_parts include_opts (next + 1) cs'
      else if bool_decide (k_tag c = "nu")
           then or_empty (k_tail c) :: title_parts include_opts next cs'
           else title_parts include_opts next cs'
  end.

(** The variant as C4 words it: [opt] children only. *)
Fixpoint claimed_parts (include_opts : list Z) (next : Z) (cs : list kid) : list string :=
  match cs with
  | [] => []
  | c :: cs' =>
      if bool_decide (k_tag c = "opt")
      then ((if bool_decide (next ∈ include_opts) then or_empty (k_text c) else "")
            ++ or_empty (k_tail c))
           :: claimed_parts include_opts (next + 1) cs'
      else claimed_parts include_opts next cs'
  end.

Definition claimed_variant (title_element : Element) (include_opts : list Z) : string :=
  or_empty (text title_element) ++ str_concat (claimed_parts include_opts 0 (kids_of title_element)).

(** [<k>cat<opt> (feline)</opt></k>] *)
Definition k_cat : Element :=
  Elem (mkNode "k" [] (Some "cat") None [Elem (mkNode "opt" [] (Some " (feline)") None [])]).

(** [<k>a<nu/>1<opt>b</opt></k>] *)
Definition k_numbered : Element :=
  Elem (mkNode "k" [] (Some "a") None
          [Elem (mkNode "nu" [] None (Some "1") []); Elem (mkNode "opt" [] (Some "b") None [])]).

(** [<k>cat<opt/></k>] *)
Definition k_empty_opt : Element :=
  Elem (mkNode "k" [] (Some "cat") None [Elem (mkNode "opt" [] None None [])]).

(** Ordered by the number of chosen indices *)
Definition by_size (ls : list (list Z)) : Prop :=
  forall (i j : nat) (a b : list Z),
    (i <= j)%nat -> ls !! i = Some a -> ls !! j = Some b -> (length a <= length b)%nat.

(** [<xdxf><ar><k>cat<opt/></k></ar></xdxf>] *)
Definition doc_empty_opt : Element :=
  Elem (mkNode "xdxf" [] None None [Elem (mkNode "ar" [] None None [k_empty_opt])]).

(** [<abbreviations><abr_def><k>n.</k><v>noun</v></abr_def></abbreviations>] *)
Definition abbreviations_noun : Element :=
  Elem (mkNode "abbreviations" [] None None
    [Elem (mkNode "abr_def" [] None None
       [Elem (mkNode "k" [] (Some "n.") None []);
        Elem (mkNode "v" [] (Some "noun") None [])])]).

(** The same block, the value holding a child element: [<v>noun<i/></v>] *)
Definition abbreviations_noun_i : Element :=
  Elem (mkNode "abbreviations" [] None None
    [Elem (mkNode "abr_def" [] None None
       [Elem (mkNode "k" [] (Some "n.") None []);
        Elem (mkNode "v" [] (Some "noun") None [Elem (mkNode "i" [] None None [])])])]).

(** [<xdxf><ar><kref/></ar><ar><k>a</k></ar></xdxf>] *)
Definition doc_untitled_kref : Element :=
  Elem (mkNode "xdxf" [] None None
    [Elem (mkNode "ar" [] None None [Elem (mkNode "kref" [] None None [])]);
     Elem (mkNode "ar" [] None None [Elem (mkNode "k" [] (Some "a") None [])])]).

(** [<xdxf><ar><k>a</k><kref/></ar></xdxf>] *)
Definition doc_empty_kref : Element :=
  Elem (mkNode "xdxf" [] None None
    [Elem (mkNode "ar" [] None None
       [Elem (mkNode "k" [] (Some "a") None []); Elem (mkNode "kref" [] None None [])])]).

(** The shape of a tree in the store: the reference of each element *)
#[warnings="-register-all"]
Inductive ltree := LT (l : loc) (cs : list ltree).

Definition lroot (t : ltree) : loc := match t with LT l _ => l end.

Fixpoint cells (t : ltree) : list loc :=
  match t with
  | LT l cs => l :: flat_map cells cs
  end.

(** [repr h t e]: in the store [h], the references of [t] hold the tree [e]. *)
#[warnings="-register-all"]
Inductive repr (h : heap) : ltree -> Element -> Prop :=
  | repr_node (l : loc) (lcs : list ltree) (n : Node Element) :
      h !! l = Some (set_children (lroot <$> lcs) n) ->
      Forall2 (repr h) lcs (children n) ->
      repr h (LT l lcs) (Elem n).

Fixpoint height (e : Element) : nat :=
  match e with
  | Elem n => S (max_list (height <$> children n))
  end.

(** The tree [iter_transform] leaves *)
Fixpoint transform_all (abbreviations : abbrs) (e : Element) : Element :=
  match e with
  | Elem n =>
      Elem (set_children (transform_all abbreviations <$> children n)
              (_transform_element abbreviations n))
  end.

(** What [deepcopy] does to a tree: the store grows by a copy whose
    references are all new and distinct. *)
Definition copied (h : heap) (ext : heap) (t' : ltree) (e : Element) : Prop :=
  repr (h ++ ext)%list t' e
  /\ NoDup (cells t')
  /\ forall l, l ∈ cells t' -> (length h <= l < length (h ++ ext)%list)%nat.

(** What an in-place rewriting of the tree at [t] does to the store: the
    tree becomes [e'], no object is added, and every object that is not
    an element of the tree is as it was. *)
Definition rewritten (h h' : heap) (t : ltree) (e' : Element) : Prop :=
  repr h' t e'
  /\ length h' = length h
  /\ forall l, l ∉ cells t -> h' !! l = h !! l.

Definition lkids (t : ltree) : list ltree := match t with LT _ cs => cs end.

(** The object that stands for [c] at the root of [t] *)
Definition node_at (t : ltree) (c : Element) : Node loc := set_children (lroot <$> lkids t) c.

Fixpoint remove_all (ks : list loc) (cur : list loc) : list loc :=
  match ks with
  | [] => cur
  | k :: ks' => remove_all ks' (list_remove_first k cur)
  end.

(** A store with the article [<ar>x<k>cat<opt> (feline)</opt></k> T<kref>dog</kref></ar>]:
    the [opt] at 0, the [k] at 1, the [kref] at 2 and the [ar] at 3. *)
Definition store_ex : heap :=
  [mkNode "opt" [] (Some " (feline)"%string) None [];
   mkNode "k" [] (Some "cat"%string) (Some " T"%string) [0%nat];
   mkNode "kref" [] (Some "dog"%string) None [];
   mkNode "ar" [] (Some "x"%string) None [1%nat; 2%nat]].

Definition shape_ex : ltree := LT 3 [LT 1 [LT 0 []]; LT 2 []].

Definition article_ex : Element :=
  Elem (mkNode "ar" [] (Some "x"%string) None
    [Elem (mkNode "k" [] (Some "cat"%string) (Some " T"%string)
       [Elem (mkNode "opt" [] (Some " (feline)"%string) None [])]);
     Elem (mkNode "kref" [] (Some "dog"%string) None [])]).

(** An effect that is no [Content] with an empty list of keys *)
Definition keys_ok (eff : effect) : Prop :=
  match eff with
  | Yield (Content _ keys _) => keys ≠ []
  | _ => True
  end.

(** The elements of a tree, root first *)
Fixpoint subnodes (e : Element) : list (Node Element) :=
  match e with
  | Elem n => n :: flat_map subnodes (children n)
  end.

(** Attribute values that are strings, as the parser makes them *)
Definition attrs_str (a : attrs) : Prop := Forall (fun kv : string * option string => is_Some kv.2) a.

(** A table whose expansions are strings *)
Definition table_str (a : gmap (option string) (option string)) : Prop :=
  forall k v, a !! k = Some v -> is_Some v.

(** An element that the handlers leave with string attributes: its own
    attributes are strings and, if [_tag_handler_kref] is its handler, it
    has a text. *)
Definition renderable {C} (n : Node C) : Prop :=
  attrs_str (attrib n) /\ (handler_for n = H_kref -> is_Some (text n)).

(** An element of a document on which nothing raises: renderable, with a
    text if it is an [opt], and with a text if it is a [v] that has
    child elements. *)
Definition plain {C} (n : Node C) : Prop :=
  renderable n
  /\ (tag n = "opt" -> is_Some (text n))
  /\ (tag n = "v" -> children n ≠ [] -> is_Some (text n)).

(** The loop of [visit] over the children *)
Fixpoint visit_kids (self : XDXF) (cs : list Element) (st : run) : run * list Element :=
  match cs with
  | [] => (st, [])
  | c :: cs' =>
      let r1 := visit self c st in
      let r2 := visit_kids self cs' r1.1 in
      (r2.1, r1.2 :: r2.2)
  end.

(** The invariant of the loop on a document of plain elements: nothing
    has been raised, the table holds strings, and the element just
    handled (cleared or not) is plain. *)
Definition calm (st : run) (element : Element) : Prop :=
  raised st = None /\ table_str (abbreviations st) /\ Forall plain (subnodes element).

(** What the rewriting has no business with: the text and the tail of
    an element and the number of its children. *)
Definition content {C} (n : Node C) : option string * option string * nat :=
  (text n, tail n, length (children n)).

(** The copy that [_text] rewrites: the article, without its titles if
    the option says so. *)
Definition text_input (self : XDXF) (e : Element) : Element :=
  if skip_article_title self then strip_titles e else e.

(** Where [_mktitle] stops: at a chosen [opt] child without text that is
    met when the title made so far is not empty.  [next] is the index of
    the first [opt] child of [cs], [title] the title before [cs]. *)
Definition blocked_at (include_opts : list Z) (title : string) (next : Z) (cs : list kid) : Prop :=
  exists pre c post,
    cs = (pre ++ c :: post)%list
    /\ k_tag c = "opt" /\ k_text c = None
    /\ (next + Z.of_nat (count_opts pre))%Z ∈ include_opts
    /\ title ++ str_concat (title_parts include_opts next pre) ≠ "".

(** [<k><opt/>cat</k>] *)
Definition k_leading_empty_opt : Element :=
  Elem (mkNode "k" [] None None [Elem (mkNode "opt" [] None (Some "cat") [])]).

(** The assignments [abbrs[key.text] = value_txt] that [_mkabbrs] makes,
    in the order in which it makes them. *)
Definition abbr_entries (element : Element) : list (option string * option string) :=
  flat_map
    (fun abrdef : Element =>
       if bool_decide (lower (tag abrdef) = "abr_def")
       then
         match find "v" abrdef with
         | Some value =>
             if elem_bool value
             then (fun key : Element => (text key, text value)) <$> findall "k" abrdef
             else []
         | None => []
         end
       else [])
    (children element).

(** The characters of the result of [quote(..., safe='')]: the
    unreserved ones and the percent sign *)
Definition uri_char (c : ascii) : bool := unreserved c || Ascii.eqb c "%".

(** The effects that the loop of [parse] has in its text: the five tags,
    a [Content] with a body made by [_text], a first key and the fixed
    type, and the warning. *)
Inductive emitted (self : XDXF) : effect -> Prop :=
  | emitted_copyright (s : string) : emitted self (Yield (Tag "copyright" (Some s)))
  | emitted_label (s : string) : emitted self (Yield (Tag "label" (Some s)))
  | emitted_uri (s : string) :
      emitted self (Yield (Tag "uri" (Some (quote (encode_utf8 s)))))
  | emitted_lang_to (v : option string) : emitted self (Yield (Tag "lang_to" v))
  | emitted_lang_from (v : option string) : emitted self (Yield (Tag "lang_from" v))
  | emitted_content (a : abbrs) (e : Element) (body : string)
        (t : option string) (ts : list (option string)) :
      _text self a e = Ok body ->
      emitted self (Yield (Content body (t :: ts) ARTICLE_CONTENT_TYPE))
  | emitted_warn (s : string) :
      emitted self (Warn ("No title found in article:" ++ String LF "%s") s).

(** The body of [<ar><k>cat<opt> (feline)</opt></k></ar>] *)
Definition body_cat : string :=
  encode_utf8 (ARTICLE_TEMPLATE
    ("<div class=" ++ DQ ++ "ar" ++ DQ ++ "><div class=" ++ DQ ++ "k" ++ DQ
     ++ ">cat<span class=" ++ DQ ++ "opt" ++ DQ ++ "> (feline)</span></div></div>")).

Fixpoint has_char (c : ascii) (s : string) : bool :=
  match s with
  | EmptyString => false
  | String a s' => Ascii.eqb a c || has_char c s'
  end.

(** A string up to its first dot *)
Fixpoint until_dot (s : string) : string :=
  match s with
  | EmptyString => EmptyString
  | String a s' => if Ascii.eqb a "." then EmptyString else String a (until_dot s')
  end.

(** A file name without its extensions: the dots it begins with, and
    what follows them up to the next dot. *)
Fixpoint stem (s : string) : string :=
  match s with
  | EmptyString => EmptyString
  | String a s' => if Ascii.eqb a "." then String a (stem s') else until_dot s
  end.

Fixpoint dots (k : nat) : string :=
  match k with
  | O => EmptyString
  | S k' => String "." (dots k')
  end.

(** An element for which the loop of [parse] does nothing *)
Definition quiet (n : Node Element) : Prop :=
  tag n ∉ ["description"; "full_name"; "xdxf"; "abbreviations"; "ar"].

(** An article that the loop turns into the item [it] under the table
    [a]: an [ar] element with nothing but quiet elements below it, which
    renders and has a title. *)
Definition article_item (self : XDXF) (a : abbrs) (ar : Element) (it : item) : Prop :=
  tag ar = "ar"
  /\ Forall quiet (flat_map subnodes (children ar))
  /\ exists body t ts,
       _text self a ar = Ok body
       /\ article_titles ar = Ok (t :: ts)
       /\ it = Content body (t :: ts) ARTICLE_CONTENT_TYPE.

(** What the loop yields for a sequence of sibling elements, starting
    under the table [a]: an article yields its [Content] under the table
    in force; a block of abbreviations yields nothing and puts its own
    table in force; a [description] and a [full_name] yield their tags;
    any other element, with nothing but quiet elements in it, yields
    nothing.  Below each of them all elements are quiet. *)
Inductive yields (self : XDXF) : abbrs -> list Element -> list item -> Prop :=
  | yields_nil (a : abbrs) : yields self a [] []
  | yields_article (a : abbrs) (ar : Element) (it : item) (cs : list Element)
        (its : list item) :
      article_item self a ar it ->
      yields self a cs its ->
      yields self a (ar :: cs) (it :: its)
  | yields_block (a : abbrs) (block : Element) (cs : list Element) (its : list item) :
      tag block = "abbreviations" ->
      Forall quiet (flat_map subnodes (children block)) ->
      yields self (_mkabbrs block) cs its ->
      yields self a (block :: cs) its
  | yields_description (a : abbrs) (d : Element) (cs : list Element) (its : list item) :
      tag d = "description" ->
      Forall quiet (flat_map subnodes (children d)) ->
      yields self a cs its ->
      yields self a (d :: cs) (Tag "copyright" (Some (or_empty (text d))) :: its)
  | yields_full_name (a : abbrs) (f : Element) (cs : list Element) (its : list item) :
      tag f = "full_name" ->
      Forall quiet (flat_map subnodes (children f)) ->
      yields self a cs its ->
      yields self a (f :: cs)
        (Tag "label" (Some (or_empty (text f)))
         :: Tag "uri" (Some (quote (encode_utf8 (or_empty (text f))))) :: its)
  | yields_other (a : abbrs) (c : Element) (cs : list Element) (its : list item) :
      Forall quiet (subnodes c) ->
      yields self a cs its ->
      yields self a (c :: cs) its.

(** [<xdxf lang_from="ENG"><full_name>My dict</full_name>
    <abbreviations><abr_def><k>n.</k><v>noun<i/></v></abr_def></abbreviations>
    <ar><k>cat</k><abr>n.</abr></ar></xdxf>] *)
Definition doc_small : Element :=
  Elem (mkNode "xdxf" [("lang_from", Some "ENG")] None None
    [Elem (mkNode "full_name" [] (Some "My dict") None []);
     abbreviations_noun_i;
     Elem (mkNode "ar" [] None None
       [Elem (mkNode "k" [] (Some "cat") None []);
        Elem (mkNode "abr" [] (Some "n.") None [])])]).

Definition body_small : string :=
  encode_utf8 (ARTICLE_TEMPLATE
    ("<div class=" ++ DQ ++ "ar" ++ DQ ++ "><div class=" ++ DQ ++ "k" ++ DQ
     ++ ">cat</div><abbr title=" ++ DQ ++ "noun" ++ DQ ++ ">n.</abbr></div>")).

(** The execution of a handler call: [f] on the element at the path [p]
    of a tree, the rest of the tree as it was. *)
Fixpoint update_at (f : Node Element -> Node Element) (p : path) (e : Element) : Element :=
  match p with
  | [] => Elem (f e)
  | i :: p' => Elem (set_children (alter (update_at f p') i (children e)) e)
  end.

(** The execution of a list of handler calls, in the order of the list *)
Definition run_calls (abbreviations : abbrs) (calls : list call) (e : Element) : Element :=
  fold_left (fun (e : Element) (c : call) => update_at (run_handler c.2 abbreviations) c.1 e)
            calls e.

(** The HTML tag that the handlers give an element with a visual tag *)
Definition html_tag (t : string) : string :=
  if str_in t ["ar"; "k"; "su"] then "div"
  else if String.eqb t "def" then "blockquote"
  else if str_in t ["kref"; "iref"] then "a"
  else if String.eqb t "abr" then "abbr"
  else "span".

(** * Properties *)

(** ** Strings and attribute dictionaries *)

Lemma str_app_cons (c : ascii) (s t : string) : String c s ++ t = String c (s ++ t).
Proof. reflexivity. Qed.

Lemma str_app_nil_l (s : string) : "" ++ s = s.
Proof. reflexivity. Qed.

Lemma str_app_nil_r (s : string) : s ++ "" = s.
Proof. induction s as [|c s IH]; [done | by rewrite str_app_cons, IH]. Qed.

Lemma str_app_assoc (s1 s2 s3 : string) : (s1 ++ s2) ++ s3 = s1 ++ (s2 ++ s3).
Proof. induction s1 as [|c s1 IH]; [done | by rewrite !str_app_cons, IH]. Qed.

Lemma or_empty_falsy (o : option string) : truthy o = false -> or_empty o = "".
Proof. destruct o as [[|c s]|]; simpl; intros; done. Qed.

Lemma or_empty_truthy (o : option string) : truthy o = true -> o = Some (or_empty o).
Proof. destruct o as [[|c s]|]; simpl; intros; done. Qed.

Lemma attr_get_set (key : string) (v : option string) (a : attrs) :
  attr_get key (attr_set key v a) = Some v.
Proof.
  induction a as [|[k w] a IH]; simpl.
  - by rewrite String.eqb_refl.
  - destruct (String.eqb k key) eqn:E; simpl; rewrite E; [done | exact IH].
Qed.

Lemma attr_get_set_ne (key key' : string) (v : option string) (a : attrs) :
  key ≠ key' -> attr_get key' (attr_set key v a) = attr_get key' a.
Proof.
  intros Hne. induction a as [|[k w] a IH]; simpl.
  - destruct (String.eqb key key') eqn:E; [|done].
    apply String.eqb_eq in E. done.
  - destruct (String.eqb k key) eqn:E; simpl.
    + apply String.eqb_eq in E. subst k.
      destruct (String.eqb key key') eqn:E'; [|done].
      apply String.eqb_eq in E'. done.
    + destruct (String.eqb k key'); [done | exact IH].
Qed.

(** Induction on elements, the hypothesis holding for every child *)
Lemma Element_ind' (P : Element -> Prop) :
  (forall n : Node Element, Forall P (children n) -> P (Elem n)) ->
  forall e, P e.
Proof.
  intros H. fix IH 1. intros [n]. apply H.
  destruct n as [t a x tl cs]; simpl.
  induction cs as [|c cs IHcs]; constructor; [apply IH | exact IHcs].
Qed.

(** ** The handlers *)

Lemma run_handler_children {C} (h : handler) (abbreviations : abbrs) (n : Node C) :
  children (run_handler h abbreviations n) = children n.
Proof.
  destruct h; simpl; try done.
  - unfold _tag_handler_c. by destruct (truthy _).
  - unfold _tag_handler_abr. by destruct (_ !! _).
  - unfold default_tag_handler. by destruct (str_in _ _).
Qed.

Lemma _transform_element_children {C} (abbreviations : abbrs) (n : Node C) :
  children (_transform_element abbreviations n) = children n.
Proof. apply run_handler_children. Qed.

Lemma _transform_element_text {C} (abbreviations : abbrs) (n : Node C) :
  text (_transform_element abbreviations n) = text n
  /\ tail (_transform_element abbreviations n) = tail n.
Proof.
  unfold _transform_element. destruct (handler_for n); simpl; try done.
  - unfold _tag_handler_c. by destruct (truthy _).
  - unfold _tag_handler_abr. by destruct (_ !! _).
  - unfold default_tag_handler. by destruct (str_in _ _).
Qed.

Lemma settled_fixed {C} (abbreviations : abbrs) (n : Node C) :
  settled (tag n) -> _transform_element abbreviations n = n.
Proof.
  intros [Hh Hv]. unfold _transform_element, handler_for. rewrite Hh. simpl.
  unfold default_tag_handler. by rewrite Hv.
Qed.

Lemma _transform_element_settles {C} (abbreviations : abbrs) (n : Node C) :
  _transform_element abbreviations n = n
  \/ settled (tag (_transform_element abbreviations n)).
Proof.
  unfold _transform_element. destruct (handler_for n) eqn:Hh; simpl.
  - right. by vm_compute.
  - right. unfold _tag_handler_c. destruct (truthy _); by vm_compute.
  - right. by vm_compute.
  - right. by vm_compute.
  - right. by vm_compute.
  - right. by vm_compute.
  - right. unfold _tag_handler_abr. destruct (_ !! _); by vm_compute.
  - unfold default_tag_handler. destruct (str_in (tag n) VISUAL_TAGS) eqn:Hv; [right | by left].
    simpl. destruct (str_in (tag n) BLOCK_TAGS); by vm_compute.
Qed.

(** Running the dispatch a second time on an element changes nothing. *)
Lemma _transform_element_idem {C} (abbreviations : abbrs) (n : Node C) :
  _transform_element abbreviations (_transform_element abbreviations n)
  = _transform_element abbreviations n.
Proof.
  destruct (_transform_element_settles abbreviations n) as [H|H].
  - by rewrite !H.
  - by apply settled_fixed.
Qed.

Lemma visual_cases (t : string) :
  t ∈ VISUAL_TAGS ->
  t ∈ ["ar"; "k"; "su"]
  \/ t ∈ ["opt"; "nu"; "pos"; "tense"; "tr"; "dtrn"; "rref"; "ex"; "co"]
  \/ t ∈ ["def"; "kref"; "iref"; "abr"; "c"].
Proof.
  unfold VISUAL_TAGS. rewrite !elem_of_cons, elem_of_nil.
  intros H. repeat (destruct H as [->|H]); try done;
    first [ left; tag_mem | right; left; tag_mem | right; right; tag_mem ].
Qed.

Lemma block_visual_div {C} (abbreviations : abbrs) (n : Node C) :
  tag n ∈ ["ar"; "k"; "su"] ->
  tag (_transform_element abbreviations n) = "div"
  /\ attr_get "class" (attrib (_transform_element abbreviations n)) = Some (Some (tag n)).
Proof.
  destruct n as [t a x tl cs]. cbn [tag]. rewrite !elem_of_cons, elem_of_nil.
  intros H. repeat (destruct H as [->|H]); try done;
    dispatch; (split; [done | apply attr_get_set]).
Qed.

Lemma inline_visual_span {C} (abbreviations : abbrs) (n : Node C) :
  tag n ∈ ["opt"; "nu"; "pos"; "tense"; "tr"; "dtrn"; "rref"; "ex"; "co"] ->
  tag (_transform_element abbreviations n) = "span"
  /\ attr_get "class" (attrib (_transform_element abbreviations n)) = Some (Some (tag n)).
Proof.
  destruct n as [t a x tl cs]. cbn [tag]. rewrite !elem_of_cons, elem_of_nil.
  intros H. repeat (destruct H as [->|H]); try done;
    dispatch; (split; [done | apply attr_get_set]).
Qed.

Lemma special_visual_plain {C} (abbreviations : abbrs) (n : Node C) :
  tag n ∈ ["def"; "kref"; "iref"; "abr"; "c"] ->
  ~ class_container n (_transform_element abbreviations n).
Proof.
  destruct n as [t a x tl cs]. cbn [tag]. rewrite !elem_of_cons, elem_of_nil.
  unfold class_container.
  intros H. repeat (destruct H as [->|H]); try done; dispatch.
  - intros [[?|?] _]; done.
  - intros [[?|?] _]; done.
  - intros [[?|?] _]; done.
  - destruct (_ !! _); cbn [tag set_attr]; intros [[?|?] _]; done.
  - destruct (truthy _); cbn [attrib set_attr attr_set attr_get]; intros [_ ?]; done.
Qed.

(** C7 (amended).  Among the visual tags, those rewritten to class-bearing
    containers are all but [def], [kref], [iref], [abr] and [c]; of these,
    [ar], [k] and [su] become the block-level container [div] and every
    other one becomes the inline container [span]. *)
Theorem visual_tag_containers {C} (abbreviations : abbrs) (n : Node C) :
  tag n ∈ VISUAL_TAGS ->
  (class_container n (_transform_element abbreviations n)
     <-> tag n ∉ ["def"; "kref"; "iref"; "abr"; "c"])
  /\ (class_container n (_transform_element abbreviations n) ->
      (tag (_transform_element abbreviations n) = "div" <-> tag n ∈ ["ar"; "k"; "su"])
      /\ (tag (_transform_element abbreviations n) = "span" <-> tag n ∉ ["ar"; "k"; "su"])).
Proof.
  intros Hv. destruct (visual_cases _ Hv) as [Hb|[Hi|Hs]].
  - destruct (block_visual_div abbreviations n Hb) as [Ht Hc].
    assert (Hn : tag n ∉ ["def"; "kref"; "iref"; "abr"; "c"]).
    { revert Hb. rewrite !elem_of_cons, elem_of_nil.
      intros H. repeat (destruct H as [->|H]); try done; tag_mem. }
    split; [split; [done | intros _; split; [by left | done]] |].
    intros _. rewrite Ht. split; [done | split; [done | intros Hno; by destruct Hno]].
  - destruct (inline_visual_span abbreviations n Hi) as [Ht Hc].
    assert (Hn : (tag n ∉ ["def"; "kref"; "iref"; "abr"; "c"]) /\ (tag n ∉ ["ar"; "k"; "su"])).
    { revert Hi. rewrite !elem_of_cons, elem_of_nil.
      intros H. repeat (destruct H as [->|H]); try done; split; tag_mem. }
    destruct Hn as [Hn1 Hn2].
    split; [split; [done | intros _; split; [by right | done]] |].
    intros _. rewrite Ht. split; [split; [done | intros Hb; by destruct Hn2] | done].
  - pose proof (special_visual_plain abbreviations n Hs) as Hno.
    split; [split; [done | intros Hn; by destruct Hn] | done].
Qed.

Lemma visual_tag_containers_witness :
  class_container (mkNode "opt" [] (Some "x") None ([] : list Element))
    (_transform_element ∅ (mkNode "opt" [] (Some "x") None ([] : list Element)))
  /\ tag (_transform_element ∅ (mkNode "opt" [] (Some "x") None ([] : list Element))) = "span".
Proof.
  pose proof (visual_tag_containers ∅ (mkNode "opt" [] (Some "x") None ([] : list Element))) as H.
  destruct H as [H1 H2]; [tag_mem |].
  assert (Hc : class_container (mkNode "opt" [] (Some "x") None ([] : list Element))
                 (_transform_element ∅ (mkNode "opt" [] (Some "x") None ([] : list Element)))).
  { apply H1. tag_mem. }
  split; [exact Hc |].
  apply (H2 Hc). tag_mem.
Defined.

(** C7 as stated fails: [su] is a visual tag, it is rewritten to a
    class-bearing container, and that container is the block-level [div]. *)
Lemma su_is_block_level :
  "su" ∈ VISUAL_TAGS
  /\ "su" ≠ "k"
  /\ class_container (mkNode "su" [] None None ([] : list Element))
       (_transform_element ∅ (mkNode "su" [] None None ([] : list Element)))
  /\ tag (_transform_element ∅ (mkNode "su" [] None None ([] : list Element))) = "div"
  /\ tag (_transform_element ∅ (mkNode "su" [] None None ([] : list Element))) ≠ "span".
Proof.
  split; [tag_mem |]. split; [done |].
  split; [split; [by left | reflexivity] |].
  split; [reflexivity | done].
Qed.

(** ** Title stripping *)

Lemma fold_tails (ks : list Element) (acc : string) :
  fold_left (fun (acc : string) (k : Element) =>
               if truthy (tail k) then acc ++ or_empty (tail k) else acc) ks acc
  = acc ++ str_concat ((fun k : Element => or_empty (tail k)) <$> ks).
Proof.
  revert acc. induction ks as [|k ks IH]; intros acc; cbn [fold_left fmap list_fmap str_concat].
  - by rewrite str_app_nil_r.
  - rewrite IH. destruct (truthy (tail k)) eqn:E.
    + by rewrite str_app_assoc.
    + by rewrite (or_empty_falsy _ E).
Qed.

(** C8 (amended).  With the title-stripping option on, the element that
    is rewritten is the article without its [k] children, its text being
    the concatenation of their trailing texts in document order with the
    leading whitespace stripped, followed by the article's own text. *)
Theorem strip_titles_prepends (self : XDXF) (abbreviations : abbrs) (e : Element) :
  skip_article_title self = true ->
  _text self abbreviations e
    = _text (mkXDXF false (remove_newline self)) abbreviations (strip_titles e)
  /\ text (strip_titles e) = Some (lstrip (k_tails e) ++ or_empty (text e))
  /\ children (strip_titles e) = filter (fun c : Element => tag c ≠ "k") (children e)
  /\ tag (strip_titles e) = tag e
  /\ attrib (strip_titles e) = attrib e
  /\ tail (strip_titles e) = tail e.
Proof.
  intros Hskip. split.
  { unfold _text, _text_walk. rewrite Hskip. reflexivity. }
  unfold strip_titles, k_tails. cbn [node text children tag attrib tail].
  rewrite fold_tails, str_app_nil_l.
  repeat split.
  destruct (truthy (text e)) eqn:E; [done |].
  by rewrite (or_empty_falsy _ E), str_app_nil_r.
Qed.

Lemma strip_titles_prepends_witness :
  text (strip_titles (Elem (mkNode "ar" [] (Some "y") None
          [Elem (mkNode "k" [] (Some "a") (Some " x") [])])))
  = Some "xy".
Proof.
  exact (proj1 (proj2 (strip_titles_prepends (mkXDXF true false) ∅
           (Elem (mkNode "ar" [] (Some "y") None
              [Elem (mkNode "k" [] (Some "a") (Some " x") [])]))
           eq_refl))).
Defined.

(** C8 as stated fails: the concatenated trailing text [" x"] is not
    prepended unchanged, its leading blank is dropped. *)
Lemma tails_not_prepended_unchanged :
  k_tails (Elem (mkNode "ar" [] (Some "y") None
             [Elem (mkNode "k" [] (Some "a") (Some " x") [])])) = " x"
  /\ text (strip_titles (Elem (mkNode "ar" [] (Some "y") None
             [Elem (mkNode "k" [] (Some "a") (Some " x") [])]))) = Some "xy"
  /\ Some "xy" ≠ Some (" x" ++ "y").
Proof. split; [reflexivity | split; [reflexivity | done]]. Qed.

(** ** Dispatch *)

Lemma iter_transform_calls (abbreviations : abbrs) (e : Element) (p : path) :
  (iter_transform abbreviations p e).2
  = (fun pn : path * Node Element => (pn.1, handler_for pn.2)) <$> preorder p e.
Proof.
  revert p. induction e as [n IH] using Element_ind'. intros p.
  destruct n as [t a x tl cs]. cbn [iter_transform preorder children snd fmap list_fmap].
  f_equal. cbn [children] in IH.
  generalize 0%nat as i.
  induction IH as [|c cs Hc _ IHcs]; intros i.
  - reflexivity.
  - cbn [snd]. rewrite fmap_app, Hc, IHcs. reflexivity.
Qed.

Lemma preorder_unfold (p : path) (n : Node Element) :
  preorder p (Elem n) = (p, n) :: preorder_kids p 0 (children n).
Proof.
  cbn [preorder]. f_equal. generalize 0%nat as i.
  induction (children n) as [|c cs IH]; intros i; [done |].
  cbn [preorder_kids]. by rewrite IH.
Qed.

Lemma preorder_prefix (e : Element) (p q : path) :
  q ∈ (preorder p e).*1 -> p `prefix_of` q.
Proof.
  revert p q. induction e as [n IH] using Element_ind'. intros p q.
  rewrite preorder_unfold. cbn [fmap list_fmap fst]. rewrite elem_of_cons.
  intros [->|Hq]; [done |].
  revert Hq. generalize 0%nat as i.
  induction IH as [|c cs Hc _ IHcs]; intros i; cbn [preorder_kids].
  - cbn. by rewrite elem_of_nil.
  - rewrite fmap_app, elem_of_app. intros [Hq|Hq].
    + apply Hc in Hq. etrans; [|exact Hq]. by apply prefix_app_r.
    + by eapply IHcs.
Qed.

Lemma preorder_kids_prefix (cs : list Element) (p q : path) (i : nat) :
  q ∈ (preorder_kids p i cs).*1 -> exists j, (i <= j)%nat /\ (p ++ [j])%list `prefix_of` q.
Proof.
  revert i. induction cs as [|c cs IH]; intros i; cbn [preorder_kids].
  - cbn. by rewrite elem_of_nil.
  - rewrite fmap_app, elem_of_app. intros [Hq|Hq].
    + exists i. split; [lia | by eapply preorder_prefix].
    + destruct (IH _ Hq) as (j & Hj & Hp). exists j. split; [lia | done].
Qed.

Lemma prefix_snoc_inj (p q : path) (i j : nat) :
  (p ++ [i])%list `prefix_of` q -> (p ++ [j])%list `prefix_of` q -> i = j.
Proof.
  intros [k1 ->] [k2 H]. rewrite <- !(assoc_L (++)%list) in H.
  apply (inj (app p)) in H. cbn in H. congruence.
Qed.

Lemma preorder_NoDup (e : Element) (p : path) : NoDup (preorder p e).*1.
Proof.
  revert p. induction e as [n IH] using Element_ind'. intros p.
  rewrite preorder_unfold. cbn [fmap list_fmap fst]. apply NoDup_cons. split.
  - intros Hin. apply preorder_kids_prefix in Hin as (j & _ & Hp).
    apply prefix_length in Hp. rewrite length_app in Hp. cbn in Hp. lia.
  - generalize 0%nat as i.
    induction IH as [|c cs Hc _ IHcs]; intros i; cbn [preorder_kids].
    + cbn. apply NoDup_nil_2.
    + rewrite fmap_app. apply NoDup_app. split; [apply Hc | split; [| apply IHcs]].
      intros q Hq1 Hq2. apply preorder_prefix in Hq1.
      apply preorder_kids_prefix in Hq2 as (j & Hj & Hq2).
      pose proof (prefix_snoc_inj _ _ _ _ Hq1 Hq2). lia.
Qed.

Lemma lookup_handler_default (name : string) :
  lookup_handler name = H_default
  <-> name ∉ ["ar"; "c"; "iref"; "kref"; "su"; "def"; "abr"].
Proof.
  unfold lookup_handler. rewrite !not_elem_of_cons.
  repeat match goal with
    | |- context [String.eqb name ?s] =>
        destruct (String.eqb_spec name s) as [->|?];
        [split; [intros H; discriminate H | intros H; decompose [and] H; congruence] |]
    end.
  split; [intros _; repeat split; try assumption; apply not_elem_of_nil | done].
Qed.

(** ** Title expansion *)

Lemma iadd_Some (title : option string) (s : string) :
  iadd title (Some s) = Ok (Some (or_empty title ++ s)).
Proof.
  unfold iadd. destruct (truthy title) eqn:E; [done |].
  by rewrite (or_empty_falsy _ E).
Qed.

Lemma iadd_truthy (title x : option string) :
  truthy x = true -> iadd title x = Ok (Some (or_empty title ++ or_empty x)).
Proof. intros E. rewrite (or_empty_truthy _ E) at 1. apply iadd_Some. Qed.

Lemma or_empty_Some (s : string) : or_empty (Some s) = s.
Proof. reflexivity. Qed.

Lemma mktitle_step_parts (include_opts : list Z) (title : option string) (opt_i : Z) (c : kid) :
  (k_tag c = "opt" -> is_Some (k_text c)) ->
  exists title' opt_i',
    mktitle_step include_opts (title, opt_i) c = Ok (title', opt_i')
    /\ forall cs,
         or_empty title ++ str_concat (title_parts include_opts (opt_i + 1) (c :: cs))
         = or_empty title' ++ str_concat (title_parts include_opts (opt_i' + 1) cs).
Proof.
  intros Htext. unfold mktitle_step. cbn [fst snd title_parts].
  destruct (bool_decide (k_tag c = "opt")) eqn:Eopt.
  - apply bool_decide_eq_true in Eopt.
    assert (Enu : bool_decide (k_tag c = "nu") = false).
    { apply bool_decide_eq_false. rewrite Eopt. done. }
    rewrite Enu. cbn [andb mbind result_bind].
    destruct (Htext Eopt) as [s Hs]. rewrite Hs.
    destruct (bool_decide ((opt_i + 1)%Z ∈ include_opts)).
    + rewrite iadd_Some. cbn [mbind result_bind].
      destruct (truthy (k_tail c)) eqn:Et.
      * rewrite (iadd_truthy _ _ Et). cbn [mbind result_bind].
        eexists _, _. split; [reflexivity |]. intros cs. cbn [str_concat].
        by rewrite !or_empty_Some, !str_app_assoc.
      * eexists _, _. split; [reflexivity |]. intros cs. cbn [str_concat].
        rewrite (or_empty_falsy _ Et).
        by rewrite !or_empty_Some, !str_app_assoc, str_app_nil_l.
    + cbn [mbind result_bind].
      destruct (truthy (k_tail c)) eqn:Et.
      * rewrite (iadd_truthy _ _ Et). cbn [mbind result_bind].
        eexists _, _. split; [reflexivity |]. intros cs. cbn [str_concat].
        by rewrite !or_empty_Some, !str_app_nil_l, !str_app_assoc.
      * eexists _, _. split; [reflexivity |]. intros cs. cbn [str_concat].
        by rewrite (or_empty_falsy _ Et).
  - destruct (bool_decide (k_tag c = "nu")); cbn [andb].
    + destruct (truthy (k_tail c)) eqn:Et.
      * rewrite (iadd_truthy _ _ Et). cbn [mbind result_bind].
        eexists _, _. split; [reflexivity |]. intros cs. cbn [str_concat].
        by rewrite !or_empty_Some, !str_app_assoc.
      * cbn [mbind result_bind]. eexists _, _. split; [reflexivity |]. intros cs.
        cbn [str_concat]. by rewrite (or_empty_falsy _ Et).
    + cbn [mbind result_bind]. eexists _, _. split; [reflexivity |]. done.
Qed.

Lemma mktitle_loop_parts (include_opts : list Z) (cs : list kid) (title : option string) (opt_i : Z) :
  (forall c, c ∈ cs -> k_tag c = "opt" -> is_Some (k_text c)) ->
  exists title' opt_i',
    mktitle_loop include_opts (title, opt_i) cs = Ok (title', opt_i')
    /\ or_empty title' = or_empty title ++ str_concat (title_parts include_opts (opt_i + 1) cs).
Proof.
  revert title opt_i. induction cs as [|c cs IH]; intros title opt_i Htext.
  - exists title, opt_i. split; [done |]. cbn. by rewrite str_app_nil_r.
  - destruct (mktitle_step_parts include_opts title opt_i c) as (t1 & i1 & Hstep & Hparts).
    { apply Htext. by left. }
    destruct (IH t1 i1) as (t2 & i2 & Hloop & Hres).
    { intros c' Hc'. apply Htext. by right. }
    exists t2, i2. cbn [mktitle_loop]. rewrite Hstep. cbn [mbind result_bind].
    split; [exact Hloop |]. rewrite Hres. symmetry. apply Hparts.
Qed.

(** C4 (amended).  When every [opt] child of a title element has a text,
    the variant for a chosen combination is the title element's own text
    followed, for each child in document order, by: the trailing text of
    a [nu] child; the text of an [opt] child exactly when its index is in
    the combination, and its trailing text whether chosen or not. *)
Theorem mktitle_variant (title_element : Element) (include_opts : list Z) :
  (forall c, c ∈ kids_of title_element -> k_tag c = "opt" -> is_Some (k_text c)) ->
  exists t,
    _mktitle title_element include_opts = Ok t
    /\ or_empty t
       = or_empty (text title_element)
         ++ str_concat (title_parts include_opts 0 (kids_of title_element)).
Proof.
  intros Htext. unfold _mktitle, mktitle_on.
  destruct (mktitle_loop_parts include_opts (kids_of title_element) (text title_element) (-1) Htext)
    as (t & i & Hloop & Hres).
  exists t. rewrite Hloop. cbn [mbind result_bind fst]. split; [done | exact Hres].
Qed.

Lemma mktitle_variant_witness :
  exists t, _mktitle k_cat [0%Z] = Ok t /\ or_empty t = "cat (feline)".
Proof.
  apply (mktitle_variant k_cat [0%Z]).
  intros c Hc _. apply list_elem_of_singleton in Hc. subst c. by eexists.
Defined.

(** The example of C4: exactly the two variants. *)
Lemma cat_variants : expand_title k_cat = Ok [Some "cat"; Some "cat (feline)"].
Proof. reflexivity. Qed.

(** C4 as stated fails: with a [nu] child before the [opt] child the
    variant holds the trailing text of the [nu] child as well. *)
Lemma variant_holds_nu_tail :
  _mktitle k_numbered [0%Z] = Ok (Some "a1b")
  /\ claimed_variant k_numbered [0%Z] = "ab".
Proof. split; reflexivity. Qed.

(** *** The combinations *)

Lemma combinations_0 {A} (l : list A) : combinations l 0 = [[]].
Proof. by destruct l. Qed.

Lemma combinations_size {A} (l : list A) (j : nat) (c : list A) :
  c ∈ combinations l j -> length c = j.
Proof.
  revert j c. induction l as [|x l IH]; intros [|j] c; cbn [combinations].
  - by intros ->%list_elem_of_singleton.
  - by intros ?%elem_of_nil.
  - by intros ->%list_elem_of_singleton.
  - rewrite elem_of_app, list_elem_of_fmap. intros [(c' & -> & Hc')|Hc].
    + cbn. f_equal. by apply IH.
    + by apply IH.
Qed.

Lemma combinations_gt {A} (l : list A) (j : nat) :
  (length l < j)%nat -> combinations l j = [].
Proof.
  revert j. induction l as [|x l IH]; intros [|j] Hj; cbn in *; try lia; [done |].
  rewrite !IH by lia. done.
Qed.

Lemma combinations_all {A} (l : list A) : combinations l (length l) = [l].
Proof.
  induction l as [|x l IH]; [done |].
  cbn [combinations length]. rewrite IH, combinations_gt by lia. done.
Qed.

Lemma length_range (n : nat) : length (range n) = n.
Proof. unfold range. by rewrite length_fmap, length_seq. Qed.

Lemma flat_map_seq_S {A} (f : nat -> list A) (s k : nat) :
  flat_map f (seq s (S k)) = (flat_map f (seq s k) ++ f (s + k)%nat)%list.
Proof. rewrite seq_S, flat_map_app. cbn. by rewrite app_nil_r. Qed.

Lemma count_combinations_cons {A} (x : A) (l : list A) (m : nat) :
  length (flat_map (combinations (x :: l)) (seq 0 (S m)))
  = (length (flat_map (combinations l) (seq 0 m))
     + length (flat_map (combinations l) (seq 0 (S m))))%nat.
Proof.
  induction m as [|m IH].
  - cbn. by rewrite combinations_0.
  - rewrite (flat_map_seq_S _ 0 (S m)), length_app, IH.
    rewrite (flat_map_seq_S _ 0 m), (flat_map_seq_S _ 0 (S m)), !length_app.
    cbn [combinations plus]. rewrite length_app, length_fmap.
    rewrite (flat_map_seq_S (combinations l) 0 m), length_app. cbn [plus]. lia.
Qed.

Lemma count_combinations {A} (l : list A) (m : nat) :
  (length l < m)%nat ->
  length (flat_map (combinations l) (seq 0 m)) = (2 ^ length l)%nat.
Proof.
  revert m. induction l as [|x l IH]; intros m Hm.
  - destruct m as [|m]; [cbn in Hm; lia |]. clear Hm.
    induction m as [|m IHm]; [done |].
    rewrite flat_map_seq_S, length_app, IHm. done.
  - destruct m as [|m]; [lia |]. cbn [length] in *.
    rewrite count_combinations_cons, !IH by lia. cbn. lia.
Qed.

(** The loops of [parse] over [j] and [comb] go through [2 ^ n_opts]
    combinations. *)
Lemma title_combs_length (n : nat) : length (title_combs n) = (2 ^ n)%nat.
Proof.
  unfold title_combs.
  rewrite <- (length_range n) at 2. apply count_combinations.
  rewrite length_range. lia.
Qed.

Lemma rmapM_Ok {A B} (f : A -> result B) (l : list A) (bs : list B) :
  rmapM f l = Ok bs <-> Forall2 (fun a b => f a = Ok b) l bs.
Proof.
  revert bs. induction l as [|a l IH]; intros bs; cbn [rmapM].
  - split; [intros [= <-]; constructor | by intros ->%Forall2_nil_inv_l].
  - destruct (f a) as [b|x] eqn:Ea; cbn [mbind result_bind].
    + destruct (rmapM f l) as [bs'|x] eqn:El; cbn [mbind result_bind].
      * split.
        -- intros [= <-]. constructor; [done | by apply IH].
        -- intros (b' & bs'' & Hb & Hbs & ->)%Forall2_cons_inv_l.
           apply IH in Hbs. congruence.
      * split; [done |].
        intros (b' & bs'' & Hb & Hbs & ->)%Forall2_cons_inv_l.
        apply IH in Hbs. done.
    + split; [done |].
      intros (b' & bs'' & Hb & Hbs & ->)%Forall2_cons_inv_l. congruence.
Qed.

Lemma flat_map_seq_sizes (f : nat -> list (list Z)) :
  (forall j c, c ∈ f j -> length c = j) ->
  forall k s,
    by_size (flat_map f (seq s k))
    /\ (forall c, c ∈ flat_map f (seq s k) -> (s <= length c)%nat).
Proof.
  intros Hf. induction k as [|k IH]; intros s.
  - cbn [seq flat_map].
    split; [intros i j a b _ Ha; by rewrite lookup_nil in Ha | by intros c ?%elem_of_nil].
  - destruct (IH (S s)) as [IHs IHb]. cbn [seq flat_map]. split.
    + intros i j a b Hij. rewrite !lookup_app_Some.
      intros [Ha|[Hi Ha]] [Hb|[Hj Hb]].
      * apply list_elem_of_lookup_2, Hf in Ha. apply list_elem_of_lookup_2, Hf in Hb. lia.
      * apply list_elem_of_lookup_2, Hf in Ha. apply list_elem_of_lookup_2, IHb in Hb. lia.
      * apply lookup_lt_Some in Hb. lia.
      * eapply IHs; [| exact Ha | exact Hb]. lia.
    + intros c. rewrite elem_of_app. intros [Hc|Hc].
      * apply Hf in Hc. lia.
      * apply IHb in Hc. lia.
Qed.

Lemma title_combs_by_size (n : nat) : by_size (title_combs n).
Proof.
  unfold title_combs. apply flat_map_seq_sizes.
  intros j c. apply combinations_size.
Qed.

Lemma title_combs_head (n : nat) : head (title_combs n) = Some [].
Proof. unfold title_combs. rewrite Nat.add_1_r. cbn. by rewrite combinations_0. Qed.

Lemma title_combs_last (n : nat) : last (title_combs n) = Some (range n).
Proof.
  unfold title_combs. rewrite Nat.add_1_r, flat_map_seq_S. cbn [plus].
  rewrite <- (length_range n) at 3. rewrite combinations_all. apply last_snoc.
Qed.

Lemma expand_title_combs (title_element : Element) (vs : list (option string)) :
  expand_title title_element = Ok vs ->
  Forall2 (fun comb v => _mktitle title_element comb = Ok v)
          (title_combs (count_opts (kids_of title_element))) vs.
Proof.
  unfold expand_title, expand_on, _mktitle.
  destruct (bool_decide_reflect (count_opts (kids_of title_element) ≠ 0%nat)) as [Hn|Hn].
  - by intros ?%rmapM_Ok.
  - assert (count_opts (kids_of title_element) = 0%nat) as -> by lia.
    destruct (mktitle_on _ _ []) as [t|x] eqn:E; cbn [mbind result_bind]; [|done].
    intros [= <-]. cbn. by repeat constructor.
Qed.

(** C10.  The keys of an article are the variants of its [k] elements,
    those of an earlier [k] before those of a later one.  The variants of
    a title element with [n >= 1] optional segments are built from the
    combinations in [title_combs n], one by one: these are ordered by the
    number of segments they include, the empty combination first and the
    combination of all [n] segments last. *)
Theorem keys_order (element : Element) (keys : list (option string)) :
  article_titles element = Ok keys ->
  exists kss : list (list (option string)),
    keys = concat kss
    /\ Forall2
         (fun (title_element : Element) (vs : list (option string)) =>
            expand_title title_element = Ok vs
            /\ forall n : nat,
                 n = count_opts (kids_of title_element) -> (1 <= n)%nat ->
                 Forall2 (fun comb v => _mktitle title_element comb = Ok v) (title_combs n) vs
                 /\ by_size (title_combs n)
                 /\ head (title_combs n) = Some []
                 /\ last (title_combs n) = Some (range n))
         (findall "k" element) kss.
Proof.
  unfold article_titles.
  destruct (rmapM expand_title (findall "k" element)) as [kss|x] eqn:E;
    cbn [mbind result_bind]; [|done].
  intros [= <-]. exists kss. split; [done |].
  apply rmapM_Ok in E. eapply Forall2_impl; [exact E |].
  intros k vs Hk. split; [done |]. intros n -> _.
  split; [by apply expand_title_combs |].
  split; [apply title_combs_by_size |].
  split; [apply title_combs_head | apply title_combs_last].
Qed.

Lemma keys_order_witness :
  exists kss : list (list (option string)),
    [Some "cat"; Some "cat (feline)"; Some "a1"; Some "a1b"] = concat kss
    /\ Forall2 (fun (title_element : Element) vs => expand_title title_element = Ok vs)
         [k_cat; k_numbered] kss.
Proof.
  destruct (keys_order (Elem (mkNode "ar" [] None None [k_cat; k_numbered]))
              [Some "cat"; Some "cat (feline)"; Some "a1"; Some "a1b"] eq_refl)
    as (kss & Hk & Hall).
  exists kss. split; [exact Hk |].
  eapply Forall2_impl; [exact Hall |]. by intros k vs [H _].
Defined.

Lemma rmapM_total {A B} (f : A -> result B) (l : list A) :
  (forall a, a ∈ l -> exists b, f a = Ok b) ->
  exists bs, rmapM f l = Ok bs /\ length bs = length l.
Proof.
  induction l as [|a l IH]; intros Hf.
  - by exists [].
  - destruct (Hf a) as [b Hb]; [by left |].
    destruct IH as (bs & Hbs & Hlen); [intros a' Ha'; apply Hf; by right |].
    exists (b :: bs). cbn [rmapM]. rewrite Hb, Hbs. cbn. by rewrite Hlen.
Qed.

Lemma mktitle_total (title_element : Element) (include_opts : list Z) :
  (forall c, c ∈ kids_of title_element -> k_tag c = "opt" -> is_Some (k_text c)) ->
  exists t, _mktitle title_element include_opts = Ok t.
Proof.
  intros Htext. unfold _mktitle, mktitle_on.
  destruct (mktitle_loop_parts include_opts (kids_of title_element) (text title_element) (-1) Htext)
    as (t & i & Hloop & _).
  exists t. by rewrite Hloop.
Qed.

Lemma expand_title_total (title_element : Element) :
  (forall c, c ∈ kids_of title_element -> k_tag c = "opt" -> is_Some (k_text c)) ->
  exists vs, expand_title title_element = Ok vs.
Proof.
  intros Htext. unfold expand_title, expand_on.
  destruct (bool_decide (count_opts (kids_of title_element) ≠ 0%nat)).
  - destruct (rmapM_total (mktitle_on (text title_element) (kids_of title_element))
                (title_combs (count_opts (kids_of title_element)))) as (vs & Hvs & _).
    { intros comb _. destruct (mktitle_total title_element comb Htext) as (t & Ht).
      by exists t. }
    by exists vs.
  - destruct (mktitle_total title_element [] Htext) as (t & Ht).
    unfold _mktitle in Ht. rewrite Ht. cbn [mbind result_bind]. by eexists.
Qed.

(** X1.  Of a title element whose [opt] children all have a text, the
    expansion has [2 ^ n] variants, [n] the number of [opt] children. *)
Lemma expand_title_count (title_element : Element) :
  (forall c, c ∈ kids_of title_element -> k_tag c = "opt" -> is_Some (k_text c)) ->
  exists vs,
    expand_title title_element = Ok vs
    /\ length vs = (2 ^ count_opts (kids_of title_element))%nat.
Proof.
  intros Htext. destruct (expand_title_total title_element Htext) as [vs Hvs].
  exists vs. split; [done |].
  apply expand_title_combs, Forall2_length in Hvs.
  by rewrite <- Hvs, title_combs_length.
Qed.

Lemma expand_title_count_witness :
  exists vs, expand_title k_cat = Ok vs /\ length vs = 2%nat.
Proof.
  apply (expand_title_count k_cat).
  intros c Hc _. apply list_elem_of_singleton in Hc. subst c. by eexists.
Defined.

Lemma title_parts_no_opt (include_opts : list Z) (next : Z) (cs : list kid) :
  Forall (fun c => k_tag c ≠ "opt") cs ->
  title_parts include_opts next cs
  = (fun c => or_empty (k_tail c)) <$> filter (fun c => k_tag c = "nu") cs.
Proof.
  induction 1 as [|c cs Hc Hcs IH]; [done |].
  cbn [title_parts]. rewrite bool_decide_eq_false_2 by done. rewrite filter_cons.
  destruct (decide (k_tag c = "nu")) as [Hnu|Hnu].
  - rewrite bool_decide_eq_true_2 by done. cbn. by rewrite IH.
  - rewrite bool_decide_eq_false_2 by done. exact IH.
Qed.

Lemma count_opts_0 (kids : list kid) :
  count_opts kids = 0%nat -> Forall (fun c => k_tag c ≠ "opt") kids.
Proof.
  unfold count_opts. induction kids as [|c cs IH]; [constructor |].
  rewrite filter_cons. destruct (decide (k_tag c = "opt")); [done |].
  intros H. constructor; [done | by apply IH].
Qed.

(** X6.  A title element without [opt] child expands to exactly one
    variant: its own text followed by the trailing texts of its [nu]
    children. *)
Lemma expand_title_no_opt (title_element : Element) :
  count_opts (kids_of title_element) = 0%nat ->
  exists t,
    expand_title title_element = Ok [t]
    /\ or_empty t
       = or_empty (text title_element)
         ++ str_concat ((fun c => or_empty (k_tail c))
                          <$> filter (fun c => k_tag c = "nu") (kids_of title_element)).
Proof.
  intros Hn. pose proof (count_opts_0 _ Hn) as Hno.
  destruct (mktitle_loop_parts [] (kids_of title_element) (text title_element) (-1))
    as (t & i & Hloop & Hres).
  { intros c Hc Hopt. eapply Forall_forall in Hno; [| exact Hc]. done. }
  exists t. unfold expand_title, expand_on. rewrite Hn. cbn [bool_decide decide_rel].
  rewrite bool_decide_eq_false_2 by (intros H; by apply H).
  unfold mktitle_on. rewrite Hloop. cbn [mbind result_bind fst].
  split; [done |]. rewrite Hres. by rewrite (title_parts_no_opt _ _ _ Hno).
Qed.

Lemma expand_title_no_opt_witness :
  exists t, expand_title (Elem (mkNode "k" [] (Some "a") None
                            [Elem (mkNode "nu" [] None (Some "1") [])])) = Ok [t]
            /\ or_empty t = "a1".
Proof.
  apply (expand_title_no_opt (Elem (mkNode "k" [] (Some "a") None
                                [Elem (mkNode "nu" [] None (Some "1") [])]))).
  reflexivity.
Defined.

(** ** Inputs on which the code leaves its specification *)

(** C1, failing input.  The title element [<k>cat<opt/></k>] has one
    [opt] child; the variant that leaves it out is built, the variant
    that includes it adds [None] to ["cat"], which raises: no list of two
    variants is produced, and [parse] ends with the exception before it
    has yielded the article. *)
Lemma empty_opt_raises :
  count_opts (kids_of k_empty_opt) = 1%nat
  /\ _mktitle k_empty_opt [] = Ok (Some "cat")
  /\ _mktitle k_empty_opt [0%Z] = Raise TypeError
  /\ expand_title k_empty_opt = Raise TypeError
  /\ trace (parse (mkXDXF false false) (WellFormed doc_empty_opt)) = []
  /\ raised (parse (mkXDXF false false) (WellFormed doc_empty_opt)) = Some TypeError.
Proof. repeat split; vm_compute; reflexivity. Qed.

(** C2, failing input.  The definition has a value element with the
    text ["noun"], and its key is not registered: [if value:] tests
    whether the value element has children. *)
Lemma text_value_not_registered :
  _mkabbrs abbreviations_noun = ∅
  /\ _mkabbrs abbreviations_noun !! Some "n." = None
  /\ _mkabbrs abbreviations_noun_i !! Some "n." = Some (Some "noun").
Proof. repeat split; vm_compute; reflexivity. Qed.

(** X7.  A block in which no value element has a child element leaves
    the table empty, whatever the texts of its keys and values. *)
Lemma childless_values_not_registered (element : Element) :
  (forall abrdef value,
     abrdef ∈ children element -> find "v" abrdef = Some value -> children value = []) ->
  _mkabbrs element = ∅.
Proof.
  intros Hv. unfold _mkabbrs. generalize (children element), Hv. clear Hv.
  intros cs Hv. induction cs as [|abrdef cs IH]; [done |].
  cbn [fold_left]. destruct (bool_decide _).
  - destruct (find "v" abrdef) as [value|] eqn:Hfind.
    + unfold elem_bool. rewrite (Hv abrdef value); [| by left | done].
      apply IH. intros d v Hd. apply Hv. by right.
    + apply IH. intros d v Hd. apply Hv. by right.
  - apply IH. intros d v Hd. apply Hv. by right.
Qed.

Lemma childless_values_not_registered_witness : _mkabbrs abbreviations_noun = ∅.
Proof.
  apply childless_values_not_registered.
  intros abrdef value Hd. apply list_elem_of_singleton in Hd. subst abrdef.
  intros [= <-]. reflexivity.
Defined.

(** C5, failing input.  The first article has no [k] element and holds
    an empty [kref]: rendering it raises before the titles are looked at,
    so no warning is logged and the second article is never processed. *)
Lemma untitled_article_not_reported :
  article_titles (Elem (mkNode "ar" [] None None [Elem (mkNode "kref" [] None None [])])) = Ok []
  /\ warnings (parse (mkXDXF false false) (WellFormed doc_untitled_kref)) = []
  /\ items (parse (mkXDXF false false) (WellFormed doc_untitled_kref)) = []
  /\ raised (parse (mkXDXF false false) (WellFormed doc_untitled_kref)) = Some TypeError.
Proof. repeat split; vm_compute; reflexivity. Qed.

(** C6, failing input.  The document is well formed and iterating
    [parse] raises: the handler of the empty [kref] sets [href] to
    [None], which [tostring] refuses to serialise. *)
Lemma well_formed_input_raises :
  attr_get "href" (attrib (_tag_handler_kref (mkNode "kref" [] None None ([] : list Element))))
    = Some None
  /\ _text (mkXDXF false false) ∅
       (Elem (mkNode "ar" [] None None
          [Elem (mkNode "k" [] (Some "a") None []); Elem (mkNode "kref" [] None None [])]))
     = Raise TypeError
  /\ raised (parse (mkXDXF false false) (WellFormed doc_empty_kref)) = Some TypeError
  /\ items (parse (mkXDXF false false) (WellFormed doc_empty_kref)) = [].
Proof. repeat split; vm_compute; reflexivity. Qed.

(** ** The store model: [_text] works on a copy *)

Local Open Scope list_scope.

Lemma set_children_twice {C D E} (cs : list D) (cs' : list E) (n : Node C) :
  set_children cs (set_children cs' n) = set_children cs n.
Proof. reflexivity. Qed.

Lemma set_children_same {C} (n : Node C) : set_children (children n) n = n.
Proof. by destruct n. Qed.

Lemma _transform_element_set_children {C D} (abbreviations : abbrs) (cs : list D) (n : Node C) :
  _transform_element abbreviations (set_children cs n)
  = set_children cs (_transform_element abbreviations n).
Proof.
  unfold _transform_element, handler_for. cbn [set_children tag].
  destruct (lookup_handler (lower (tag n))); cbn [run_handler]; try reflexivity.
  - unfold _tag_handler_c. cbn. by destruct (truthy _).
  - unfold _tag_handler_abr. cbn. by destruct (_ !! _).
  - unfold default_tag_handler. cbn. by destruct (str_in _ _).
Qed.

Lemma iter_transform_tree (abbreviations : abbrs) (e : Element) (p : path) :
  (iter_transform abbreviations p e).1 = transform_all abbreviations e.
Proof.
  revert p. induction e as [n IH] using Element_ind'. intros p.
  destruct n as [t a x tl cs]. cbn [iter_transform transform_all children fst].
  f_equal. f_equal. cbn [children] in IH.
  generalize 0%nat as i.
  induction IH as [|c cs Hc _ IHcs]; intros i; [done |].
  cbn [fst fmap list_fmap]. by rewrite Hc, IHcs.
Qed.

Lemma height_child (n : Node Element) (c : Element) :
  c ∈ children n -> (height c < height (Elem n))%nat.
Proof.
  intros Hc. cbn [height]. apply Nat.lt_succ_r, max_list_elem_of_le.
  apply list_elem_of_fmap. by exists c.
Qed.

Lemma height_transform_all (abbreviations : abbrs) (e : Element) :
  height (transform_all abbreviations e) = height e.
Proof.
  induction e as [n IH] using Element_ind'.
  cbn [height transform_all set_children children]. f_equal. f_equal.
  rewrite <- list_fmap_compose. apply Forall_fmap_ext_1. exact IH.
Qed.

Lemma repr_root (h : heap) (t : ltree) (e : Element) :
  repr h t e -> exists lcs, t = LT (lroot t) lcs
    /\ h !! lroot t = Some (set_children (lroot <$> lcs) e)
    /\ Forall2 (repr h) lcs (children e).
Proof. intros [l lcs n Hl Hcs]. by exists lcs. Qed.

Lemma repr_frame (h h' : heap) (e : Element) (t : ltree) :
  repr h t e -> (forall l, l ∈ cells t -> h' !! l = h !! l) -> repr h' t e.
Proof.
  revert t. induction e as [n IH] using Element_ind'. intros t Hr Hsame.
  inversion Hr as [l lcs n' Hl Hcs]; subst. constructor.
  - rewrite Hsame; [done | by left].
  - assert (Hsub : forall l', l' ∈ flat_map cells lcs -> h' !! l' = h !! l').
    { intros l' Hl'. apply Hsame. by right. }
    clear Hr Hl Hsame. induction Hcs as [|lc c lcs cs Hc Hcs IHcs]; [constructor |].
    apply Forall_cons_1 in IH as [IHc IH].
    constructor.
    + apply IHc; [done |]. intros l' Hl'. apply Hsub. cbn. apply elem_of_app. by left.
    + apply IHcs; [done |]. intros l' Hl'. apply Hsub. cbn. apply elem_of_app. by right.
Qed.

Lemma reprs_frame (h h' : heap) (lcs : list ltree) (cs : list Element) :
  Forall2 (repr h) lcs cs ->
  (forall l, l ∈ flat_map cells lcs -> h' !! l = h !! l) ->
  Forall2 (repr h') lcs cs.
Proof.
  induction 1 as [|lc c lcs cs Hc Hcs IH]; intros Hsame; constructor.
  - eapply repr_frame; [exact Hc |]. intros l Hl. apply Hsame. cbn. apply elem_of_app. by left.
  - apply IH. intros l Hl. apply Hsame. cbn. apply elem_of_app. by right.
Qed.

Lemma repr_cells_bound (h : heap) (e : Element) (t : ltree) :
  repr h t e -> forall l, l ∈ cells t -> (l < length h)%nat.
Proof.
  revert t. induction e as [n IH] using Element_ind'. intros t Hr.
  inversion Hr as [l lcs n' Hl Hcs]; subst. intros l'. cbn [cells].
  rewrite elem_of_cons. intros [->|Hl'].
  - by eapply lookup_lt_Some.
  - clear Hr Hl. induction Hcs as [|lc c lcs cs Hc Hcs IHcs]; [by apply elem_of_nil in Hl' |].
    apply Forall_cons_1 in IH as [IHc IH].
    cbn in Hl'. apply elem_of_app in Hl' as [Hl'|Hl']; [by eapply IHc | by apply IHcs].
Qed.

Lemma repr_ext (h ext : heap) (e : Element) (t : ltree) :
  repr h t e -> repr (h ++ ext) t e.
Proof.
  intros Hr. eapply repr_frame; [exact Hr |].
  intros l Hl. apply lookup_app_l. by eapply repr_cells_bound.
Qed.

Lemma h_map_deepcopy (fuel : nat) (cs : list Element) :
  Forall (fun c => forall t h, repr h t c -> (height c <= fuel)%nat ->
            exists ext t', deepcopy fuel h (lroot t) = Some (h ++ ext, lroot t')
                           /\ copied h ext t' c) cs ->
  forall lcs h,
    Forall2 (repr h) lcs cs ->
    Forall (fun c => (height c <= fuel)%nat) cs ->
    exists ext lts',
      h_map (deepcopy fuel) (lroot <$> lcs) h = Some (h ++ ext, lroot <$> lts')
      /\ Forall2 (repr (h ++ ext)) lts' cs
      /\ NoDup (flat_map cells lts')
      /\ forall l, l ∈ flat_map cells lts' -> (length h <= l < length (h ++ ext))%nat.
Proof.
  induction cs as [|c cs IHcs]; intros IH lcs h Hr Hh.
  - apply Forall2_nil_inv_r in Hr as ->. exists [], [].
    rewrite app_nil_r. cbn.
    split; [done |]. split; [constructor |]. split; [constructor |].
    intros l Hl. by apply elem_of_nil in Hl.
  - apply Forall2_cons_inv_r in Hr as (lc & lcs' & Hc & Hcs & ->).
    apply Forall_cons_1 in IH as [IHc IH]. apply Forall_cons_1 in Hh as [Hhc Hh].
    destruct (IHc lc h Hc Hhc) as (ext1 & t1 & Hcopy & Hr1 & Hnd1 & Hb1).
    destruct (IHcs IH lcs' (h ++ ext1)) as (ext2 & lts2 & Hmap & Hr2 & Hnd2 & Hb2); [| done |].
    { eapply Forall2_impl; [exact Hcs |]. intros. by apply repr_ext. }
    exists (ext1 ++ ext2), (t1 :: lts2).
    cbn [h_map fmap list_fmap]. rewrite Hcopy. cbn [mbind option_bind fst snd].
    rewrite Hmap. cbn [mbind option_bind fst snd]. rewrite (assoc_L (++)).
    split; [done |]. split; [| split].
    + constructor; [by apply repr_ext | done].
    + cbn [flat_map]. apply NoDup_app. split; [done | split; [| done]].
      intros l Hl1 Hl2. apply Hb1 in Hl1. apply Hb2 in Hl2. lia.
    + intros l. cbn [flat_map]. rewrite elem_of_app. intros [Hl|Hl].
      * apply Hb1 in Hl. rewrite !length_app in *. lia.
      * apply Hb2 in Hl. rewrite !length_app in *. lia.
Qed.

Lemma deepcopy_spec (e : Element) :
  forall fuel t h,
    repr h t e -> (height e <= fuel)%nat ->
    exists ext t', deepcopy fuel h (lroot t) = Some (h ++ ext, lroot t')
                   /\ copied h ext t' e.
Proof.
  induction e as [n IH] using Element_ind'. intros fuel t h Hr Hfuel.
  inversion Hr as [l lcs n' Hl Hcs]; subst.
  destruct fuel as [|fuel]; [cbn in Hfuel; lia |].
  destruct (h_map_deepcopy fuel (children n)) with (lcs := lcs) (h := h)
    as (ext & lts & Hmap & Hrs & Hnd & Hb).
  - eapply Forall_impl; [exact IH |]. intros c Hc t' h' Hr' Hh'. by apply Hc.
  - done.
  - apply Forall_forall. intros c Hc. apply height_child in Hc. lia.
  - exists (ext ++ [set_children (lroot <$> lts) n]), (LT (length (h ++ ext)) lts).
    cbn [deepcopy lroot]. rewrite Hl. cbn [mbind option_bind set_children children].
    rewrite Hmap. cbn [mbind option_bind fst snd]. rewrite (assoc_L (++)).
    split; [done |]. split; [| split].
    + constructor.
      * rewrite (assoc_L (++)). by apply list_lookup_middle.
      * rewrite (assoc_L (++)).
        eapply Forall2_impl; [exact Hrs |]. intros. by apply repr_ext.
    + cbn [cells]. apply NoDup_cons. split; [| done].
      intros Hin. apply Hb in Hin. lia.
    + intros l'. cbn [cells]. rewrite elem_of_cons. intros [->|Hl'].
      * rewrite !length_app. cbn. lia.
      * apply Hb in Hl'. rewrite !length_app in *. lia.
Qed.

Lemma h_fold_transform (fuel : nat) (abbreviations : abbrs) (cs : list Element) :
  Forall (fun c => forall t h, repr h t c -> NoDup (cells t) -> (height c <= fuel)%nat ->
            exists h', h_iter_transform fuel abbreviations h (lroot t) = Some h'
                       /\ rewritten h h' t (transform_all abbreviations c)) cs ->
  forall lcs h,
    Forall2 (repr h) lcs cs ->
    NoDup (flat_map cells lcs) ->
    Forall (fun c => (height c <= fuel)%nat) cs ->
    exists h',
      h_fold (h_iter_transform fuel abbreviations) (lroot <$> lcs) h = Some h'
      /\ Forall2 (repr h') lcs (transform_all abbreviations <$> cs)
      /\ length h' = length h
      /\ forall l, l ∉ flat_map cells lcs -> h' !! l = h !! l.
Proof.
  induction cs as [|c cs IHcs]; intros IH lcs h Hr Hnd Hh.
  - apply Forall2_nil_inv_r in Hr as ->. exists h. cbn.
    split; [done |]. split; [constructor | done].
  - apply Forall2_cons_inv_r in Hr as (lc & lcs' & Hc & Hcs & ->).
    apply Forall_cons_1 in IH as [IHc IH]. apply Forall_cons_1 in Hh as [Hhc Hh].
    cbn [flat_map] in Hnd. apply NoDup_app in Hnd as (Hnd1 & Hdisj & Hnd2).
    destruct (IHc lc h Hc Hnd1 Hhc) as (h1 & Hrun & Hr1 & Hlen1 & Hout1).
    destruct (IHcs IH lcs' h1) as (h2 & Hfold & Hr2 & Hlen2 & Hout2); [| done | done |].
    { eapply reprs_frame; [exact Hcs |]. intros l Hl. apply Hout1.
      intros Hl1. by apply (Hdisj _ Hl1). }
    exists h2. cbn [h_fold fmap list_fmap]. rewrite Hrun. cbn [mbind option_bind].
    split; [exact Hfold |]. split; [| split].
    + constructor; [| done].
      eapply repr_frame; [exact Hr1 |]. intros l Hl. apply Hout2.
      intros Hl2. by apply (Hdisj _ Hl).
    + lia.
    + intros l Hl. cbn [flat_map] in Hl. rewrite not_elem_of_app in Hl. destruct Hl as [Hl1 Hl2].
      rewrite Hout2, Hout1; done.
Qed.

Lemma h_iter_transform_spec (abbreviations : abbrs) (e : Element) :
  forall fuel t h,
    repr h t e -> NoDup (cells t) -> (height e <= fuel)%nat ->
    exists h', h_iter_transform fuel abbreviations h (lroot t) = Some h'
               /\ rewritten h h' t (transform_all abbreviations e).
Proof.
  induction e as [n IH] using Element_ind'. intros fuel t h Hr Hnd Hfuel.
  inversion Hr as [l lcs n' Hl Hcs]; subst.
  destruct fuel as [|fuel]; [cbn in Hfuel; lia |].
  cbn [cells] in Hnd. apply NoDup_cons in Hnd as [Hroot Hnd].
  pose proof (lookup_lt_Some _ _ _ Hl) as Hlt.
  set (h1 := <[l := set_children (lroot <$> lcs) (_transform_element abbreviations n)]> h).
  assert (Hl1 : h1 !! l = Some (set_children (lroot <$> lcs) (_transform_element abbreviations n))).
  { unfold h1. by apply list_lookup_insert_eq. }
  destruct (h_fold_transform fuel abbreviations (children n)) with (lcs := lcs) (h := h1)
    as (h' & Hfold & Hrs & Hlen & Hout).
  - eapply Forall_impl; [exact IH |]. intros c Hc t' h0 Hr' Hnd' Hh'. by apply Hc.
  - eapply reprs_frame; [exact Hcs |]. intros l' Hl'. unfold h1.
    apply list_lookup_insert_ne. intros ->. done.
  - done.
  - apply Forall_forall. intros c Hc. apply height_child in Hc. lia.
  - exists h'. cbn [h_iter_transform lroot]. unfold h_transform_element.
    rewrite Hl. cbn [mbind option_bind]. rewrite _transform_element_set_children.
    fold h1. rewrite Hl1. cbn [mbind option_bind set_children children].
    split; [exact Hfold |]. split; [| split].
    + cbn [transform_all]. constructor.
      * rewrite Hout by done. rewrite Hl1. done.
      * exact Hrs.
    + rewrite Hlen. unfold h1. apply length_insert.
    + intros l' Hl'. cbn [cells] in Hl'. apply not_elem_of_cons in Hl' as [Hne Hl'].
      rewrite Hout by done. unfold h1. by apply list_lookup_insert_ne.
Qed.

Lemma h_read_spec (e : Element) :
  forall fuel t h, repr h t e -> (height e <= fuel)%nat -> h_read fuel h (lroot t) = Some e.
Proof.
  induction e as [n IH] using Element_ind'. intros fuel t h Hr Hfuel.
  inversion Hr as [l lcs n' Hl Hcs]; subst.
  destruct fuel as [|fuel]; [cbn in Hfuel; lia |].
  cbn [h_read lroot]. rewrite Hl. cbn [mbind option_bind set_children children].
  assert (Hm : mapM (h_read fuel h) (lroot <$> lcs) = Some (children n)).
  { apply mapM_Some_2.
    assert (Hh : Forall (fun c => (height c <= fuel)%nat) (children n)).
    { apply Forall_forall. intros c Hc. apply height_child in Hc. lia. }
    clear Hr Hl Hfuel. induction Hcs as [|lc c lcs cs Hc Hcs IHcs]; [constructor |].
    apply Forall_cons_1 in IH as [IHc IH]. apply Forall_cons_1 in Hh as [Hhc Hh].
    constructor; [by apply IHc | by apply IHcs]. }
  rewrite Hm. cbn [mbind option_bind]. by destruct n.
Qed.

(** *** Children in the store *)

Lemma Forall_filter_keep {A} (P : A -> Prop) (Q : A -> Prop) `{!forall x, Decision (Q x)}
    (l : list A) :
  Forall P l -> Forall P (filter Q l).
Proof.
  induction 1 as [|x l Hx Hl IH]; [constructor |].
  rewrite filter_cons. destruct (decide (Q x)); [by constructor | done].
Qed.

Lemma repr_lookup (h : heap) (t : ltree) (c : Element) :
  repr h t c -> h !! lroot t = Some (node_at t c).
Proof. intros [l lcs n Hl Hcs]. exact Hl. Qed.

Lemma lroot_in_cells (t : ltree) : lroot t ∈ cells t.
Proof. destruct t. by left. Qed.

Lemma reprs_zip (h : heap) (lcs : list ltree) (cs : list Element) :
  Forall2 (repr h) lcs cs ->
  (zip lcs cs).*1 = lcs /\ (zip lcs cs).*2 = cs
  /\ Forall (fun p : ltree * Element => repr h p.1 p.2) (zip lcs cs).
Proof.
  induction 1 as [|lc c lcs cs Hc Hcs (IH1 & IH2 & IH3)]; [done |].
  cbn. rewrite IH1, IH2. repeat split. by constructor.
Qed.

Lemma h_nodes_pairs (h : heap) (ps : list (ltree * Element)) :
  Forall (fun p : ltree * Element => repr h p.1 p.2) ps ->
  h_nodes h (lroot <$> ps.*1) = Some ((fun p : ltree * Element => node_at p.1 p.2) <$> ps).
Proof.
  intros Hps. unfold h_nodes. apply mapM_Some_2.
  induction Hps as [|p ps Hp Hps IH]; cbn; constructor; [by apply repr_lookup | done].
Qed.

Lemma filter_pairs_locs (t : string) (ps : list (ltree * Element)) :
  (filter (fun cn : loc * Node loc => tag cn.2 = t)
     (zip (lroot <$> ps.*1) ((fun p : ltree * Element => node_at p.1 p.2) <$> ps))).*1
  = lroot <$> (filter (fun p : ltree * Element => tag p.2 = t) ps).*1.
Proof.
  induction ps as [|[lc c] ps IH]; [done |].
  cbn [fmap list_fmap zip zip_with fst snd]. rewrite !filter_cons. cbn [fst snd].
  change (tag (node_at lc c)) with (tag c).
  destruct (decide (tag c = t)); cbn [fmap list_fmap fst]; by rewrite IH.
Qed.

Lemma h_findall_pairs (t : string) (h : heap) (l : loc) (n : Node Element)
    (ps : list (ltree * Element)) :
  h !! l = Some (set_children (lroot <$> ps.*1) n) ->
  Forall (fun p : ltree * Element => repr h p.1 p.2) ps ->
  h_findall t h l = Some (lroot <$> (filter (fun p : ltree * Element => tag p.2 = t) ps).*1).
Proof.
  intros Hl Hps. unfold h_findall. rewrite Hl. cbn [mbind option_bind set_children children].
  rewrite (h_nodes_pairs _ _ Hps). cbn [mbind option_bind].
  by rewrite filter_pairs_locs.
Qed.

Lemma findall_pairs (t : string) (n : Node Element) (ps : list (ltree * Element)) :
  children n = ps.*2 ->
  findall t (Elem n) = (filter (fun p : ltree * Element => tag p.2 = t) ps).*2.
Proof.
  intros Hcs. unfold findall. cbn [node]. rewrite Hcs. clear Hcs.
  induction ps as [|[lc c] ps IH]; [done |].
  cbn [fmap list_fmap snd]. rewrite !filter_cons. cbn [snd].
  destruct (decide (tag c = t)); cbn [fmap list_fmap snd]; by rewrite IH.
Qed.

(** *** Title expansion reads the same titles from the store *)

Lemma h_kids_repr (h : heap) (t : ltree) (e : Element) :
  repr h t e -> h_kids h (lroot t) = Some (kids_of e).
Proof.
  intros Hr. inversion Hr as [l lcs n Hl Hcs]; subst.
  destruct (reprs_zip _ _ _ Hcs) as (H1 & H2 & Hps).
  unfold h_kids. cbn [lroot]. rewrite Hl. cbn [mbind option_bind set_children children].
  rewrite <- H1, (h_nodes_pairs _ _ Hps). cbn [fmap option_fmap option_map].
  f_equal. unfold kids_of. cbn [node]. rewrite <- H2 at 2.
  rewrite <- !list_fmap_compose. by apply list_fmap_ext.
Qed.

Lemma h_expand_title_repr (h : heap) (t : ltree) (e : Element) :
  repr h t e -> h_expand_title h (lroot t) = Some (expand_title e).
Proof.
  intros Hr. unfold h_expand_title. rewrite (h_kids_repr _ _ _ Hr).
  rewrite (repr_lookup _ _ _ Hr). done.
Qed.

Lemma rmapM_id_fmap {A B} (f : A -> result B) (l : list A) :
  rmapM id (f <$> l) = rmapM f l.
Proof. induction l as [|a l IH]; [done |]. cbn. by rewrite IH. Qed.

Lemma h_article_titles_repr (h : heap) (t : ltree) (e : Element) :
  repr h t e -> h_article_titles h (lroot t) = Some (article_titles e).
Proof.
  intros Hr. inversion Hr as [l lcs n Hl Hcs]; subst.
  destruct (reprs_zip _ _ _ Hcs) as (H1 & H2 & Hps).
  unfold h_article_titles. cbn [lroot]. rewrite <- H1 in Hl.
  rewrite (h_findall_pairs "k" _ _ _ _ Hl Hps). cbn [mbind option_bind].
  unfold article_titles. rewrite (findall_pairs "k" n (zip lcs (children n))) by done.
  set (ks := filter _ _).
  assert (Hks : Forall (fun p : ltree * Element => repr h p.1 p.2) ks).
  { unfold ks. by apply Forall_filter_keep. }
  assert (Hm : mapM (h_expand_title h) (lroot <$> ks.*1) = Some (expand_title <$> ks.*2)).
  { apply mapM_Some_2. clear -Hks.
    induction Hks as [|p ps Hp Hps IH]; cbn; constructor; [| done].
    by apply h_expand_title_repr. }
  rewrite Hm. cbn [mbind option_bind]. by rewrite rmapM_id_fmap.
Qed.

(** *** Title stripping in the store *)

Lemma list_remove_first_app (x : loc) (pre rest : list loc) :
  x ∉ pre -> list_remove_first x (pre ++ x :: rest) = pre ++ rest.
Proof.
  induction pre as [|y pre IH]; intros Hx; cbn.
  - by rewrite bool_decide_eq_true_2.
  - apply not_elem_of_cons in Hx as [Hne Hx].
    rewrite bool_decide_eq_false_2 by done. by rewrite IH.
Qed.

Lemma remove_all_filter {A} (key : A -> loc) (P : A -> Prop) `{!forall x, Decision (P x)}
    (ps : list A) :
  NoDup (key <$> ps) ->
  forall pre,
    (forall x, x ∈ pre -> x ∉ key <$> ps) ->
    remove_all (key <$> filter P ps) (pre ++ (key <$> ps))
    = pre ++ (key <$> filter (fun a => ~ P a) ps).
Proof.
  induction ps as [|a ps IH]; intros Hnd pre Hpre; [done |].
  cbn [fmap list_fmap] in Hnd. apply NoDup_cons in Hnd as [Ha Hnd].
  rewrite !filter_cons. destruct (decide (P a)) as [HP|HP].
  - destruct (decide (~ P a)) as [HnP|_]; [done |].
    cbn [fmap list_fmap remove_all]. rewrite list_remove_first_app.
    + apply IH; [done |]. intros x Hx Hin. apply (Hpre x Hx). cbn. by right.
    + intros Hin. apply (Hpre _ Hin). cbn. by left.
  - destruct (decide (~ P a)) as [_|HnP]; [| done].
    cbn [fmap list_fmap]. rewrite (cons_middle (key a) pre), (assoc_L (++)).
    rewrite IH; [by rewrite <- (assoc_L (++)) | done |].
    intros x Hx Hin. apply elem_of_app in Hx as [Hx|Hx].
    + apply (Hpre x Hx). cbn. by right.
    + apply list_elem_of_singleton in Hx as ->. done.
Qed.

Lemma roots_NoDup (lcs : list ltree) :
  NoDup (flat_map cells lcs) -> NoDup (lroot <$> lcs).
Proof.
  induction lcs as [|lc lcs IH]; intros Hnd; [constructor |].
  cbn [flat_map] in Hnd. apply NoDup_app in Hnd as (_ & Hdisj & Hnd).
  cbn. apply NoDup_cons. split; [| by apply IH].
  intros Hin. apply (Hdisj _ (lroot_in_cells lc)).
  apply list_elem_of_fmap in Hin as (lc' & Heq & Hin).
  apply list_elem_of_In, in_flat_map. exists lc'.
  split; [by apply list_elem_of_In |]. apply list_elem_of_In. rewrite Heq. apply lroot_in_cells.
Qed.

Lemma cells_filter_sublist (Q : ltree * Element -> Prop) `{!forall x, Decision (Q x)}
    (ps : list (ltree * Element)) :
  flat_map cells (filter Q ps).*1 `sublist_of` flat_map cells ps.*1.
Proof.
  induction ps as [|p ps IH]; [done |].
  rewrite filter_cons. destruct (decide (Q p)); cbn.
  - by apply sublist_app.
  - by apply sublist_inserts_l.
Qed.

Lemma pairs_Forall2 {A B} (R : A -> B -> Prop) (ps : list (A * B)) :
  Forall (fun p => R p.1 p.2) ps -> Forall2 R ps.*1 ps.*2.
Proof. induction 1; cbn; by constructor. Qed.

Lemma filter_pairs_snd (Q : Element -> Prop) `{!forall x, Decision (Q x)}
    (ps : list (ltree * Element)) :
  filter Q ps.*2 = (filter (fun p : ltree * Element => Q p.2) ps).*2.
Proof.
  induction ps as [|[lc c] ps IH]; [done |].
  cbn [fmap list_fmap snd]. rewrite !filter_cons. cbn [snd].
  destruct (decide (Q c)); cbn [fmap list_fmap snd]; by rewrite IH.
Qed.

Lemma h_strip_loop_spec (h : heap) (l : loc) (n0 : Node loc) (ks : list (ltree * Element)) :
  (l < length h)%nat ->
  Forall (fun p : ltree * Element => repr h p.1 p.2 /\ lroot p.1 ≠ l) ks ->
  forall (acc : string) (cur : list loc),
    h_strip_loop l (acc, <[l := set_children cur n0]> h) (lroot <$> ks.*1)
    = Some (fold_left (fun (acc : string) (k : Element) =>
                         if truthy (tail k) then (acc ++ or_empty (tail k))%string else acc)
                      ks.*2 acc,
            <[l := set_children (remove_all (lroot <$> ks.*1) cur) n0]> h).
Proof.
  intros Hlt Hks. induction Hks as [|[lk ck] ks [Hk Hne] Hks IH]; intros acc cur; [done |].
  cbn [fmap list_fmap fst snd h_strip_loop fold_left remove_all].
  unfold h_strip_step. cbn [fst snd] in *.
  rewrite list_lookup_insert_ne by done.
  rewrite (repr_lookup _ _ _ Hk). cbn [mbind option_bind].
  unfold h_remove. rewrite list_lookup_insert_eq by done.
  cbn [mbind option_bind set_children children].
  rewrite list_insert_insert_eq.
  change (tail (node_at lk ck)) with (tail ck).
  apply IH.
Qed.

Lemma remove_all_pairs (t : string) (ps : list (ltree * Element)) :
  NoDup (lroot <$> ps.*1) ->
  remove_all (lroot <$> (filter (fun p : ltree * Element => tag p.2 = t) ps).*1) (lroot <$> ps.*1)
  = lroot <$> (filter (fun p : ltree * Element => tag p.2 ≠ t) ps).*1.
Proof.
  intros Hnd.
  pose proof (remove_all_filter (fun p : ltree * Element => lroot p.1)
                (fun p : ltree * Element => tag p.2 = t) ps) as Hra.
  rewrite <- !list_fmap_compose in *.
  apply (Hra Hnd []). intros x Hx. by apply elem_of_nil in Hx.
Qed.

Lemma h_strip_titles_spec (h : heap) (t : ltree) (e : Element) :
  repr h t e -> NoDup (cells t) ->
  exists h' t',
    h_strip_titles h (lroot t) = Some h'
    /\ lroot t' = lroot t
    /\ repr h' t' (strip_titles e)
    /\ NoDup (cells t')
    /\ (forall x, x ∈ cells t' -> x ∈ cells t)
    /\ length h' = length h
    /\ forall x, x ∉ cells t -> h' !! x = h !! x.
Proof.
  intros Hr Hnd. inversion Hr as [l lcs n Hl Hcs]; subst.
  destruct (reprs_zip _ _ _ Hcs) as (H1 & H2 & Hps).
  set (ps := zip lcs (children n)) in *.
  cbn [cells] in Hnd. apply NoDup_cons in Hnd as [Hroot Hnd].
  pose proof (lookup_lt_Some _ _ _ Hl) as Hlt.
  set (kept := filter (fun p : ltree * Element => tag p.2 ≠ "k") ps).
  set (ks := filter (fun p : ltree * Element => tag p.2 = "k") ps).
  set (n0 := set_children (lroot <$> lcs) n) in *.
  assert (Hroots : forall p, p ∈ ps -> lroot p.1 ≠ l).
  { intros p Hp Heq. apply Hroot. rewrite <- Heq, <- H1.
    apply list_elem_of_In, in_flat_map. exists p.1.
    split; [apply list_elem_of_In, list_elem_of_fmap; by exists p
           | apply list_elem_of_In, lroot_in_cells]. }
  assert (Hks : Forall (fun p : ltree * Element => repr h p.1 p.2 /\ lroot p.1 ≠ l) ks).
  { unfold ks. apply Forall_filter_keep. apply Forall_forall. intros p Hp.
    split; [by eapply Forall_forall in Hps | by apply Hroots]. }
  assert (Hfind : h_findall "k" h l = Some (lroot <$> ks.*1)).
  { apply (h_findall_pairs "k" h l n ps); [by rewrite H1 | done]. }
  assert (Hloop := h_strip_loop_spec h l n0 ks Hlt Hks ""%string (lroot <$> lcs)).
  assert (Hid : <[l := set_children (lroot <$> lcs) n0]> h = h).
  { by apply list_insert_id. }
  rewrite Hid in Hloop.
  assert (Hrem : remove_all (lroot <$> ks.*1) (lroot <$> lcs) = lroot <$> kept.*1).
  { rewrite <- H1. apply remove_all_pairs. rewrite H1. by apply roots_NoDup. }
  rewrite Hrem in Hloop.
  set (text' := if truthy (text n)
                then Some (lstrip (k_tails (Elem n)) ++ or_empty (text n))%string
                else Some (lstrip (k_tails (Elem n)))).
  set (h' := <[l := set_text text' (set_children (lroot <$> kept.*1) n0)]> h).
  assert (Hacc : fold_left (fun (acc : string) (k : Element) =>
                    if truthy (tail k) then (acc ++ or_empty (tail k))%string else acc)
                   ks.*2 ""%string = k_tails (Elem n)).
  { rewrite fold_tails, str_app_nil_l. unfold k_tails.
    by rewrite (findall_pairs "k" n ps). }
  exists h', (LT l kept.*1).
  split; [| split; [done | split; [| split; [| split; [| split]]]]].
  - unfold h_strip_titles. cbn [lroot]. rewrite Hfind. cbn [mbind option_bind].
    rewrite Hloop. cbn [mbind option_bind fst snd].
    rewrite list_lookup_insert_eq by done. cbn [mbind option_bind].
    rewrite list_insert_insert_eq, Hacc. done.
  - assert (Hstrip : strip_titles (Elem n)
                     = Elem (mkNode (tag n) (attrib n) text' (tail n) kept.*2)).
    { unfold strip_titles, text'. cbn [node]. rewrite fold_tails, str_app_nil_l.
      fold (k_tails (Elem n)). f_equal. f_equal.
      rewrite <- H2 at 1. apply filter_pairs_snd. }
    rewrite Hstrip. constructor.
    + unfold h'. rewrite list_lookup_insert_eq by done. done.
    + cbn [children]. eapply reprs_frame.
      * apply pairs_Forall2. unfold kept. by apply Forall_filter_keep.
      * intros x Hx. unfold h'. apply list_lookup_insert_ne. intros ->.
        apply Hroot. rewrite <- H1. eapply elem_of_sublist; [exact Hx |].
        apply cells_filter_sublist.
  - cbn [cells]. apply NoDup_cons. split.
    + intros Hx. apply Hroot. rewrite <- H1. eapply elem_of_sublist; [exact Hx |].
      apply cells_filter_sublist.
    + eapply sublist_NoDup; [exact Hnd |]. rewrite <- H1. apply cells_filter_sublist.
  - intros x. cbn [cells]. rewrite !elem_of_cons. intros [->|Hx]; [by left | right].
    rewrite <- H1. eapply elem_of_sublist; [exact Hx |]. apply cells_filter_sublist.
  - unfold h'. apply length_insert.
  - intros x Hx. cbn [cells] in Hx. apply not_elem_of_cons in Hx as [Hne _].
    unfold h'. by apply list_lookup_insert_ne.
Qed.

(** *** [_text] in the store *)

Lemma max_list_bound (l : list nat) (m : nat) :
  (forall x, x ∈ l -> (x <= m)%nat) -> (max_list l <= m)%nat.
Proof.
  induction l as [|x l IH]; intros Hl; cbn; [lia |].
  apply Nat.max_lub; [apply Hl; by left | apply IH; intros y Hy; apply Hl; by right].
Qed.

Lemma height_strip_titles (e : Element) : (height (strip_titles e) <= height e)%nat.
Proof.
  destruct e as [n]. unfold strip_titles. cbn [height node children].
  apply le_n_S, max_list_bound. intros x Hx.
  apply list_elem_of_fmap in Hx as (c & -> & Hc).
  apply list_elem_of_filter in Hc as [_ Hc].
  apply max_list_elem_of_le, list_elem_of_fmap. by exists c.
Qed.

Lemma h_transform_root_spec (abbreviations : abbrs) (h : heap) (t : ltree) (e : Element) :
  repr h t e -> NoDup (cells t) ->
  exists h',
    h_transform_element abbreviations h (lroot t) = Some h'
    /\ rewritten h h' t (Elem (_transform_element abbreviations e)).
Proof.
  intros Hr Hnd. inversion Hr as [l lcs n Hl Hcs]; subst.
  cbn [cells] in Hnd. apply NoDup_cons in Hnd as [Hroot _].
  pose proof (lookup_lt_Some _ _ _ Hl) as Hlt.
  eexists. unfold h_transform_element. cbn [lroot]. rewrite Hl. cbn [mbind option_bind].
  split; [reflexivity |]. split; [| split].
  - cbn [node]. constructor.
    + rewrite list_lookup_insert_eq by done.
      rewrite !_transform_element_set_children. done.
    + rewrite _transform_element_children.
      eapply reprs_frame; [exact Hcs |]. intros x Hx.
      apply list_lookup_insert_ne. by intros ->.
  - apply length_insert.
  - intros x Hx. cbn [cells] in Hx. apply not_elem_of_cons in Hx as [Hne _].
    by apply list_lookup_insert_ne.
Qed.

Lemma height_transform_root (abbreviations : abbrs) (e : Element) :
  height (Elem (_transform_element abbreviations e)) = height e.
Proof. destruct e as [n]. cbn [height node]. by rewrite _transform_element_children. Qed.

Lemma _text_transform_all (self : XDXF) (abbreviations : abbrs) (e : Element) :
  _text self abbreviations e
  = render self
      (transform_all abbreviations
         (Elem (_transform_element abbreviations
                  (node (if skip_article_title self then strip_titles e else e))))).
Proof.
  unfold _text, _text_walk. cbv zeta. cbn [fst]. by rewrite iter_transform_tree.
Qed.

Lemma h_text_spec (fuel : nat) (self : XDXF) (abbreviations : abbrs)
    (h : heap) (t : ltree) (e : Element) :
  repr h t e -> (height e <= fuel)%nat ->
  exists h',
    h_text fuel self abbreviations h (lroot t) = Some (h', _text self abbreviations e)
    /\ (length h <= length h')%nat
    /\ forall l, (l < length h)%nat -> h' !! l = h !! l.
Proof.
  intros Hr Hfuel.
  destruct (deepcopy_spec e fuel t h Hr Hfuel) as (ext & t0 & Hcopy & Hr0 & Hnd0 & Hb0).
  set (e1 := if skip_article_title self then strip_titles e else e).
  assert (exists h1 t1,
             (if skip_article_title self then h_strip_titles (h ++ ext) (lroot t0)
              else Some (h ++ ext)) = Some h1
             /\ repr h1 t1 e1 /\ NoDup (cells t1)
             /\ (forall x, x ∈ cells t1 -> (length h <= x)%nat)
             /\ (length h <= length h1)%nat
             /\ (forall x, (x < length h)%nat -> h1 !! x = h !! x)
             /\ lroot t1 = lroot t0)
    as (h1 & t1 & Hstep1 & Hr1 & Hnd1 & Hb1 & Hlen1 & Hout1 & Hroot1).
  { unfold e1. destruct (skip_article_title self).
    - destruct (h_strip_titles_spec _ _ _ Hr0 Hnd0)
        as (h1 & t1 & Hs & Hrt & Hr1 & Hnd1 & Hsub & Hlen & Hout).
      exists h1, t1. split; [done |]. split; [done |]. split; [done |].
      split; [| split; [| split; [| done]]].
      + intros x Hx. apply Hsub, Hb0 in Hx. lia.
      + rewrite Hlen, length_app. lia.
      + intros x Hx. rewrite Hout; [by apply lookup_app_l |].
        intros Hin. apply Hb0 in Hin. lia.
    - exists (h ++ ext), t0. split; [done |]. split; [done |]. split; [done |].
      split; [| split; [| split; [| done]]].
      + intros x Hx. apply Hb0 in Hx. lia.
      + rewrite length_app. lia.
      + intros x Hx. by apply lookup_app_l. }
  assert (Hh1 : (height e1 <= fuel)%nat).
  { unfold e1. destruct (skip_article_title self); [| done].
    pose proof (height_strip_titles e). lia. }
  destruct (h_transform_root_spec abbreviations h1 t1 e1 Hr1 Hnd1)
    as (h2 & Hstep2 & Hr2 & Hlen2 & Hout2).
  destruct (h_iter_transform_spec abbreviations _ fuel t1 h2 Hr2 Hnd1)
    as (h3 & Hstep3 & Hr3 & Hlen3 & Hout3).
  { by rewrite height_transform_root. }
  exists h3. split; [| split].
  - unfold h_text. rewrite Hcopy. cbn [mbind option_bind fst snd].
    rewrite Hstep1. cbn [mbind option_bind]. rewrite <- Hroot1.
    rewrite Hstep2. cbn [mbind option_bind]. rewrite Hstep3. cbn [mbind option_bind].
    rewrite (h_read_spec _ fuel t1 h3 Hr3).
    + cbn [mbind option_bind]. rewrite _text_transform_all. unfold e1. reflexivity.
    + by rewrite height_transform_all, height_transform_root.
  - lia.
  - intros l Hl.
    assert (Hfresh : l ∉ cells t1).
    { intros Hin. apply Hb1 in Hin. lia. }
    rewrite Hout3, Hout2 by done. by apply Hout1.
Qed.

(** C9.  [_text] works on a copy: whatever the store [h] holds when it is
    called, it holds afterwards (every object with its tag, attributes,
    text, tail and children), so the element passed to [_text] still
    stands for the same tree, and the title expansion that [parse] runs
    on it after the rendering yields the keys it would have yielded
    before. *)
Theorem text_leaves_original (fuel : nat) (self : XDXF) (abbreviations : abbrs)
    (h : heap) (t : ltree) (e : Element) :
  repr h t e -> (height e <= fuel)%nat ->
  exists h',
    h_text fuel self abbreviations h (lroot t) = Some (h', _text self abbreviations e)
    /\ (forall l n, h !! l = Some n -> h' !! l = Some n)
    /\ repr h' t e
    /\ h_article_titles h' (lroot t) = h_article_titles h (lroot t)
    /\ h_article_titles h (lroot t) = Some (article_titles e)
    /\ h_article fuel self abbreviations h (lroot t)
       = Some (h', txt ← _text self abbreviations e; ts ← article_titles e; Ok (txt, ts)).
Proof.
  intros Hr Hfuel.
  destruct (h_text_spec fuel self abbreviations h t e Hr Hfuel) as (h' & Htext & Hlen & Hsame).
  assert (Hr' : repr h' t e).
  { eapply repr_frame; [exact Hr |]. intros l Hl. apply Hsame.
    by eapply repr_cells_bound. }
  exists h'. split; [done |]. split; [| split; [done | split; [| split]]].
  - intros l n Hl. rewrite Hsame; [done | by eapply lookup_lt_Some].
  - by rewrite !(h_article_titles_repr _ t e).
  - by apply h_article_titles_repr.
  - unfold h_article. rewrite Htext. cbn [mbind option_bind fst snd].
    rewrite (h_article_titles_repr _ t e Hr'). done.
Qed.

Lemma text_leaves_original_witness :
  exists h',
    h_text 3 (mkXDXF true false) ∅ store_ex 3 = Some (h', _text (mkXDXF true false) ∅ article_ex)
    /\ (forall l n, store_ex !! l = Some n -> h' !! l = Some n)
    /\ repr h' shape_ex article_ex
    /\ h_article_titles h' 3 = h_article_titles store_ex 3
    /\ h_article_titles store_ex 3 = Some (article_titles article_ex)
    /\ h_article 3 (mkXDXF true false) ∅ store_ex 3
       = Some (h', txt ← _text (mkXDXF true false) ∅ article_ex;
                   ts ← article_titles article_ex; Ok (txt, ts)).
Proof.
  apply (text_leaves_original 3 (mkXDXF true false) ∅ store_ex shape_ex article_ex).
  - repeat constructor.
  - vm_compute. lia.
Defined.

(** ** The streaming loop *)

Lemma emit_keys_ok (eff : effect) (st : run) :
  keys_ok eff -> Forall keys_ok (trace st) -> Forall keys_ok (trace (emit eff st)).
Proof. intros He Hst. cbn. apply Forall_app. split; [done | by constructor]. Qed.

Lemma on_end_keys_ok (self : XDXF) (st : run) (element : Element) :
  Forall keys_ok (trace st) -> Forall keys_ok (trace (on_end self st element).1).
Proof.
  intros Hst. unfold on_end. destruct (raised st); [done |].
  unfold on_description. destruct (bool_decide (tag element = "description"%string)).
  all: unfold on_full_name; cbn [node clear tag].
  all: match goal with |- context [bool_decide (?t = "full_name"%string)] =>
         destruct (bool_decide (t = "full_name"%string)) end.
  all: unfold on_xdxf; cbn [node clear tag].
  all: match goal with |- context [bool_decide (?t = "xdxf"%string)] =>
         destruct (bool_decide (t = "xdxf"%string)) end.
  all: unfold on_abbreviations; cbn [node clear tag].
  all: match goal with |- context [bool_decide (?t = "abbreviations"%string)] =>
         destruct (bool_decide (t = "abbreviations"%string)) end.
  all: unfold on_ar; cbn [node clear tag abbreviations trace raised].
  all: match goal with |- context [bool_decide (?t = "ar"%string)] =>
         destruct (bool_decide (t = "ar"%string)) end.
  all: repeat match goal with
         | |- context [match ?r with Ok _ => _ | Raise _ => _ end] => destruct r
         | |- context [match ?l with [] => _ | _ :: _ => _ end] => destruct l
         end.
  all: cbn [fst raise trace]; repeat apply emit_keys_ok; cbn [keys_ok trace]; done.
Qed.

Lemma visit_keys_ok (self : XDXF) (element : Element) :
  forall st, Forall keys_ok (trace st) -> Forall keys_ok (trace (visit self element st).1).
Proof.
  induction element as [n IH] using Element_ind'. intros st Hst.
  cbn [visit]. apply on_end_keys_ok. revert st Hst.
  induction IH as [|c cs Hc _ IHcs]; intros st Hst; [done |].
  cbn [fst]. apply IHcs, Hc, Hst.
Qed.

(** X2.  Every [Content] that [parse] yields has at least one key,
    whatever the input. *)
Lemma content_keys_nonempty (self : XDXF) (f : source) :
  Forall keys_ok (trace (parse self f)).
Proof.
  destruct f as [root|closed]; cbn [parse].
  - apply visit_keys_ok. constructor.
  - assert (H : forall st, Forall keys_ok (trace st) ->
                  Forall keys_ok (trace (fold_left (fun st e => (visit self e st).1) closed st))).
    { induction closed as [|e closed IH]; intros st Hst; [done |].
      cbn [fold_left]. apply IH, visit_keys_ok, Hst. }
    specialize (H start ltac:(constructor)).
    by destruct (raised _).
Qed.

Lemma expand_title_nonempty (title_element : Element) (vs : list (option string)) :
  expand_title title_element = Ok vs -> vs ≠ [].
Proof.
  intros H. apply expand_title_combs, Forall2_length in H.
  rewrite title_combs_length in H. intros ->. cbn in H.
  pose proof (Nat.pow_nonzero 2 (count_opts (kids_of title_element))). lia.
Qed.

(** The expansion yields no key exactly for an article without [k] child. *)
Lemma no_keys_iff_no_title (element : Element) :
  article_titles element = Ok [] <-> findall "k" element = [].
Proof.
  unfold article_titles. split.
  - destruct (rmapM expand_title (findall "k" element)) as [tss|x] eqn:E;
      cbn [mbind result_bind]; [| done].
    intros [= Hc]. apply rmapM_Ok in E.
    destruct E as [|k vs ks tss Hk _]; [done |].
    apply expand_title_nonempty in Hk. cbn in Hc. by destruct vs.
  - by intros ->.
Qed.

(** X3.  An article without title whose rendering returns: one warning
    with the serialised article, no item, and the loop goes on. *)
Lemma untitled_article_warned (self : XDXF) (st : run) (element : Element)
    (txt s : string) :
  tag element = "ar"%string ->
  findall "k" element = [] ->
  _text self (abbreviations st) element = Ok txt ->
  tostring_utf8 element = Ok s ->
  trace (on_ar self st element).1
    = trace st ++ [Warn ("No title found in article:" ++ String LF "%s")%string s]
  /\ raised (on_ar self st element).1 = raised st
  /\ abbreviations (on_ar self st element).1 = abbreviations st.
Proof.
  intros Htag Hk Htxt Hs. unfold on_ar.
  rewrite bool_decide_eq_true_2 by done.
  rewrite Htxt, (proj2 (no_keys_iff_no_title element) Hk), Hs. done.
Qed.


(** ** When nothing raises *)

Lemma attr_set_str (key : string) (v : string) (a : attrs) :
  attrs_str a -> attrs_str (attr_set key (Some v) a).
Proof.
  unfold attrs_str. induction 1 as [|[k w] a Hk Ha IH]; cbn.
  - repeat constructor. by eexists.
  - destruct (String.eqb k key); constructor; first [done | by eexists].
Qed.

Lemma _transform_element_str {C} (abbreviations : abbrs) (n : Node C) :
  table_str abbreviations -> renderable n ->
  attrs_str (attrib (_transform_element abbreviations n)).
Proof.
  intros Htab [Hattr Hkref]. unfold _transform_element.
  destruct (handler_for n) eqn:Hh; cbn [run_handler].
  - by apply attr_set_str.
  - unfold _tag_handler_c. destruct (truthy _); cbn; [| constructor].
    repeat constructor. by eexists.
  - done.
  - destruct (Hkref eq_refl) as [x Hx]. unfold _tag_handler_kref. cbn. rewrite Hx.
    by apply attr_set_str.
  - by apply attr_set_str.
  - done.
  - unfold _tag_handler_abr. cbn [set_tag text].
    destruct (abbreviations !! text n) as [v|] eqn:Hv; [| done].
    destruct (Htab _ _ Hv) as [x ->]. by apply attr_set_str.
  - unfold default_tag_handler. destruct (str_in _ _); [| done].
    by apply attr_set_str.
Qed.

Lemma rmapM_serialize_attr (a : attrs) :
  attrs_str a -> exists items, rmapM serialize_attr a = Ok items.
Proof.
  intros Ha. destruct (rmapM_total serialize_attr a) as (items & Hi & _); [| by exists items].
  intros kv Hkv. eapply Forall_forall in Ha as [v Hv]; [| exact Hkv].
  unfold serialize_attr. rewrite Hv. by eexists.
Qed.

Lemma _serialize_xml_unfold (n : Node Element) :
  _serialize_xml (Elem n)
  = (items ← rmapM serialize_attr (attrib n);
     inner ← (ss ← rmapM _serialize_xml (children n); Ok (str_concat ss));
     Ok ("<" ++ tag n ++ str_concat items
         ++ (if truthy (text n) || negb (bool_decide (children n = []))
             then ">" ++ _escape_cdata (or_empty (text n)) ++ inner ++ "</" ++ tag n ++ ">"
             else " />")
         ++ (if truthy (tail n) then _escape_cdata (or_empty (tail n)) else ""))%string).
Proof.
  cbn [_serialize_xml]. destruct (rmapM serialize_attr (attrib n)); [| done].
  cbn [mbind result_bind]. f_equal.
  induction (children n) as [|c cs IH]; [done |].
  cbn [rmapM]. destruct (_serialize_xml c); [| done]. cbn [mbind result_bind].
  rewrite IH. destruct (rmapM _serialize_xml cs); [| done].
  cbn [mbind result_bind str_concat]. done.
Qed.

Lemma _serialize_xml_returns (e : Element) :
  Forall (fun n : Node Element => attrs_str (attrib n)) (subnodes e) ->
  exists s, _serialize_xml e = Ok s.
Proof.
  induction e as [n IH] using Element_ind'. cbn [subnodes]. intros Hall.
  apply Forall_cons_1 in Hall as [Hn Hcs].
  destruct (rmapM_serialize_attr _ Hn) as [items Hitems].
  rewrite _serialize_xml_unfold, Hitems. cbn [mbind result_bind].
  destruct (rmapM_total _serialize_xml (children n)) as (ss & Hss & _).
  - intros c Hc. eapply Forall_forall in IH; [| exact Hc]. apply IH.
    apply Forall_forall. intros m Hm. eapply Forall_forall in Hcs; [exact Hcs |].
    apply list_elem_of_In, in_flat_map. exists c.
    split; apply list_elem_of_In; done.
  - rewrite Hss. cbn [mbind result_bind]. by eexists.
Qed.

Lemma transform_all_str (abbreviations : abbrs) (e : Element) :
  Forall (fun n : Node Element => attrs_str (attrib (_transform_element abbreviations n)))
         (subnodes e) ->
  Forall (fun n : Node Element => attrs_str (attrib n)) (subnodes (transform_all abbreviations e)).
Proof.
  induction e as [n IH] using Element_ind'. cbn [subnodes transform_all set_children children].
  intros Hall. apply Forall_cons_1 in Hall as [Hn Hcs]. constructor; [done |].
  clear Hn. induction IH as [|c cs Hc _ IHcs]; [constructor |].
  cbn [flat_map fmap list_fmap] in *. apply Forall_app in Hcs as [Hc' Hcs].
  apply Forall_app. split; [by apply Hc | by apply IHcs].
Qed.

Lemma subnodes_strip_titles (P : Node Element -> Prop) (e : Element) :
  Forall P (flat_map subnodes (children e)) ->
  Forall P (flat_map subnodes (children (strip_titles e))).
Proof.
  unfold strip_titles. cbn [node children].
  induction (children e) as [|c cs IH]; [done |].
  cbn [flat_map]. intros [Hc Hcs]%Forall_app. rewrite filter_cons.
  destruct (decide _); [| by apply IH].
  cbn [flat_map]. apply Forall_app. split; [done | by apply IH].
Qed.

(** [_text] returns, whatever the options, on an article whose elements
    are all renderable, under a table whose expansions are strings. *)
Lemma text_returns (self : XDXF) (abbreviations : abbrs) (e : Element) :
  table_str abbreviations ->
  Forall renderable (subnodes e) ->
  exists body, _text self abbreviations e = Ok body.
Proof.
  intros Htab Hall. rewrite _text_transform_all.
  set (e0 := if skip_article_title self then strip_titles e else e).
  assert (Hroot : renderable (node e0)
                  /\ Forall renderable (flat_map subnodes (children e0))).
  { destruct e as [n]. cbn [subnodes] in Hall. apply Forall_cons_1 in Hall as [Hn Hcs].
    unfold e0. destruct (skip_article_title self); [| done].
    split; [| by apply (subnodes_strip_titles renderable (Elem n))].
    destruct Hn as [Hattr _]. split; [done |]. intros _.
    unfold strip_titles. cbn [node text]. destruct (truthy _); by eexists. }
  destruct Hroot as [Hn0 Hkids].
  destruct (_serialize_xml_returns
              (transform_all abbreviations (Elem (_transform_element abbreviations e0))))
    as [s Hs].
  - apply transform_all_str. cbn [subnodes]. constructor.
    + rewrite _transform_element_idem. by apply _transform_element_str.
    + rewrite _transform_element_children.
      eapply Forall_impl; [exact Hkids |]. intros n Hn. by apply _transform_element_str.
  - unfold render, tostring_unicode. rewrite Hs. cbn [mbind result_bind]. by eexists.
Qed.

Lemma subnodes_child (e c : Element) (m : Node Element) :
  c ∈ children e -> m ∈ subnodes c -> m ∈ subnodes e.
Proof.
  intros Hc Hm. destruct e as [n]. cbn [subnodes node] in *. right.
  apply list_elem_of_In, in_flat_map. exists c. split; by apply list_elem_of_In.
Qed.

Lemma subnodes_root (e : Element) : node e ∈ subnodes e.
Proof. destruct e as [n]. by left. Qed.

Lemma plain_child (e c : Element) :
  Forall plain (subnodes e) -> c ∈ children e -> Forall plain (subnodes c).
Proof.
  intros He Hc. apply Forall_forall. intros m Hm.
  eapply Forall_forall in He; [exact He |]. by eapply subnodes_child.
Qed.

Lemma plain_renderable (e : Element) :
  Forall plain (subnodes e) -> Forall renderable (subnodes e).
Proof. intros H. eapply Forall_impl; [exact H |]. by intros n [Hn _]. Qed.

Lemma plain_attrs (e : Element) :
  Forall plain (subnodes e) ->
  Forall (fun n : Node Element => attrs_str (attrib n)) (subnodes e).
Proof. intros H. eapply Forall_impl; [exact H |]. by intros n [[Hn _] _]. Qed.

Lemma plain_clear (e : Element) :
  tag e ∈ ["description"; "full_name"; "xdxf"; "ar"]%string ->
  Forall plain (subnodes (clear e)).
Proof.
  intros Ht. cbn. constructor; [| constructor].
  unfold plain, renderable, handler_for. cbn [tag attrib text children].
  rewrite !elem_of_cons, elem_of_nil in Ht.
  repeat (destruct Ht as [->|Ht]); try done.
  all: split; [split; [constructor | by vm_compute] | by split].
Qed.

Lemma table_str_insert (m : gmap (option string) (option string)) (k : option string)
    (v : string) :
  table_str m -> table_str (<[k := Some v]> m).
Proof.
  intros Hm k' v'. rewrite lookup_insert. destruct (decide (k = k')).
  - intros [= <-]. by eexists.
  - apply Hm.
Qed.

Lemma _mkabbrs_str (element : Element) :
  Forall plain (subnodes element) -> table_str (_mkabbrs element).
Proof.
  intros Hel. unfold _mkabbrs.
  assert (Hkids : forall c, c ∈ children element -> Forall plain (subnodes c)).
  { intros c Hc. by eapply plain_child. }
  assert (H0 : table_str (∅ : gmap (option string) (option string))).
  { intros k v Hk. by rewrite lookup_empty in Hk. }
  revert H0. change (∅ : abbrs) with (∅ : gmap (option string) (option string)).
  generalize (∅ : gmap (option string) (option string)).
  induction (children element) as [|abrdef cs IH]; intros m Hm; [done |].
  cbn [fold_left]. apply IH; [intros c Hc; apply Hkids; by right |].
  destruct (bool_decide _); [| done].
  destruct (find "v" abrdef) as [value|] eqn:Hfind; [| done].
  destruct (elem_bool value) eqn:Hb; [| done].
  assert (Hin : value ∈ children abrdef /\ tag value = "v"%string).
  { unfold find, findall in Hfind. apply head_Some_elem_of in Hfind.
    apply list_elem_of_filter in Hfind as [Ht Hin]. done. }
  destruct Hin as [Hin Htag].
  assert (Hplain : plain (node value)).
  { assert (Hab : Forall plain (subnodes abrdef)) by (apply Hkids; by left).
    eapply Forall_forall; [exact Hab |].
    eapply subnodes_child; [exact Hin | apply subnodes_root]. }
  destruct Hplain as (_ & _ & Hv).
  destruct (Hv Htag) as [x Hx].
  { unfold elem_bool in Hb. by destruct (children value). }
  rewrite Hx. clear -Hm.
  revert m Hm. induction (findall "k" abrdef) as [|key ks IHk]; intros m Hm; [done |].
  cbn [fold_left]. apply IHk. by apply table_str_insert.
Qed.

Lemma article_titles_returns (element : Element) :
  Forall plain (subnodes element) -> exists titles, article_titles element = Ok titles.
Proof.
  intros Hel. unfold article_titles.
  destruct (rmapM_total expand_title (findall "k" element)) as (tss & Htss & _).
  - intros k Hk. apply list_elem_of_filter in Hk as [_ Hk].
    destruct (expand_title_total k) as (vs & Hvs); [| by exists vs].
    intros c Hc Hopt. unfold kids_of in Hc.
    apply list_elem_of_fmap in Hc as (c' & -> & Hc').
    assert (Hp : plain (node c')).
    { eapply Forall_forall; [exact Hel |].
      eapply subnodes_child; [exact Hk |].
      eapply subnodes_child; [exact Hc' | apply subnodes_root]. }
    destruct Hp as (_ & Ho & _). by apply Ho.
  - rewrite Htss. cbn. by eexists.
Qed.

Lemma on_end_calm (self : XDXF) (st : run) (element : Element) :
  calm st element ->
  calm (on_end self st element).1 (on_end self st element).2
  /\ tag (on_end self st element).2 = tag element.
Proof.
  intros (Hr & Htab & Hel). unfold on_end. rewrite Hr.
  assert (H1 : calm (on_description st element).1 (on_description st element).2
               /\ tag (on_description st element).2 = tag element).
  { unfold on_description. destruct (bool_decide_reflect (tag element = "description"%string)) as [Ht|Ht].
    - cbn [fst snd]. split; [| done]. split; [done | split; [done |]].
      apply plain_clear. rewrite Ht. tag_mem.
    - done. }
  destruct (on_description st element) as [st1 el1]. cbn [fst snd] in H1.
  destruct H1 as [(Hr1 & Htab1 & Hel1) Ht1].
  assert (H2 : calm (on_full_name st1 el1).1 (on_full_name st1 el1).2
               /\ tag (on_full_name st1 el1).2 = tag el1).
  { unfold on_full_name. destruct (bool_decide_reflect (tag el1 = "full_name"%string)) as [Ht|Ht].
    - cbn [fst snd]. split; [| done]. split; [done | split; [done |]].
      apply plain_clear. rewrite Ht. tag_mem.
    - done. }
  destruct (on_full_name st1 el1) as [st2 el2]. cbn [fst snd] in H2.
  destruct H2 as [(Hr2 & Htab2 & Hel2) Ht2].
  assert (H3 : calm (on_xdxf st2 el2).1 (on_xdxf st2 el2).2
               /\ tag (on_xdxf st2 el2).2 = tag el2).
  { unfold on_xdxf. destruct (bool_decide_reflect (tag el2 = "xdxf"%string)) as [Ht|Ht].
    - cbn [fst snd]. split; [| done]. split; [done | split; [done |]].
      apply plain_clear. rewrite Ht. tag_mem.
    - done. }
  destruct (on_xdxf st2 el2) as [st3 el3]. cbn [fst snd] in H3.
  destruct H3 as [(Hr3 & Htab3 & Hel3) Ht3].
  assert (H4 : calm (on_abbreviations st3 el3).1 (on_abbreviations st3 el3).2
               /\ tag (on_abbreviations st3 el3).2 = tag el3).
  { unfold on_abbreviations. destruct (bool_decide (tag el3 = "abbreviations"%string)); [| done].
    cbn [fst snd]. split; [| done]. split; [done | split; [| done]].
    by apply _mkabbrs_str. }
  destruct (on_abbreviations st3 el3) as [st4 el4]. cbn [fst snd] in H4.
  destruct H4 as [(Hr4 & Htab4 & Hel4) Ht4].
  assert (H5 : calm (on_ar self st4 el4).1 (on_ar self st4 el4).2
               /\ tag (on_ar self st4 el4).2 = tag el4).
  { unfold on_ar. destruct (bool_decide_reflect (tag el4 = "ar"%string)) as [Ht|Ht]; [| done].
    destruct (text_returns self (abbreviations st4) el4 Htab4 (plain_renderable _ Hel4))
      as [txt ->].
    destruct (article_titles_returns el4 Hel4) as [titles ->].
    assert (Hc : Forall plain (subnodes (clear el4))).
    { apply plain_clear. rewrite Ht. tag_mem. }
    destruct titles as [|t ts].
    - destruct (_serialize_xml_returns el4 (plain_attrs _ Hel4)) as [s Hs].
      unfold tostring_utf8. rewrite Hs. cbn [mbind result_bind fst snd]. done.
    - cbn [fst snd]. done. }
  destruct (on_ar self st4 el4) as [st5 el5]. cbn [fst snd] in *.
  destruct H5 as [H5 Ht5]. split; [done | congruence].
Qed.

Lemma visit_unfold (self : XDXF) (n : Node Element) (st : run) :
  visit self (Elem n) st
  = on_end self (visit_kids self (children n) st).1
      (Elem (set_children (visit_kids self (children n) st).2 n)).
Proof.
  cbn [visit].
  match goal with |- on_end _ ?a.1 (Elem (set_children ?b.2 _)) = _ =>
    assert (Hgo : a = visit_kids self (children n) st); [| by rewrite Hgo] end.
  revert st. induction (children n) as [|c cs IH]; intros st; [done |].
  cbn [visit_kids]. by rewrite IH.
Qed.

Lemma plain_set_children (n : Node Element) (cs : list Element) :
  plain n -> length cs = length (children n) -> plain (set_children cs n).
Proof.
  intros (Hr & Ho & Hv) Hlen. split; [done | split; [done |]].
  cbn [set_children tag text children]. intros Ht Hcs. apply Hv; [done |].
  intros Hnil. rewrite Hnil in Hlen. by destruct cs.
Qed.

Lemma visit_calm (self : XDXF) (e : Element) :
  forall st, calm st e ->
    calm (visit self e st).1 (visit self e st).2
    /\ tag (visit self e st).2 = tag e.
Proof.
  induction e as [n IH] using Element_ind'. intros st (Hr & Htab & Hel).
  rewrite visit_unfold. cbn [subnodes] in Hel. apply Forall_cons_1 in Hel as [Hn Hcs].
  assert (Hkids : raised (visit_kids self (children n) st).1 = None
                  /\ table_str (abbreviations (visit_kids self (children n) st).1)
                  /\ Forall plain (flat_map subnodes (visit_kids self (children n) st).2)
                  /\ length (visit_kids self (children n) st).2 = length (children n)).
  { clear Hn. revert st Hr Htab. induction IH as [|c cs Hc _ IHcs]; intros st Hr Htab; [done |].
    cbn [flat_map] in Hcs. apply Forall_app in Hcs as [Hc' Hcs].
    destruct (Hc st) as [(Hr1 & Htab1 & Hel1) _]; [done |].
    destruct (IHcs Hcs _ Hr1 Htab1) as (Hr2 & Htab2 & Hel2 & Hlen2).
    cbn [visit_kids fst snd flat_map length]. split; [done | split; [done | split]].
    - apply Forall_app. done.
    - by rewrite Hlen2. }
  destruct Hkids as (Hr' & Htab' & Hel' & Hlen').
  destruct (on_end_calm self (visit_kids self (children n) st).1
              (Elem (set_children (visit_kids self (children n) st).2 n))) as [Hcalm Htag].
  - split; [done | split; [done |]]. cbn [subnodes node set_children children].
    constructor; [by apply plain_set_children | done].
  - split; [done |]. by rewrite Htag.
Qed.

(** X4.  On a well-formed document whose elements are all plain,
    iterating [parse] raises nothing. *)
Lemma parse_returns (self : XDXF) (root : Element) :
  Forall plain (subnodes root) ->
  raised (parse self (WellFormed root)) = None.
Proof.
  intros Hroot. cbn [parse].
  destruct (visit_calm self root start) as [(Hr & _) _]; [| done].
  split; [done | split; [| done]].
  intros k v Hk. unfold start in Hk. cbn [abbreviations] in Hk.
  change (∅ : abbrs) with (∅ : gmap (option string) (option string)) in Hk.
  by rewrite lookup_empty in Hk.
Qed.

(** A document that is not well formed is given as [Malformed]: the
    [ParseError] of the parser ends the iteration. *)
Lemma parse_malformed_raises (self : XDXF) (closed : list Element) :
  exists x, raised (parse self (Malformed closed)) = Some x.
Proof.
  cbn [parse]. set (st := fold_left _ closed start).
  destruct (raised st) as [x|] eqn:E; [by exists x | by exists ParseError].
Qed.

Lemma parse_returns_witness :
  raised (parse (mkXDXF true true)
            (WellFormed (Elem (mkNode "xdxf" [("lang_from", Some "ENG")] None None
               [Elem (mkNode "abbreviations" [] None None [abbreviations_noun_i]);
                Elem (mkNode "ar" [] None None [k_cat; Elem (mkNode "kref" [] (Some "dog") None [])]);
                Elem (mkNode "ar" [] None None [])]))))%string
  = None.
Proof.
  apply parse_returns.
  repeat (constructor; [repeat split; first [by vm_compute | by repeat constructor; eexists
                                            | by intros; eexists] |]).
  constructor.
Defined.

Lemma untitled_article_warned_witness :
  trace (on_ar (mkXDXF false false) start (Elem (mkNode "ar" [] (Some "x") None [])))%string.1
  = [Warn ("No title found in article:" ++ String LF "%s")
          ("<?xml version='1.0' encoding='utf8'?>" ++ String LF "<ar>x</ar>")]%string.
Proof.
  exact (proj1 (untitled_article_warned (mkXDXF false false) start
                  (Elem (mkNode "ar" [] (Some "x"%string) None [])) _ _
                  eq_refl eq_refl eq_refl eq_refl)).
Defined.

(** * Further properties *)

(** ** The rewriting as a whole *)

Lemma _text_walk_tree (self : XDXF) (abbreviations : abbrs) (e : Element) :
  (_text_walk self abbreviations e).1
  = transform_all abbreviations (Elem (_transform_element abbreviations (text_input self e))).
Proof.
  unfold _text_walk, text_input. cbv zeta. cbn [fst]. by rewrite iter_transform_tree.
Qed.

Lemma transform_all_root_twice (abbreviations : abbrs) (n : Node Element) :
  transform_all abbreviations (Elem (_transform_element abbreviations n))
  = transform_all abbreviations (Elem n).
Proof.
  cbn [transform_all]. by rewrite _transform_element_idem, _transform_element_children.
Qed.

Lemma content_transform_all (abbreviations : abbrs) (e : Element) :
  content <$> subnodes (transform_all abbreviations e) = content <$> subnodes e.
Proof.
  induction e as [n IH] using Element_ind'.
  cbn [transform_all subnodes fmap list_fmap]. f_equal.
  - unfold content. cbn [set_children text tail children].
    destruct (_transform_element_text abbreviations n) as [-> ->].
    by rewrite length_fmap.
  - cbn [set_children children].
    induction IH as [|c cs Hc _ IHcs]; [done |].
    cbn [fmap list_fmap flat_map]. rewrite !fmap_app. by f_equal.
Qed.

(** X8.  The rewriting of [_text] changes tags and attributes only: the
    rewritten copy has, element for element in document order, the
    texts, the tails and the numbers of children of the tree it started
    from (the article, or the article without its titles). *)
Theorem text_keeps_content (self : XDXF) (abbreviations : abbrs) (e : Element) :
  content <$> subnodes (_text_walk self abbreviations e).1
  = content <$> subnodes (text_input self e).
Proof.
  rewrite _text_walk_tree. destruct (text_input self e) as [n]. cbn [node].
  rewrite transform_all_root_twice. apply content_transform_all.
Qed.

Lemma _transform_element_not_visual {C} (abbreviations : abbrs) (n : Node C) :
  str_in (tag (_transform_element abbreviations n)) VISUAL_TAGS = false.
Proof.
  unfold _transform_element. destruct (handler_for n) eqn:Hh; cbn [run_handler].
  - by vm_compute.
  - unfold _tag_handler_c. destruct (truthy _); by vm_compute.
  - by vm_compute.
  - by vm_compute.
  - by vm_compute.
  - by vm_compute.
  - unfold _tag_handler_abr. destruct (_ !! _); by vm_compute.
  - unfold default_tag_handler. destruct (str_in (tag n) VISUAL_TAGS) eqn:Hv; [| exact Hv].
    cbn [set_tag set_attr tag]. destruct (str_in (tag n) BLOCK_TAGS); by vm_compute.
Qed.

Lemma transform_all_twice (abbreviations : abbrs) (e : Element) :
  transform_all abbreviations (transform_all abbreviations e) = transform_all abbreviations e.
Proof.
  induction e as [n IH] using Element_ind'.
  cbn [transform_all set_children children].
  rewrite _transform_element_set_children, _transform_element_idem.
  rewrite set_children_twice. f_equal. f_equal.
  rewrite <- list_fmap_compose.
  induction IH as [|c cs Hc _ IHcs]; [done |].
  cbn [fmap list_fmap compose]. by f_equal.
Qed.

(** X10.  Rendering is stable: the handlers leave a rewritten tree as it
    is, so an article that already is the output of the rewriting is
    rendered to the same body. *)
Theorem text_walk_idempotent (self : XDXF) (abbreviations : abbrs) (e : Element) :
  skip_article_title self = false ->
  (_text_walk self abbreviations (_text_walk self abbreviations e).1).1
  = (_text_walk self abbreviations e).1
  /\ _text self abbreviations (_text_walk self abbreviations e).1 = _text self abbreviations e.
Proof.
  intros Hskip.
  assert (H : (_text_walk self abbreviations (_text_walk self abbreviations e).1).1
              = (_text_walk self abbreviations e).1).
  { rewrite !_text_walk_tree. unfold text_input. rewrite Hskip.
    destruct e as [n]. cbn [node]. rewrite !transform_all_root_twice.
    destruct (transform_all abbreviations (Elem n)) as [m] eqn:E. cbn [node].
    rewrite <- E. apply transform_all_twice. }
  split; [exact H |]. unfold _text. by rewrite H.
Qed.

Lemma text_walk_idempotent_witness :
  _text (mkXDXF false true) ∅ (_text_walk (mkXDXF false true) ∅ article_ex).1
  = _text (mkXDXF false true) ∅ article_ex.
Proof. exact (proj2 (text_walk_idempotent (mkXDXF false true) ∅ article_ex eq_refl)). Defined.

Lemma transform_all_settled (abbreviations : abbrs) (e : Element) :
  Forall (fun n : Node Element => settled (tag n)) (subnodes e) ->
  transform_all abbreviations e = e.
Proof.
  induction e as [n IH] using Element_ind'. destruct n as [t a x tl cs].
  cbn [subnodes children] in *. intros [Hn Hcs]%Forall_cons.
  cbn [transform_all]. rewrite (settled_fixed _ _ Hn).
  unfold set_children. cbn [tag attrib text tail children]. f_equal. f_equal.
  revert Hcs. induction IH as [|c cs Hc _ IHcs]; [done |].
  cbn [flat_map]. intros [H1 H2]%Forall_app.
  cbn [fmap list_fmap]. f_equal; [by apply Hc | by apply IHcs].
Qed.

(** X11.  An article none of whose tags is a visual tag or, lower-cased,
    the name of a handler goes through the rewriting unchanged: such
    markup (HTML inside an article, say) is serialised as it was read. *)
Theorem text_passes_unknown_markup (self : XDXF) (abbreviations : abbrs) (e : Element) :
  skip_article_title self = false ->
  Forall (fun n : Node Element => settled (tag n)) (subnodes e) ->
  (_text_walk self abbreviations e).1 = e
  /\ _text self abbreviations e = render self e.
Proof.
  intros Hskip Hall.
  assert (H : (_text_walk self abbreviations e).1 = e).
  { rewrite _text_walk_tree. unfold text_input. rewrite Hskip.
    destruct e as [n]. cbn [node]. rewrite transform_all_root_twice.
    by apply transform_all_settled. }
  split; [exact H |]. unfold _text. by rewrite H.
Qed.

Lemma text_passes_unknown_markup_witness :
  _text (mkXDXF false false) ∅
    (Elem (mkNode "p" [("id", Some "x")] (Some "a") None
       [Elem (mkNode "K" [] (Some "b") (Some "c") [])]))%string
  = render (mkXDXF false false)
      (Elem (mkNode "p" [("id", Some "x")] (Some "a") None
         [Elem (mkNode "K" [] (Some "b") (Some "c") [])]))%string.
Proof.
  refine (proj2 (text_passes_unknown_markup (mkXDXF false false) ∅ _ eq_refl _)).
  repeat constructor.
Defined.

(** ** When [_mktitle] raises *)

Lemma truthy_or_empty (o : option string) : truthy o = true <-> or_empty o ≠ ""%string.
Proof. destruct o as [[|c s]|]; cbn; split; done. Qed.

Lemma iadd_falsy (title x : option string) : truthy title = false -> iadd title x = Ok x.
Proof. intros E. unfold iadd. by rewrite E. Qed.

Lemma count_opts_cons (c : kid) (cs : list kid) :
  count_opts (c :: cs)
  = ((if bool_decide (k_tag c = "opt"%string) then 1 else 0) + count_opts cs)%nat.
Proof.
  unfold count_opts. rewrite filter_cons.
  destruct (decide (k_tag c = "opt"%string)) as [H|H].
  - by rewrite bool_decide_eq_true_2.
  - by rewrite bool_decide_eq_false_2.
Qed.

Lemma mktitle_step_index (include_opts : list Z) (st st' : option string * Z) (c : kid) :
  mktitle_step include_opts st c = Ok st' ->
  st'.2 = if bool_decide (k_tag c = "opt"%string) then (st.2 + 1)%Z else st.2.
Proof.
  unfold mktitle_step.
  destruct (if _ && _ then _ else _) as [t1|]; cbn [mbind result_bind]; [| done].
  destruct (bool_decide (k_tag c = "opt"%string)); [| by intros [= <-]].
  destruct (if bool_decide (_ ∈ _) then _ else _) as [t2|]; cbn [mbind result_bind]; [| done].
  destruct (if truthy _ then _ else _) as [t3|]; cbn [mbind result_bind]; [| done].
  by intros [= <-].
Qed.

Lemma mktitle_step_raise (include_opts : list Z) (title : option string) (opt_i : Z) (c : kid) :
  k_tag c = "opt"%string -> (opt_i + 1)%Z ∈ include_opts -> k_text c = None ->
  truthy title = true ->
  mktitle_step include_opts (title, opt_i) c = Raise TypeError.
Proof.
  intros Hopt Hin Htxt Ht. unfold mktitle_step. cbn [fst snd].
  rewrite (bool_decide_eq_false_2 (k_tag c = "nu"%string)) by (rewrite Hopt; done).
  cbn [andb mbind result_bind].
  rewrite (bool_decide_eq_true_2 _ Hopt), (bool_decide_eq_true_2 _ Hin), Htxt.
  unfold iadd. by rewrite Ht.
Qed.

Lemma mktitle_step_free (include_opts : list Z) (title : option string) (opt_i : Z) (c : kid) :
  ~ (k_tag c = "opt"%string /\ (opt_i + 1)%Z ∈ include_opts /\ k_text c = None
     /\ truthy title = true) ->
  exists title' opt_i',
    mktitle_step include_opts (title, opt_i) c = Ok (title', opt_i')
    /\ opt_i' = (if bool_decide (k_tag c = "opt"%string) then (opt_i + 1)%Z else opt_i)
    /\ forall cs,
         (or_empty title ++ str_concat (title_parts include_opts (opt_i + 1) (c :: cs))
          = or_empty title' ++ str_concat (title_parts include_opts (opt_i' + 1) cs))%string.
Proof.
  intros Hfree.
  destruct (decide (k_tag c = "opt"%string /\ k_text c = None)) as [[Hopt Htxt]|Hsome].
  - unfold mktitle_step. cbn [fst snd title_parts].
    rewrite (bool_decide_eq_false_2 (k_tag c = "nu"%string)) by (rewrite Hopt; done).
    cbn [andb mbind result_bind].
    rewrite (bool_decide_eq_true_2 _ Hopt), Htxt.
    destruct (bool_decide_reflect ((opt_i + 1)%Z ∈ include_opts)) as [Hin|Hin].
    + assert (Ht : truthy title = false).
      { destruct (truthy title) eqn:E; [| done]. by destruct Hfree. }
      rewrite (iadd_falsy _ _ Ht). cbn [mbind result_bind].
      rewrite (or_empty_falsy _ Ht).
      destruct (truthy (k_tail c)) eqn:Et.
      * rewrite (iadd_falsy None) by done. cbn [mbind result_bind].
        eexists _, _. split; [reflexivity |]. split; [done |]. intros cs. by cbn.
      * cbn [mbind result_bind].
        eexists _, _. split; [reflexivity |]. split; [done |]. intros cs.
        cbn [str_concat]. by rewrite (or_empty_falsy _ Et).
    + cbn [mbind result_bind].
      destruct (truthy (k_tail c)) eqn:Et.
      * rewrite (iadd_truthy _ _ Et). cbn [mbind result_bind].
        eexists _, _. split; [reflexivity |]. split; [done |]. intros cs. cbn [str_concat].
        by rewrite !or_empty_Some, !str_app_nil_l, !str_app_assoc.
      * eexists _, _. split; [reflexivity |]. split; [done |]. intros cs. cbn [str_concat].
        by rewrite (or_empty_falsy _ Et).
  - destruct (mktitle_step_parts include_opts title opt_i c) as (t1 & i1 & Hstep & Hparts).
    { intros Hopt. destruct (k_text c) as [s|]; [by eexists |]. by destruct Hsome. }
    exists t1, i1. split; [exact Hstep |]. split; [| exact Hparts].
    by apply mktitle_step_index in Hstep.
Qed.

Lemma blocked_at_cons (include_opts : list Z) (title title' : string) (next next' : Z)
    (c : kid) (cs : list kid) :
  next' = (if bool_decide (k_tag c = "opt"%string) then (next + 1)%Z else next) ->
  (forall pre, (title ++ str_concat (title_parts include_opts next (c :: pre))
                = title' ++ str_concat (title_parts include_opts next' pre))%string) ->
  blocked_at include_opts title' next' cs ->
  blocked_at include_opts title next (c :: cs).
Proof.
  intros Hnext Hparts (pre & c' & post & -> & Hopt & Htxt & Hin & Hne).
  exists (c :: pre), c', post. split; [done |]. split; [done |]. split; [done |]. split.
  - rewrite count_opts_cons. rewrite Hnext in Hin.
    destruct (bool_decide (k_tag c = "opt"%string)).
    + by replace (next + Z.of_nat (1 + count_opts pre))%Z
        with (next + 1 + Z.of_nat (count_opts pre))%Z by lia.
    + done.
  - by rewrite Hparts.
Qed.

Lemma blocked_at_tail (include_opts : list Z) (title title' : string) (next next' : Z)
    (c : kid) (cs : list kid) :
  next' = (if bool_decide (k_tag c = "opt"%string) then (next + 1)%Z else next) ->
  (forall pre, (title ++ str_concat (title_parts include_opts next (c :: pre))
                = title' ++ str_concat (title_parts include_opts next' pre))%string) ->
  blocked_at include_opts title next (c :: cs) ->
  (k_tag c = "opt"%string /\ next ∈ include_opts /\ k_text c = None /\ title ≠ ""%string)
  \/ blocked_at include_opts title' next' cs.
Proof.
  intros Hnext Hparts (pre & c' & post & Heq & Hopt & Htxt & Hin & Hne).
  destruct pre as [|c0 pre]; cbn [app] in Heq; injection Heq as <- ->.
  - left. cbn [title_parts str_concat] in Hne. rewrite str_app_nil_r in Hne.
    cbn in Hin. rewrite Z.add_0_r in Hin. done.
  - right. exists pre, c', post. split; [done |]. split; [done |]. split; [done |]. split.
    + rewrite count_opts_cons in Hin. rewrite Hnext.
      destruct (bool_decide (k_tag c = "opt"%string)).
      * by replace (next + 1 + Z.of_nat (count_opts pre))%Z
          with (next + Z.of_nat (1 + count_opts pre))%Z by lia.
      * done.
    + by rewrite <- Hparts.
Qed.

Lemma mktitle_loop_cases (include_opts : list Z) (cs : list kid) :
  forall (title : option string) (opt_i : Z),
    match mktitle_loop include_opts (title, opt_i) cs with
    | Ok st =>
        ~ blocked_at include_opts (or_empty title) (opt_i + 1) cs
        /\ or_empty st.1
           = (or_empty title ++ str_concat (title_parts include_opts (opt_i + 1) cs))%string
    | Raise x =>
        x = TypeError /\ blocked_at include_opts (or_empty title) (opt_i + 1) cs
    end.
Proof.
  induction cs as [|c cs IH]; intros title opt_i.
  - cbn [mktitle_loop title_parts str_concat fst]. split.
    + intros (pre & c & post & Heq & _). by destruct pre.
    + by rewrite str_app_nil_r.
  - cbn [mktitle_loop].
    destruct (decide (k_tag c = "opt"%string /\ (opt_i + 1)%Z ∈ include_opts
                      /\ k_text c = None /\ truthy title = true))
      as [(Hopt & Hin & Htxt & Ht)|Hfree].
    + rewrite (mktitle_step_raise _ _ _ _ Hopt Hin Htxt Ht). cbn [mbind result_bind].
      split; [done |]. exists [], c, cs. split; [done |]. split; [done |]. split; [done |].
      split.
      * cbn. by rewrite Z.add_0_r.
      * cbn [title_parts str_concat]. rewrite str_app_nil_r. by apply truthy_or_empty.
    + destruct (mktitle_step_free _ _ _ _ Hfree) as (t1 & i1 & Hstep & Hi1 & Hparts).
      rewrite Hstep. cbn [mbind result_bind]. specialize (IH t1 i1).
      assert (Hnext : (i1 + 1)%Z
                      = if bool_decide (k_tag c = "opt"%string)
                        then (opt_i + 1 + 1)%Z else (opt_i + 1)%Z).
      { rewrite Hi1. by destruct (bool_decide _). }
      destruct (mktitle_loop include_opts (t1, i1) cs) as [st|x].
      * destruct IH as [Hnb Hres]. split.
        -- intros Hb. eapply blocked_at_tail in Hb as [(Hopt & Hin & Htxt & Hne)|Hb];
             [| | exact Hnext | exact Hparts].
           ++ apply Hfree. by rewrite truthy_or_empty.
           ++ done.
        -- rewrite Hres. symmetry. apply Hparts.
      * destruct IH as [-> Hb]. split; [done |].
        eapply blocked_at_cons; [exact Hnext | exact Hparts | exact Hb].
Qed.

(** X12.  When [_mktitle] raises, and what it returns when it does not.
    It raises, a [TypeError], exactly when some chosen [opt] child has no
    text and the title made before it (the title element's text and the
    parts of the children before) is not empty; whenever it returns, the
    title is the title element's text followed by the parts of the
    children. *)
Theorem mktitle_raises_iff (title_element : Element) (include_opts : list Z) :
  (_mktitle title_element include_opts = Raise TypeError
   <-> blocked_at include_opts (or_empty (text title_element)) 0 (kids_of title_element))
  /\ (forall x, _mktitle title_element include_opts = Raise x -> x = TypeError)
  /\ (forall t, _mktitle title_element include_opts = Ok t ->
        or_empty t
        = (or_empty (text title_element)
           ++ str_concat (title_parts include_opts 0 (kids_of title_element)))%string).
Proof.
  unfold _mktitle, mktitle_on.
  pose proof (mktitle_loop_cases include_opts (kids_of title_element)
                (text title_element) (-1)) as H.
  change (-1 + 1)%Z with 0%Z in H.
  destruct (mktitle_loop include_opts (text title_element, (-1)%Z) (kids_of title_element))
    as [st|x]; cbn [mbind result_bind].
  - destruct H as [Hnb Hres]. split; [split; [done | by intros ?%Hnb] |].
    split; [done |]. by intros t [= <-].
  - destruct H as [-> Hb]. split; [done |]. split; [by intros x [= <-] | done].
Qed.

(** An [opt] child without text does no harm at the head of a title that
    has no text of its own: [<k><opt/>cat</k>] expands. *)
Lemma leading_empty_opt_returns :
  _mktitle k_leading_empty_opt [0%Z] = Ok (Some "cat"%string)
  /\ expand_title k_leading_empty_opt = Ok [Some "cat"%string; Some "cat"%string].
Proof. split; vm_compute; reflexivity. Qed.

Lemma mktitle_loop_agree (c1 c2 : list Z) (cs : list kid) :
  forall st : option string * Z,
    (forall i, (st.2 < i <= st.2 + Z.of_nat (count_opts cs))%Z -> i ∈ c1 <-> i ∈ c2) ->
    mktitle_loop c1 st cs = mktitle_loop c2 st cs.
Proof.
  induction cs as [|c cs IH]; intros st Hagree; [done |].
  cbn [mktitle_loop]. rewrite count_opts_cons in Hagree.
  assert (Hstep : mktitle_step c1 st c = mktitle_step c2 st c).
  { unfold mktitle_step. destruct (bool_decide (k_tag c = "opt"%string)); [| done].
    rewrite (bool_decide_ext ((st.2 + 1)%Z ∈ c1) ((st.2 + 1)%Z ∈ c2)); [done |].
    apply Hagree. lia. }
  rewrite Hstep. destruct (mktitle_step c2 st c) as [st'|x] eqn:E; [| done].
  cbn [mbind result_bind]. apply IH. intros i Hi. apply Hagree.
  apply mktitle_step_index in E. rewrite E in Hi.
  destruct (bool_decide (k_tag c = "opt"%string)); lia.
Qed.

(** X13.  Of the tuple [include_opts], [_mktitle] reads only which of the
    indices of the [opt] children it holds: the order of the tuple,
    repetitions and numbers that are no index of an [opt] child change
    nothing. *)
Theorem mktitle_reads_membership (title_element : Element) (c1 c2 : list Z) :
  (forall i, (0 <= i < Z.of_nat (count_opts (kids_of title_element)))%Z -> i ∈ c1 <-> i ∈ c2) ->
  _mktitle title_element c1 = _mktitle title_element c2.
Proof.
  intros Hagree. unfold _mktitle, mktitle_on.
  rewrite (mktitle_loop_agree c1 c2); [done |].
  intros i Hi. apply Hagree. cbn [snd] in Hi. lia.
Qed.

Lemma mktitle_reads_membership_witness :
  _mktitle k_numbered [0%Z] = _mktitle k_numbered [5%Z; 0%Z; (-1)%Z; 0%Z].
Proof.
  apply mktitle_reads_membership. intros i Hi.
  change (count_opts (kids_of k_numbered)) with 1%nat in Hi.
  assert (i = 0%Z) as -> by lia.
  split; intros _; [right |]; left.
Defined.

(** ** When the expansion of a title raises *)

Lemma str_app_eq_nil (s t : string) : (s ++ t)%string = ""%string <-> s = ""%string /\ t = ""%string.
Proof.
  destruct s as [|c s].
  - rewrite str_app_nil_l. split; [done | by intros [_ ->]].
  - rewrite str_app_cons. split; [done | by intros [? _]].
Qed.

Lemma elem_of_range (n : nat) (i : Z) : i ∈ range n <-> (0 <= i < Z.of_nat n)%Z.
Proof.
  unfold range. rewrite list_elem_of_fmap. split.
  - intros (k & -> & Hk%elem_of_seq). lia.
  - intros Hi. exists (Z.to_nat i). split; [lia |]. apply elem_of_seq. lia.
Qed.

Lemma count_opts_app (cs1 cs2 : list kid) :
  count_opts (cs1 ++ cs2) = (count_opts cs1 + count_opts cs2)%nat.
Proof. unfold count_opts. by rewrite filter_app, length_app. Qed.

Lemma title_parts_more (c1 c2 : list Z) (cs : list kid) :
  forall next,
    (forall i, (next <= i < next + Z.of_nat (count_opts cs))%Z -> i ∈ c1 -> i ∈ c2) ->
    str_concat (title_parts c1 next cs) ≠ ""%string ->
    str_concat (title_parts c2 next cs) ≠ ""%string.
Proof.
  induction cs as [|c cs IH]; intros next Hsub; [done |].
  rewrite count_opts_cons in Hsub. cbn [title_parts].
  destruct (bool_decide (k_tag c = "opt"%string)).
  - cbn [str_concat]. rewrite !str_app_eq_nil. intros Hne [[H1 H2] H3].
    apply (IH (next + 1)%Z); [intros i Hi; apply Hsub; lia | | exact H3].
    intros Hrest. apply Hne. split; [| exact Hrest]. split; [| exact H2].
    destruct (bool_decide_reflect (next ∈ c1)) as [Hin|Hin]; [| done].
    rewrite bool_decide_eq_true_2 in H1; [done |]. apply Hsub; [lia | done].
  - destruct (bool_decide (k_tag c = "nu"%string)).
    + cbn [str_concat]. rewrite !str_app_eq_nil. intros Hne [H1 H2].
      apply (IH next); [intros i Hi; apply Hsub; lia | | exact H2].
      intros Hrest. by apply Hne.
    + apply IH. intros i Hi. apply Hsub. lia.
Qed.

Lemma blocked_at_more (c1 c2 : list Z) (title : string) (next : Z) (cs : list kid) :
  (forall i, (next <= i < next + Z.of_nat (count_opts cs))%Z -> i ∈ c1 -> i ∈ c2) ->
  blocked_at c1 title next cs -> blocked_at c2 title next cs.
Proof.
  intros Hsub (pre & c & post & -> & Hopt & Htxt & Hin & Hne).
  rewrite count_opts_app, count_opts_cons, (bool_decide_eq_true_2 _ Hopt) in Hsub.
  exists pre, c, post. split; [done |]. split; [done |]. split; [done |]. split.
  - apply Hsub; [lia | done].
  - rewrite str_app_eq_nil in *. intros [Ht Hp]. apply Hne. split; [done |].
    destruct (decide (str_concat (title_parts c1 next pre) = ""%string)) as [|Hc1]; [done |].
    exfalso. revert Hp. eapply title_parts_more; [| exact Hc1].
    intros i Hi. apply Hsub. lia.
Qed.

Lemma rmapM_raises {A B} (f : A -> result B) (l : list A) (x : exn) :
  rmapM f l = Raise x -> exists a, a ∈ l /\ f a = Raise x.
Proof.
  induction l as [|a l IH]; cbn [rmapM]; [done |].
  destruct (f a) as [b|y] eqn:Ea; cbn [mbind result_bind].
  - destruct (rmapM f l) as [bs|y]; cbn [mbind result_bind]; [done |].
    intros [= ->]. destruct IH as (a' & Ha' & Hf); [done |].
    exists a'. split; [by right | done].
  - intros [= ->]. exists a. split; [by left | done].
Qed.

Lemma rmapM_raises_one {A B} (f : A -> result B) (l : list A) (a : A) (x : exn) :
  a ∈ l -> f a = Raise x -> (forall a' y, f a' = Raise y -> y = x) -> rmapM f l = Raise x.
Proof.
  intros Ha Hf Hone. destruct (rmapM f l) as [bs|y] eqn:E.
  - apply rmapM_Ok in E. apply list_elem_of_lookup in Ha as [i Hi].
    destruct (Forall2_lookup_l _ _ _ _ _ E Hi) as (b & _ & Hb). congruence.
  - apply rmapM_raises in E as (a' & _ & Hf'). by rewrite (Hone _ _ Hf').
Qed.

Lemma mktitle_on_cases (title_text : option string) (kids : list kid) (include_opts : list Z) :
  match mktitle_on title_text kids include_opts with
  | Ok t => ~ blocked_at include_opts (or_empty title_text) 0 kids
  | Raise x => x = TypeError /\ blocked_at include_opts (or_empty title_text) 0 kids
  end.
Proof.
  unfold mktitle_on.
  pose proof (mktitle_loop_cases include_opts kids title_text (-1)) as H.
  change (-1 + 1)%Z with 0%Z in H.
  destruct (mktitle_loop include_opts (title_text, (-1)%Z) kids) as [st|x];
    cbn [mbind result_bind]; [by destruct H | done].
Qed.

Lemma expand_on_cases (title_text : option string) (kids : list kid) :
  match expand_on title_text kids with
  | Ok ts => ~ blocked_at (range (count_opts kids)) (or_empty title_text) 0 kids
  | Raise x =>
      x = TypeError /\ blocked_at (range (count_opts kids)) (or_empty title_text) 0 kids
  end.
Proof.
  unfold expand_on.
  destruct (bool_decide_reflect (count_opts kids ≠ 0%nat)) as [Hn|Hn].
  - destruct (rmapM _ _) as [ts|x] eqn:E.
    + intros Hb. apply rmapM_Ok in E.
      pose proof (last_Some_elem_of _ _ (title_combs_last (count_opts kids))) as Hin.
      apply list_elem_of_lookup in Hin as [i Hi].
      destruct (Forall2_lookup_l _ _ _ _ _ E Hi) as (t & _ & Ht).
      pose proof (mktitle_on_cases title_text kids (range (count_opts kids))) as Hc.
      rewrite Ht in Hc. done.
    + apply rmapM_raises in E as (comb & _ & Hf).
      pose proof (mktitle_on_cases title_text kids comb) as Hc. rewrite Hf in Hc.
      destruct Hc as [-> Hb]. split; [done |].
      eapply blocked_at_more; [| exact Hb].
      intros i Hi _. apply elem_of_range. lia.
  - assert (count_opts kids = 0%nat) as -> by lia.
    pose proof (mktitle_on_cases title_text kids []) as Hc.
    destruct (mktitle_on title_text kids []) as [t|x]; cbn [mbind result_bind]; [done |].
    destruct Hc as [_ (pre & c & post & _ & _ & _ & Hin & _)]. by apply elem_of_nil in Hin.
Qed.

(** X14.  When the expansion of a title element raises: exactly when
    one of its [opt] children has no text and something comes before that
    child in the title with every optional part taken in, that is when
    the text of the title element, or a part of a child before it, is
    not empty.  The exception is a [TypeError]. *)
Theorem expand_title_raises_iff (title_element : Element) :
  (expand_title title_element = Raise TypeError
   <-> blocked_at (range (count_opts (kids_of title_element)))
         (or_empty (text title_element)) 0 (kids_of title_element))
  /\ (forall x, expand_title title_element = Raise x -> x = TypeError).
Proof.
  unfold expand_title.
  pose proof (expand_on_cases (text title_element) (kids_of title_element)) as H.
  destruct (expand_on _ _) as [ts|x].
  - split; [split; [done | by intros ?%H] | done].
  - destruct H as [-> Hb]. split; [done |]. by intros x [= <-].
Qed.

(** ** The combinations that the title loop goes through *)

Lemma elem_of_combinations {A} (l : list A) (j : nat) (c : list A) :
  c ∈ combinations l j <-> c `sublist_of` l /\ length c = j.
Proof.
  revert j c. induction l as [|x l IH]; intros j c.
  - rewrite sublist_nil_r. destruct j as [|j]; cbn [combinations].
    + rewrite list_elem_of_singleton. split; [by intros -> | by intros [-> _]].
    + rewrite elem_of_nil. split; [done | by intros [-> ?]].
  - destruct j as [|j]; cbn [combinations].
    + rewrite list_elem_of_singleton. split.
      * intros ->. split; [apply sublist_nil_l | done].
      * intros [_ Hlen]. by destruct c.
    + rewrite elem_of_app, list_elem_of_fmap, sublist_cons_r. split.
      * intros [(c' & -> & [Hs Hl]%IH)|[Hs Hl]%IH].
        -- split; [right; by exists c' | by rewrite <- Hl].
        -- split; [by left | done].
      * intros [[Hs|(c' & -> & Hs)] Hl].
        -- right. by apply IH.
        -- left. exists c'. split; [done |]. apply IH. cbn in Hl. split; [done | lia].
Qed.

Lemma NoDup_combinations {A} (l : list A) (j : nat) :
  NoDup l -> NoDup (combinations l j).
Proof.
  revert j. induction l as [|x l IH]; intros j Hnd.
  - destruct j; cbn; [apply NoDup_singleton | constructor].
  - destruct j as [|j]; cbn [combinations]; [apply NoDup_singleton |].
    apply NoDup_cons in Hnd as [Hx Hnd]. apply NoDup_app. split; [| split].
    + apply NoDup_fmap_2_strong; [| by apply IH]. by intros c1 c2 _ _ [= ->].
    + intros c (c' & -> & _)%list_elem_of_fmap [Hs _]%elem_of_combinations.
      apply Hx. eapply elem_of_sublist; [| exact Hs]. by left.
    + by apply IH.
Qed.

Lemma NoDup_range (n : nat) : NoDup (range n).
Proof.
  unfold range. apply NoDup_fmap_2_strong; [| apply NoDup_seq].
  intros i j _ _. lia.
Qed.

(** X15.  The two nested loops of [parse] go through every selection of
    [opt] indices once: the tuples are without repetition, and they are
    the sublists of [range(n_opts)], every set of indices in increasing
    order. *)
Theorem title_combs_all_once (n_opts : nat) :
  NoDup (title_combs n_opts)
  /\ forall comb, comb ∈ title_combs n_opts <-> comb `sublist_of` range n_opts.
Proof.
  unfold title_combs. change (flat_map ?f ?l) with (l ≫= f). split.
  - apply NoDup_bind; [| intros j _; apply NoDup_combinations, NoDup_range | apply NoDup_seq].
    intros j1 j2 c _ _ [_ H1]%elem_of_combinations [_ H2]%elem_of_combinations. congruence.
  - intros comb. rewrite list_elem_of_bind. split.
    + by intros (j & [Hs _]%elem_of_combinations & _).
    + intros Hs. exists (length comb). split; [by apply elem_of_combinations |].
      apply elem_of_seq. apply sublist_length in Hs. rewrite length_range in Hs. lia.
Qed.

(** ** The abbreviation table as a dictionary *)

Lemma fold_insert_lookup (l : list (option string * option string))
    (m : gmap (option string) (option string)) (x : option string) :
  fold_left (fun (m : gmap (option string) (option string)) p => <[p.1 := p.2]> m) l m !! x
  = match last (filter (fun p => p.1 = x) l) with
    | Some p => Some p.2
    | None => m !! x
    end.
Proof.
  revert m. induction l as [|p l IH]; intros m; [done |].
  cbn [fold_left]. rewrite IH, filter_cons.
  destruct (decide (p.1 = x)) as [Hp|Hp].
  - rewrite last_cons. destruct (last (filter _ l)); [done |].
    rewrite <- Hp. apply lookup_insert_eq.
  - destruct (last (filter _ l)); [done |]. by apply lookup_insert_ne.
Qed.

Lemma fold_left_flat_map {A B S} (f : S -> B -> S) (g : A -> list B) (l : list A) (s : S) :
  fold_left f (flat_map g l) s = fold_left (fun s a => fold_left f (g a) s) l s.
Proof.
  revert s. induction l as [|a l IH]; intros s; [done |].
  cbn [flat_map fold_left]. by rewrite fold_left_app, IH.
Qed.

Lemma fold_left_fmap {A B S} (f : S -> B -> S) (g : A -> B) (l : list A) (s : S) :
  fold_left f (g <$> l) s = fold_left (fun s a => f s (g a)) l s.
Proof. revert s. induction l as [|a l IH]; intros s; [done | apply IH]. Qed.

Lemma fold_left_ext_eq {A S} (f g : S -> A -> S) (l : list A) (s : S) :
  (forall s a, f s a = g s a) -> fold_left f l s = fold_left g l s.
Proof.
  intros Hfg. revert s. induction l as [|a l IH]; intros s; [done |].
  cbn [fold_left]. by rewrite Hfg, IH.
Qed.

Lemma _mkabbrs_entries (element : Element) :
  _mkabbrs element
  = fold_left (fun (m : gmap (option string) (option string)) p => <[p.1 := p.2]> m)
      (abbr_entries element) ∅.
Proof.
  unfold _mkabbrs, abbr_entries. rewrite fold_left_flat_map.
  apply fold_left_ext_eq. intros m abrdef.
  destruct (bool_decide (lower (tag abrdef) = "abr_def"%string)); [| done].
  destruct (find "v" abrdef) as [value|]; [| done].
  destruct (elem_bool value); [| done].
  by rewrite fold_left_fmap.
Qed.

(** X16.  The abbreviation table is the dictionary of its definitions,
    the last one winning: the expansion of an abbreviation is the text of
    the [v] child of the last effective definition that has a [k] child
    with that text, and an abbreviation that no effective definition
    names is not in the table.  (A definition is effective if its tag is
    [abr_def] in any case of letters and its first [v] child has child
    elements.) *)
Theorem mkabbrs_last_wins (element : Element) (abr : option string) :
  _mkabbrs element !! abr
  = snd <$> last (filter (fun p => p.1 = abr) (abbr_entries element)).
Proof.
  rewrite _mkabbrs_entries, fold_insert_lookup.
  destruct (last _); [done |]. apply lookup_empty.
Qed.

(** ** Title stripping on an article without titles *)

Lemma _transform_element_set_text {C} (abbreviations : abbrs) (x : option string) (n : Node C) :
  handler_for n ≠ H_kref -> handler_for n ≠ H_abr ->
  _transform_element abbreviations (set_text x n)
  = set_text x (_transform_element abbreviations n).
Proof.
  unfold _transform_element, handler_for. cbn [set_text tag].
  destruct (lookup_handler (lower (tag n))); cbn [run_handler]; try done.
  - intros _ _. unfold _tag_handler_c. cbn. by destruct (truthy _).
  - intros _ _. unfold default_tag_handler. cbn. by destruct (str_in _ _).
Qed.

Lemma filter_none_all {A} (P : A -> Prop) `{!forall x, Decision (P x)} (l : list A) :
  filter P l = [] -> filter (fun x => ~ P x) l = l.
Proof.
  induction l as [|a l IH]; [done |]. rewrite !filter_cons.
  destruct (decide (P a)) as [Ha|Ha]; [done |]. intros Hl.
  destruct (decide (~ P a)); [| done]. by rewrite IH.
Qed.

Lemma strip_titles_no_title (n : Node Element) :
  findall "k" (Elem n) = [] ->
  strip_titles (Elem n) = Elem (set_text (Some (or_empty (text n))) n).
Proof.
  intros Hk. unfold strip_titles. rewrite Hk. cbn [fold_left lstrip node].
  unfold findall in Hk. cbn [node] in Hk. rewrite (filter_none_all _ _ Hk).
  unfold set_text. do 2 f_equal.
  destruct (truthy (text n)) eqn:E; [done |]. by rewrite (or_empty_falsy _ E).
Qed.

Lemma _serialize_xml_set_text (n : Node Element) :
  _serialize_xml (Elem (set_text (Some (or_empty (text n))) n)) = _serialize_xml (Elem n).
Proof.
  rewrite !_serialize_xml_unfold. cbn [set_text attrib children tag text tail or_empty default].
  by destruct (text n) as [[|c s]|].
Qed.

(** X17.  On an article without [k] child the option
    [skip_article_title] changes nothing: the body is the one rendered
    without the option. *)
Theorem skip_without_titles (self : XDXF) (abbreviations : abbrs) (e : Element) :
  tag e = "ar"%string -> findall "k" e = [] ->
  _text self abbreviations e
  = _text (mkXDXF false (remove_newline self)) abbreviations e.
Proof.
  intros Htag Hk. destruct self as [[|] rm]; [| done].
  rewrite !_text_transform_all. cbn [skip_article_title remove_newline].
  destruct e as [n]. cbn [node] in Htag. rewrite (strip_titles_no_title n Hk). cbn [node].
  rewrite !transform_all_root_twice. cbn [transform_all set_text children].
  rewrite _transform_element_set_text.
  2, 3: unfold handler_for; rewrite Htag; by vm_compute.
  set (m := set_children _ (_transform_element abbreviations n)).
  assert (Hm : text n = text m).
  { unfold m. cbn [set_children text]. by destruct (_transform_element_text abbreviations n). }
  rewrite Hm. unfold render, tostring_unicode.
  change (set_children ?cs (set_text ?x ?k)) with (set_text x (set_children cs k)).
  fold m. by rewrite (_serialize_xml_set_text m).
Qed.

Lemma skip_without_titles_witness :
  _text (mkXDXF true false) ∅ (Elem (mkNode "ar" [] None None [Elem (mkNode "kref" [] (Some "dog") None [])]))%string
  = _text (mkXDXF false false) ∅ (Elem (mkNode "ar" [] None None [Elem (mkNode "kref" [] (Some "dog") None [])]))%string.
Proof. by apply skip_without_titles. Defined.

(** ** What the loop hands over *)

Lemma emit_emitted (self : XDXF) (eff : effect) (st : run) :
  emitted self eff -> Forall (emitted self) (trace st) ->
  Forall (emitted self) (trace (emit eff st)).
Proof. intros He Hst. cbn. apply Forall_app. split; [done | by constructor]. Qed.

Lemma on_end_emitted (self : XDXF) (st : run) (element : Element) :
  Forall (emitted self) (trace st) -> Forall (emitted self) (trace (on_end self st element).1).
Proof.
  intros Hst. unfold on_end. destruct (raised st); [done |].
  unfold on_description. destruct (bool_decide (tag element = "description"%string)).
  all: unfold on_full_name; cbn [node clear tag].
  all: match goal with |- context [bool_decide (?t = "full_name"%string)] =>
         destruct (bool_decide (t = "full_name"%string)) end.
  all: unfold on_xdxf; cbn [node clear tag].
  all: match goal with |- context [bool_decide (?t = "xdxf"%string)] =>
         destruct (bool_decide (t = "xdxf"%string)) end.
  all: unfold on_abbreviations; cbn [node clear tag].
  all: match goal with |- context [bool_decide (?t = "abbreviations"%string)] =>
         destruct (bool_decide (t = "abbreviations"%string)) end.
  all: unfold on_ar; cbn [node clear tag abbreviations trace raised].
  all: match goal with |- context [bool_decide (?t = "ar"%string)] =>
         destruct (bool_decide (t = "ar"%string)) end.
  all: repeat match goal with
         | |- context [match ?r with Ok _ => _ | Raise _ => _ end] => destruct r eqn:?
         | |- context [match ?l with [] => _ | _ :: _ => _ end] => destruct l
         end.
  all: cbn [fst raise trace]; repeat apply emit_emitted; cbn [trace]; try done.
  all: econstructor; eassumption.
Qed.

Lemma visit_emitted (self : XDXF) (element : Element) :
  forall st, Forall (emitted self) (trace st) ->
             Forall (emitted self) (trace (visit self element st).1).
Proof.
  induction element as [n IH] using Element_ind'. intros st Hst.
  cbn [visit]. apply on_end_emitted. revert st Hst.
  induction IH as [|c cs Hc _ IHcs]; intros st Hst; [done |].
  cbn [fst]. apply IHcs, Hc, Hst.
Qed.

Lemma parse_emitted (self : XDXF) (f : source) :
  Forall (emitted self) (trace (parse self f)).
Proof.
  destruct f as [root|closed]; cbn [parse].
  - apply visit_emitted. constructor.
  - assert (H : forall st, Forall (emitted self) (trace st) ->
                  Forall (emitted self)
                    (trace (fold_left (fun st e => (visit self e st).1) closed st))).
    { induction closed as [|e closed IH]; intros st Hst; [done |].
      cbn [fold_left]. apply IH, visit_emitted, Hst. }
    specialize (H start ltac:(constructor)).
    by destruct (raised _).
Qed.

Lemma elem_of_items (i : item) (st : run) : i ∈ items st <-> Yield i ∈ trace st.
Proof.
  unfold items. rewrite list_elem_of_omap. split.
  - intros ([j|fmt arg] & Hin & Hj); [by injection Hj as -> | done].
  - intros Hin. by exists (Yield i).
Qed.

Lemma chars_app (s t : string) :
  list_ascii_of_string (s ++ t)%string = list_ascii_of_string s ++ list_ascii_of_string t.
Proof. induction s as [|c s IH]; [done |]. rewrite str_app_cons. cbn. by rewrite IH. Qed.

Lemma quote_byte_chars (c : ascii) :
  forallb uri_char (list_ascii_of_string (quote_byte c)) = true.
Proof. destruct c as [[] [] [] [] [] [] [] []]; vm_compute; reflexivity. Qed.

Lemma quote_chars (s : string) : forallb uri_char (list_ascii_of_string (quote s)) = true.
Proof.
  induction s as [|c s IH]; [done |].
  unfold quote in *. cbn [str_flat_map]. rewrite chars_app, forallb_app, IH.
  by rewrite quote_byte_chars.
Qed.

(** X18.  The tags that [parse] yields, whatever the input: their names
    are [copyright], [label], [uri], [lang_to] and [lang_from]; the value
    of a [copyright] or a [label] is a string, and the value of a [uri]
    is a string of unreserved characters and percent signs. *)
Theorem parse_yields_known_tags (self : XDXF) (f : source) (name : string)
    (value : option string) :
  Tag name value ∈ items (parse self f) ->
  name ∈ ["copyright"; "label"; "uri"; "lang_to"; "lang_from"]%string
  /\ (name ∈ ["copyright"; "label"; "uri"]%string -> is_Some value)
  /\ (name = "uri"%string ->
      exists v, value = Some v /\ forallb uri_char (list_ascii_of_string v) = true).
Proof.
  intros Hin%elem_of_items.
  pose proof (parse_emitted self f) as Hall.
  eapply Forall_forall in Hall; [| exact Hin].
  inversion Hall; subst.
  all: split; [tag_mem |]; split.
  all: try (intros _; by eexists).
  all: try (by intros [=]).
  all: try (intros H; exfalso; revert H; tag_mem).
  intros _. eexists. split; [done | apply quote_chars].
Qed.

Lemma parse_yields_known_tags_witness :
  "uri"%string ∈ ["copyright"; "label"; "uri"; "lang_to"; "lang_from"]%string
  /\ exists v, Some "a%20b"%string = Some v /\ forallb uri_char (list_ascii_of_string v) = true.
Proof.
  destruct (parse_yields_known_tags (mkXDXF false false)
              (WellFormed (Elem (mkNode "full_name" [] (Some "a b"%string) None [])))
              "uri"%string (Some "a%20b"%string)) as (H1 & _ & H3).
  - vm_compute. right. left.
  - split; [exact H1 | by apply H3].
Defined.

(** ** Newlines in the body *)

Lemma replace_newline_chars (s : string) : LF ∉ list_ascii_of_string (replace_newline s).
Proof.
  induction s as [|c s IH]; cbn [replace_newline list_ascii_of_string]; [apply not_elem_of_nil |].
  apply not_elem_of_cons. split; [| exact IH].
  destruct (Ascii.eqb c LF) eqn:E; [done |].
  intros Hc. rewrite <- Hc, Ascii.eqb_refl in E. done.
Qed.

Lemma encode_utf8_char_LF (c : ascii) :
  bool_decide (LF ∈ list_ascii_of_string (encode_utf8_char c)) = bool_decide (c = LF).
Proof. destruct c as [[] [] [] [] [] [] [] []]; vm_compute; reflexivity. Qed.

Lemma encode_utf8_chars (s : string) :
  LF ∉ list_ascii_of_string s -> LF ∉ list_ascii_of_string (encode_utf8 s).
Proof.
  induction s as [|c s IH]; [done |].
  cbn [list_ascii_of_string]. intros [Hc Hs]%not_elem_of_cons.
  unfold encode_utf8 in *. cbn [str_flat_map]. rewrite chars_app, not_elem_of_app.
  split; [| by apply IH].
  intros Hin. apply (bool_decide_eq_true_2 _) in Hin.
  rewrite encode_utf8_char_LF in Hin. by apply bool_decide_eq_true in Hin.
Qed.

Lemma ARTICLE_TEMPLATE_prefix (txt : string) :
  ARTICLE_TEMPLATE txt = (ARTICLE_TEMPLATE "" ++ txt)%string.
Proof. vm_compute. reflexivity. Qed.

Lemma text_no_newline (self : XDXF) (abbreviations : abbrs) (e : Element) (body : string) :
  remove_newline self = true ->
  _text self abbreviations e = Ok body ->
  LF ∉ list_ascii_of_string body.
Proof.
  intros Hrm. unfold _text, render. rewrite Hrm.
  destruct (tostring_unicode _) as [txt|]; cbn [mbind result_bind]; [| done].
  intros [= <-]. apply encode_utf8_chars.
  rewrite ARTICLE_TEMPLATE_prefix, chars_app, not_elem_of_app.
  split; [| apply replace_newline_chars].
  apply (bool_decide_unpack _). vm_compute. reflexivity.
Qed.

(** X19.  The articles that [parse] yields, whatever the input: the type
    of a [Content] is [text/html;charset=utf-8], its body is the UTF-8
    encoding of the template followed by a markup, and with the option
    [remove_newline] no newline is in the body. *)
Theorem parse_yields_html (self : XDXF) (f : source) (body : string)
    (keys : list (option string)) (type : string) :
  Content body keys type ∈ items (parse self f) ->
  type = ARTICLE_CONTENT_TYPE
  /\ (exists txt, body = (encode_utf8 (ARTICLE_TEMPLATE "") ++ encode_utf8 txt)%string)
  /\ (remove_newline self = true -> LF ∉ list_ascii_of_string body).
Proof.
  intros Hin%elem_of_items.
  pose proof (parse_emitted self f) as Hall.
  eapply Forall_forall in Hall; [| exact Hin].
  inversion Hall as [| | | | |a e body' t ts Htext|]; subst.
  split; [done |]. split.
  - unfold _text, render in Htext.
    destruct (tostring_unicode _) as [txt|]; cbn [mbind result_bind] in Htext; [| done].
    injection Htext as <-. eexists. rewrite ARTICLE_TEMPLATE_prefix.
    unfold encode_utf8. clear. induction (ARTICLE_TEMPLATE "") as [|c s IH]; [done |].
    cbn [str_flat_map]. rewrite str_app_cons. cbn [str_flat_map].
    by rewrite IH, str_app_assoc.
  - intros Hrm. by eapply text_no_newline.
Qed.

Lemma parse_yields_html_witness :
  ARTICLE_CONTENT_TYPE = ARTICLE_CONTENT_TYPE
  /\ LF ∉ list_ascii_of_string body_cat.
Proof.
  destruct (parse_yields_html (mkXDXF false true)
              (WellFormed (Elem (mkNode "ar" [] None None [k_cat])))
              body_cat [Some "cat"; Some "cat (feline)"]%string ARTICLE_CONTENT_TYPE)
    as (H1 & _ & H3).
  - vm_compute. left.
  - split; [exact H1 | by apply H3].
Defined.

(** ** What the loop leaves of the tree *)

Lemma on_end_raised (self : XDXF) (st : run) (element : Element) (x : exn) :
  raised st = Some x -> on_end self st element = (st, element).
Proof. intros H. unfold on_end. by rewrite H. Qed.

Lemma on_end_clears (self : XDXF) (st : run) (element : Element) :
  tag element ∈ ["description"; "full_name"; "xdxf"; "ar"]%string ->
  raised (on_end self st element).1 = None ->
  (on_end self st element).2 = clear element.
Proof.
  intros Htag. unfold on_end. destruct (raised st) eqn:Hst; [cbn; congruence |].
  unfold on_description.
  destruct (bool_decide_reflect (tag element = "description"%string)).
  all: unfold on_full_name; cbn [node clear tag].
  all: match goal with |- context [bool_decide (?t = "full_name"%string)] =>
         destruct (bool_decide_reflect (t = "full_name"%string)) end.
  all: unfold on_xdxf; cbn [node clear tag].
  all: match goal with |- context [bool_decide (?t = "xdxf"%string)] =>
         destruct (bool_decide_reflect (t = "xdxf"%string)) end.
  all: unfold on_abbreviations; cbn [node clear tag].
  all: match goal with |- context [bool_decide (?t = "abbreviations"%string)] =>
         destruct (bool_decide_reflect (t = "abbreviations"%string)) end.
  all: unfold on_ar; cbn [node clear tag abbreviations trace raised].
  all: match goal with |- context [bool_decide (?t = "ar"%string)] =>
         destruct (bool_decide_reflect (t = "ar"%string)) end.
  all: repeat match goal with
         | |- context [match ?r with Ok _ => _ | Raise _ => _ end] => destruct r
         | |- context [match ?l with [] => _ | _ :: _ => _ end] => destruct l
         end.
  all: cbn [fst snd raise raised emit]; try done; try congruence.
  all: intros _; exfalso; revert Htag; rewrite !elem_of_cons, elem_of_nil.
  all: intros [|[|[|[|]]]]; congruence.
Qed.

(** X20.  What the loop leaves of a handled element: once the turn for a
    [description], [full_name], [xdxf] or [ar] element is over without an
    exception, the element is empty; it keeps its tag and nothing else,
    so the tree that [iterparse] builds does not keep the articles. *)
Theorem handled_element_cleared (self : XDXF) (element : Element) (st : run) :
  tag element ∈ ["description"; "full_name"; "xdxf"; "ar"]%string ->
  raised (visit self element st).1 = None ->
  (visit self element st).2 = clear element.
Proof.
  destruct element as [n]. rewrite visit_unfold. intros Htag Hr.
  by rewrite on_end_clears.
Qed.

Lemma handled_element_cleared_witness :
  (visit (mkXDXF false false) article_ex start).2 = Elem (mkNode "ar" [] None None []).
Proof.
  apply (handled_element_cleared (mkXDXF false false) article_ex start); [| reflexivity].
  vm_compute. do 3 right. left.
Defined.

Lemma on_end_xdxf (self : XDXF) (st : run) (element : Element) :
  tag element = "xdxf"%string -> raised st = None ->
  on_end self st element
  = (emit (Yield (Tag "lang_from" (default (Some ""%string)
                                     (attr_get "lang_from" (attrib element)))))
       (emit (Yield (Tag "lang_to" (default (Some ""%string)
                                      (attr_get "lang_to" (attrib element))))) st),
     clear element).
Proof.
  intros Htag Hst. unfold on_end. rewrite Hst.
  unfold on_description.
  destruct (bool_decide_reflect (tag element = "description"%string)); [congruence |].
  unfold on_full_name.
  destruct (bool_decide_reflect (tag element = "full_name"%string)); [congruence |].
  unfold on_xdxf.
  destruct (bool_decide_reflect (tag element = "xdxf"%string)); [| congruence].
  unfold on_abbreviations, on_ar. cbn [node clear tag].
  destruct (bool_decide_reflect (tag element = "abbreviations"%string)); [congruence |].
  cbn [node clear tag].
  destruct (bool_decide_reflect (tag element = "ar"%string)); [congruence |].
  reflexivity.
Qed.

(** X21.  The languages come last: when the root of the document is an
    [xdxf] element and nothing raises, the last two items that [parse]
    yields are the tags [lang_to] and [lang_from], in that order, with
    the values of the root's attributes, or the empty string for an
    attribute that the root has not. *)
Theorem languages_come_last (self : XDXF) (root : Element) :
  tag root = "xdxf"%string ->
  raised (parse self (WellFormed root)) = None ->
  exists before,
    trace (parse self (WellFormed root))
    = before
      ++ [Yield (Tag "lang_to" (default (Some ""%string) (attr_get "lang_to" (attrib root))));
          Yield (Tag "lang_from" (default (Some ""%string)
                                    (attr_get "lang_from" (attrib root))))].
Proof.
  destruct root as [n]. cbn [parse node]. rewrite visit_unfold. intros Htag Hr.
  set (st := (visit_kids self (children n) start).1) in *.
  destruct (raised st) as [x|] eqn:Hst.
  { rewrite (on_end_raised _ _ _ _ Hst) in Hr. cbn in Hr. congruence. }
  rewrite on_end_xdxf by done. cbn [fst emit trace node set_children attrib].
  exists (trace st). by rewrite <- app_assoc.
Qed.

Lemma languages_come_last_witness :
  exists before,
    trace (parse (mkXDXF false false)
             (WellFormed (Elem (mkNode "xdxf" [("lang_from", Some "ENG")] None None
                [Elem (mkNode "ar" [] None None [k_cat])]))))%string
    = before ++ [Yield (Tag "lang_to" (Some "")); Yield (Tag "lang_from" (Some "ENG"))]%string.
Proof.
  exact (languages_come_last (mkXDXF false false)
           (Elem (mkNode "xdxf" [("lang_from", Some "ENG")] None None
              [Elem (mkNode "ar" [] None None [k_cat])]))%string eq_refl eq_refl).
Defined.

(** ** The name of the output file *)

Lemma str_length_app (s t : string) :
  String.length (s ++ t)%string = (String.length s + String.length t)%nat.
Proof. induction s as [|a s IH]; [done |]. rewrite str_app_cons. cbn. by rewrite IH. Qed.

Lemma str_take_app (s t : string) : str_take (String.length s) (s ++ t)%string = s.
Proof. induction s as [|a s IH]; [by destruct t |]. rewrite str_app_cons. cbn. by rewrite IH. Qed.

Lemma str_drop_app (s t : string) : str_drop (String.length s) (s ++ t)%string = t.
Proof. induction s as [|a s IH]; [done |]. rewrite str_app_cons. cbn. exact IH. Qed.

Lemma has_char_app (c : ascii) (s t : string) :
  has_char c (s ++ t)%string = has_char c s || has_char c t.
Proof.
  induction s as [|a s IH]; [done |]. rewrite str_app_cons. cbn. rewrite IH.
  by rewrite orb_assoc.
Qed.

Lemma rfind_from_none (c : ascii) (s : string) (i last : Z) :
  has_char c s = false -> rfind_from c s i last = last.
Proof.
  revert i last. induction s as [|a s IH]; intros i last; [done |].
  cbn. intros [Ha Hs]%orb_false_iff. rewrite Ha. by apply IH.
Qed.

Lemma rfind_from_last (c : ascii) (s1 s2 : string) (i last : Z) :
  has_char c s2 = false ->
  rfind_from c (s1 ++ String c s2)%string i last = (i + Z.of_nat (String.length s1))%Z.
Proof.
  intros Hs2. revert i last. induction s1 as [|a s1 IH]; intros i last.
  - rewrite str_app_nil_l. cbn. rewrite Ascii.eqb_refl, rfind_from_none by done. lia.
  - rewrite str_app_cons. cbn [rfind_from String.length]. rewrite IH. lia.
Qed.

Lemma split_last (c : ascii) (s : string) :
  has_char c s = true ->
  exists s1 s2, s = (s1 ++ String c s2)%string /\ has_char c s2 = false.
Proof.
  induction s as [|a s IH]; [done |]. cbn.
  destruct (has_char c s) eqn:Hs.
  - intros _. destruct IH as (s1 & s2 & -> & H2); [done |].
    exists (String a s1), s2. by rewrite str_app_cons.
  - rewrite orb_false_r. intros ->%Ascii.eqb_eq. exists ""%string, s. by rewrite str_app_nil_l.
Qed.

Lemma leading_dots (s : string) :
  exists k rest, s = (dots k ++ rest)%string /\ str_take 1 rest ≠ "."%string.
Proof.
  induction s as [|a s IH].
  - by exists 0%nat, ""%string.
  - destruct (Ascii.eqb_spec a ".") as [Ha|Ha].
    + destruct IH as (k & rest & -> & Hrest). exists (S k), rest. by rewrite Ha.
    + exists 0%nat, (String a s). split; [done |]. cbn. destruct s; congruence.
Qed.

Lemma dots_length (k : nat) : String.length (dots k) = k.
Proof. induction k as [|k IH]; [done |]. cbn. by rewrite IH. Qed.

Lemma dots_snoc (k : nat) : dots (S k) = (dots k ++ String "." "")%string.
Proof. induction k as [|k IH]; [done |]. cbn [dots] in *. by rewrite str_app_cons, <- IH. Qed.

Lemma has_char_dots (k : nat) : has_char "/" (dots k) = false.
Proof. induction k as [|k IH]; [done |]. cbn. exact IH. Qed.

Lemma str_drop_dots (j k : nat) (rest : string) :
  (j <= k)%nat -> str_drop j (dots k ++ rest)%string = (dots (k - j) ++ rest)%string.
Proof.
  revert k. induction j as [|j IH]; intros k Hj.
  - rewrite Nat.sub_0_r. by destruct (dots k ++ rest)%string.
  - destruct k as [|k]; [lia |]. cbn [dots]. rewrite str_app_cons. cbn [str_drop].
    rewrite IH by lia. done.
Qed.

Lemma splitext_scan_miss (k : nat) (rest : string) (dotIndex : Z) (n : nat) :
  forall j : nat,
    (j + n <= k)%nat ->
    splitext_scan (dots k ++ rest)%string dotIndex n (Z.of_nat j)
    = ((dots k ++ rest)%string, ""%string).
Proof.
  induction n as [|n IH]; intros j Hj; [done |].
  cbn [splitext_scan]. rewrite Nat2Z.id, str_drop_dots by lia.
  destruct (k - j)%nat as [|m] eqn:Hm; [lia |]. cbn [dots]. rewrite str_app_cons.
  cbn [str_take negb String.eqb Ascii.eqb Bool.eqb].
  replace (Z.of_nat j + 1)%Z with (Z.of_nat (S j)) by lia.
  cbn. replace (Z.pos (Pos.of_succ_nat j)) with (Z.of_nat (S j)) by lia.
  apply IH. lia.
Qed.

Lemma splitext_scan_hit (k : nat) (rest : string) (dotIndex : Z) :
  str_take 1 rest ≠ "."%string ->
  forall (m j n : nat),
    (j + m = k)%nat -> (m < n)%nat ->
    splitext_scan (dots k ++ rest)%string dotIndex n (Z.of_nat j)
    = (str_take (Z.to_nat dotIndex) (dots k ++ rest)%string,
       str_drop (Z.to_nat dotIndex) (dots k ++ rest)%string).
Proof.
  intros Hrest. induction m as [|m IH]; intros j n Hj Hn.
  - destruct n as [|n]; [lia |]. cbn [splitext_scan].
    rewrite Nat2Z.id, str_drop_dots by lia.
    replace (k - j)%nat with 0%nat by lia. cbn [dots]. rewrite str_app_nil_l.
    apply String.eqb_neq in Hrest. by rewrite Hrest.
  - destruct n as [|n]; [lia |]. cbn [splitext_scan].
    rewrite Nat2Z.id, str_drop_dots by lia.
    destruct (k - j)%nat as [|i] eqn:Hi; [lia |]. cbn [dots]. rewrite str_app_cons.
    cbn [str_take]. change (String.eqb (String "." "") ".") with true. cbn [negb].
    replace (Z.of_nat j + 1)%Z with (Z.of_nat (S j)) by lia.
    apply IH; lia.
Qed.

Lemma rfind_sep_none (s : string) : has_char "/" s = false -> rfind "/" s = (-1)%Z.
Proof. intros H. unfold rfind. by apply rfind_from_none. Qed.

Lemma splitext_no_ext (k : nat) (rest : string) :
  has_char "/" rest = false -> str_take 1 rest ≠ "."%string -> has_char "." rest = false ->
  splitext (dots k ++ rest)%string = ((dots k ++ rest)%string, ""%string).
Proof.
  intros Hsep Hrest Hdot. unfold splitext.
  rewrite rfind_sep_none by (by rewrite has_char_app, has_char_dots).
  destruct k as [|k].
  - cbn [dots]. rewrite str_app_nil_l. unfold rfind. by rewrite rfind_from_none.
  - rewrite dots_snoc, str_app_assoc, str_app_cons, str_app_nil_l.
    unfold rfind. rewrite rfind_from_last by done. rewrite dots_length.
    destruct (_ <? _)%Z; [| done].
    rewrite <- (str_app_nil_l rest) at 1 2.
    rewrite <- str_app_cons, <- str_app_assoc, <- dots_snoc.
    change (-1 + 1)%Z with (Z.of_nat 0). apply splitext_scan_miss. lia.
Qed.

Lemma splitext_ext (k : nat) (r1 r2 : string) :
  has_char "/" (r1 ++ String "." r2)%string = false ->
  str_take 1 (r1 ++ String "." r2)%string ≠ "."%string ->
  has_char "." r2 = false ->
  splitext (dots k ++ (r1 ++ String "." r2))%string = ((dots k ++ r1)%string, String "." r2).
Proof.
  intros Hsep Hrest Hdot. unfold splitext.
  rewrite rfind_sep_none by (by rewrite has_char_app, has_char_dots).
  unfold rfind. rewrite <- str_app_assoc, rfind_from_last by done.
  rewrite str_length_app, dots_length, str_app_assoc.
  assert (Hr1 : (0 < String.length r1)%nat).
  { destruct r1 as [|a r1]; [| cbn; lia]. by rewrite str_app_nil_l in Hrest. }
  rewrite (proj2 (Z.ltb_lt _ _)) by lia.
  change (-1 + 1)%Z with (Z.of_nat 0).
  rewrite (splitext_scan_hit k _ _ Hrest k 0%nat) by lia.
  replace (Z.to_nat (0 + Z.of_nat (k + String.length r1)))
    with (String.length (dots k ++ r1)%string)
    by (rewrite str_length_app, dots_length; lia).
  by rewrite <- str_app_assoc, str_take_app, str_drop_app.
Qed.

Lemma until_dot_app (r1 r2 : string) : until_dot (r1 ++ String "." r2)%string = until_dot r1.
Proof.
  induction r1 as [|a r1 IH]; [done |]. rewrite str_app_cons. cbn.
  destruct (Ascii.eqb a "."); [done | by rewrite IH].
Qed.

Lemma until_dot_none (s : string) : has_char "." s = false -> until_dot s = s.
Proof.
  induction s as [|a s IH]; [done |]. cbn. intros [-> Hs]%orb_false_iff. by rewrite IH.
Qed.

Lemma stem_dots (k : nat) (rest : string) :
  str_take 1 rest ≠ "."%string -> stem (dots k ++ rest)%string = (dots k ++ until_dot rest)%string.
Proof.
  intros Hrest. induction k as [|k IH].
  - cbn [dots]. rewrite !str_app_nil_l. destruct rest as [|a rest]; [done |].
    cbn [stem]. destruct (Ascii.eqb_spec a ".") as [->|Ha]; [| done].
    cbn in Hrest. by destruct rest.
  - cbn [dots]. rewrite !str_app_cons. cbn [stem]. by rewrite Ascii.eqb_refl, IH.
Qed.

Lemma strip_exts_stem (fuel : nat) :
  forall s : string,
    has_char "/" s = false -> (String.length s < fuel)%nat ->
    strip_exts fuel s = Some (stem s).
Proof.
  induction fuel as [|fuel IH]; intros s Hsep Hlen; [lia |].
  destruct (leading_dots s) as (k & rest & -> & Hrest).
  rewrite has_char_app, has_char_dots in Hsep. cbn [orb] in Hsep.
  rewrite stem_dots by done. cbn [strip_exts].
  destruct (has_char "." rest) eqn:Hdot.
  - destruct (split_last _ _ Hdot) as (r1 & r2 & -> & Hr2).
    rewrite splitext_ext by done. cbn [fst snd truthy].
    rewrite until_dot_app.
    assert (Hr1 : str_take 1 r1 ≠ "."%string).
    { destruct r1 as [|a r1]; [done |]. rewrite str_app_cons in Hrest. cbn in *.
      by destruct r1. }
    rewrite <- stem_dots by done. apply IH.
    + rewrite has_char_app in Hsep. apply orb_false_iff in Hsep as [H1 _].
      by rewrite has_char_app, has_char_dots.
    + rewrite !str_length_app in *. cbn [String.length] in Hlen. lia.
  - rewrite splitext_no_ext by done. cbn [fst snd truthy]. by rewrite until_dot_none.
Qed.

Lemma basename_no_sep (p : string) :
  has_char "/" (basename p) = false /\ (String.length (basename p) <= String.length p)%nat.
Proof.
  unfold basename, rfind. destruct (has_char "/" p) eqn:Hp.
  - destruct (split_last _ _ Hp) as (s1 & s2 & -> & Hs2).
    rewrite rfind_from_last by done.
    replace (Z.to_nat (0 + Z.of_nat (String.length s1) + 1))
      with (String.length (s1 ++ String "/" "")%string)
      by (rewrite str_length_app; cbn; lia).
    replace (s1 ++ String "/" s2)%string with ((s1 ++ String "/" "") ++ s2)%string
      by (by rewrite str_app_assoc, str_app_cons, str_app_nil_l).
    rewrite str_drop_app. split; [done |]. rewrite str_length_app. lia.
  - rewrite rfind_from_none by done. cbn. by destruct p.
Qed.

(** X22.  The name that [main] gives the output when none is asked for:
    the base name of the input with all of its extensions taken off, not
    only the last one, followed by [.slob].  The loop ends, after at most
    as many turns as the base name has characters, plus one; what it
    leaves is the base name up to the first dot that comes after a
    character other than a dot. *)
Theorem default_outname (fuel : nat) (input_file : string) :
  (String.length (basename input_file) < fuel)%nat ->
  outname fuel None input_file = Some (stem (basename input_file) ++ ".slob")%string.
Proof.
  intros Hfuel. unfold outname.
  rewrite strip_exts_stem; [done | apply basename_no_sep | done].
Qed.

Lemma default_outname_witness :
  outname 17 None "/home/u/x.y/dict.xdxf.tar.gz" = Some "dict.slob"%string
  /\ outname 13 None ".hidden.xdxf" = Some ".hidden.slob"%string.
Proof.
  split.
  - apply (default_outname 17 "/home/u/x.y/dict.xdxf.tar.gz"). vm_compute. lia.
  - apply (default_outname 13 ".hidden.xdxf"). vm_compute. lia.
Defined.

(** ** Abbreviations in an article *)

(** X23.  The title of an abbreviation: under the table made from a
    block of definitions, the handler of an [abr] element gives it the
    attribute [title] with the expansion of the last effective definition
    of its text, and leaves the attribute as it was if no effective
    definition names its text. *)
Theorem abr_title_from_definitions (block : Element) (n : Node Element) :
  lower (tag n) = "abr"%string ->
  tag (_transform_element (_mkabbrs block) n) = "abbr"%string
  /\ attr_get "title" (attrib (_transform_element (_mkabbrs block) n))
     = match last (filter (fun p => p.1 = text n) (abbr_entries block)) with
       | Some p => Some p.2
       | None => attr_get "title" (attrib n)
       end.
Proof.
  intros Htag. unfold _transform_element, handler_for. rewrite Htag.
  change (lookup_handler "abr") with H_abr. cbn [run_handler].
  unfold _tag_handler_abr. cbn [set_tag text].
  rewrite _mkabbrs_entries, fold_insert_lookup.
  destruct (last _) as [p|].
  - cbn [set_attr set_tag tag attrib]. split; [done | apply attr_get_set].
  - change ((∅ : gmap (option string) (option string)) !! text n) with (@None (option string)).
    done.
Qed.

Lemma abr_title_from_definitions_witness :
  attr_get "title"
    (attrib (_transform_element (_mkabbrs abbreviations_noun_i)
               (mkNode "ABR" [] (Some "n.") None ([] : list Element))))%string
  = Some (Some "noun"%string).
Proof.
  exact (proj2 (abr_title_from_definitions abbreviations_noun_i
                  (mkNode "ABR" [] (Some "n."%string) None []) eq_refl)).
Defined.

(** ** A document of articles *)

Lemma on_end_quiet (self : XDXF) (st : run) (element : Element) :
  quiet element -> on_end self st element = (st, element).
Proof.
  unfold quiet. rewrite !not_elem_of_cons. intros (H1 & H2 & H3 & H4 & H5 & _).
  unfold on_end. destruct (raised st); [done |].
  unfold on_description, on_full_name, on_xdxf, on_abbreviations, on_ar.
  rewrite !bool_decide_eq_false_2 by done. by destruct st.
Qed.

Lemma visit_quiet (self : XDXF) (element : Element) :
  Forall quiet (subnodes element) -> forall st, visit self element st = (st, element).
Proof.
  induction element as [n IH] using Element_ind'. cbn [subnodes].
  intros [Hn Hcs]%Forall_cons st. rewrite visit_unfold.
  assert (Hkids : visit_kids self (children n) st = (st, children n)).
  { revert Hcs. induction IH as [|c cs Hc _ IHcs]; [done |].
    cbn [flat_map]. intros [H1 H2]%Forall_app. cbn [visit_kids].
    rewrite (Hc H1 st). cbn [fst snd]. by rewrite (IHcs H2). }
  rewrite Hkids. cbn [fst snd]. rewrite set_children_same. by apply on_end_quiet.
Qed.

Lemma visit_kids_quiet (self : XDXF) (cs : list Element) (st : run) :
  Forall quiet (flat_map subnodes cs) -> visit_kids self cs st = (st, cs).
Proof.
  revert st. induction cs as [|c cs IH]; intros st; [done |].
  cbn [flat_map]. intros [H1 H2]%Forall_app. cbn [visit_kids].
  rewrite (visit_quiet self c H1 st). cbn [fst snd]. by rewrite (IH st H2).
Qed.

Lemma visit_article (self : XDXF) (ar : Element) (it : item) (st : run) :
  raised st = None -> article_item self (abbreviations st) ar it ->
  visit self ar st = (emit (Yield it) st, clear ar).
Proof.
  intros Hst (Htag & Hquiet & body & t & ts & Htext & Htitles & ->).
  destruct ar as [n]. rewrite visit_unfold, visit_kids_quiet by done.
  cbn [fst snd]. rewrite set_children_same.
  unfold on_end. rewrite Hst.
  unfold on_description.
  destruct (bool_decide_reflect (tag (Elem n) = "description"%string)); [congruence |].
  unfold on_full_name.
  destruct (bool_decide_reflect (tag (Elem n) = "full_name"%string)); [congruence |].
  unfold on_xdxf.
  destruct (bool_decide_reflect (tag (Elem n) = "xdxf"%string)); [congruence |].
  unfold on_abbreviations.
  destruct (bool_decide_reflect (tag (Elem n) = "abbreviations"%string)); [congruence |].
  unfold on_ar.
  destruct (bool_decide_reflect (tag (Elem n) = "ar"%string)); [| congruence].
  by rewrite Htext, Htitles.
Qed.

(** ** A document from end to end *)

Lemma visit_below_quiet (self : XDXF) (n : Node Element) (st : run) :
  Forall quiet (flat_map subnodes (children n)) ->
  visit self (Elem n) st = on_end self st (Elem n).
Proof.
  intros Hq. rewrite visit_unfold, visit_kids_quiet by done.
  cbn [fst snd]. by rewrite set_children_same.
Qed.

Lemma visit_block (self : XDXF) (block : Element) (st : run) :
  raised st = None -> tag block = "abbreviations"%string ->
  Forall quiet (flat_map subnodes (children block)) ->
  visit self block st = (mkRun (_mkabbrs block) (trace st) None, block).
Proof.
  intros Hst Htag Hq. destruct block as [n]. rewrite visit_below_quiet by done.
  unfold on_end. rewrite Hst.
  unfold on_description.
  destruct (bool_decide_reflect (tag (Elem n) = "description"%string)); [congruence |].
  unfold on_full_name.
  destruct (bool_decide_reflect (tag (Elem n) = "full_name"%string)); [congruence |].
  unfold on_xdxf.
  destruct (bool_decide_reflect (tag (Elem n) = "xdxf"%string)); [congruence |].
  unfold on_abbreviations.
  destruct (bool_decide_reflect (tag (Elem n) = "abbreviations"%string)); [| congruence].
  unfold on_ar.
  destruct (bool_decide_reflect (tag (Elem n) = "ar"%string)); [congruence |].
  by rewrite Hst.
Qed.

Lemma visit_description (self : XDXF) (d : Element) (st : run) :
  raised st = None -> tag d = "description"%string ->
  Forall quiet (flat_map subnodes (children d)) ->
  visit self d st
  = (emit (Yield (Tag "copyright" (Some (or_empty (text d))))) st, clear d).
Proof.
  intros Hst Htag Hq. destruct d as [n]. rewrite visit_below_quiet by done.
  unfold on_end. rewrite Hst.
  unfold on_description.
  destruct (bool_decide_reflect (tag (Elem n) = "description"%string)); [| congruence].
  unfold on_full_name. cbn [node clear tag].
  destruct (bool_decide_reflect (tag n = "full_name"%string)); [cbn in *; congruence |].
  unfold on_xdxf. cbn [node clear tag].
  destruct (bool_decide_reflect (tag n = "xdxf"%string)); [cbn in *; congruence |].
  unfold on_abbreviations. cbn [node clear tag].
  destruct (bool_decide_reflect (tag n = "abbreviations"%string)); [cbn in *; congruence |].
  unfold on_ar. cbn [node clear tag].
  destruct (bool_decide_reflect (tag n = "ar"%string)); [cbn in *; congruence |].
  reflexivity.
Qed.

Lemma visit_full_name (self : XDXF) (f : Element) (st : run) :
  raised st = None -> tag f = "full_name"%string ->
  Forall quiet (flat_map subnodes (children f)) ->
  visit self f st
  = (emit (Yield (Tag "uri" (Some (quote (encode_utf8 (or_empty (text f)))))))
       (emit (Yield (Tag "label" (Some (or_empty (text f))))) st),
     clear f).
Proof.
  intros Hst Htag Hq. destruct f as [n]. rewrite visit_below_quiet by done.
  unfold on_end. rewrite Hst.
  unfold on_description.
  destruct (bool_decide_reflect (tag (Elem n) = "description"%string)); [congruence |].
  unfold on_full_name.
  destruct (bool_decide_reflect (tag (Elem n) = "full_name"%string)); [| congruence].
  unfold on_xdxf. cbn [node clear tag].
  destruct (bool_decide_reflect (tag n = "xdxf"%string)); [cbn in *; congruence |].
  unfold on_abbreviations. cbn [node clear tag].
  destruct (bool_decide_reflect (tag n = "abbreviations"%string)); [cbn in *; congruence |].
  unfold on_ar. cbn [node clear tag].
  destruct (bool_decide_reflect (tag n = "ar"%string)); [cbn in *; congruence |].
  reflexivity.
Qed.

Lemma visit_kids_yields (self : XDXF) (a : abbrs) (cs : list Element) (its : list item) :
  yields self a cs its ->
  forall st,
    raised st = None -> abbreviations st = a ->
    exists a' cs',
      visit_kids self cs st = (mkRun a' (trace st ++ (Yield <$> its)) None, cs').
Proof.
  induction 1 as [a|a ar it cs its Hit _ IH|a block cs its Htag Hq _ IH
                  |a d cs its Htag Hq _ IH|a f cs its Htag Hq _ IH|a c cs its Hq _ IH];
    intros st Hst Ha.
  - exists a, []. cbn. rewrite app_nil_r. destruct st. cbn in *. by subst.
  - subst a. cbn [visit_kids]. rewrite (visit_article self ar it st Hst Hit). cbn [fst snd].
    destruct (IH (emit (Yield it) st)) as (a' & cs' & ->); [done | done |].
    exists a', (clear ar :: cs'). cbn [fst snd emit trace fmap list_fmap].
    by rewrite <- app_assoc.
  - cbn [visit_kids]. rewrite (visit_block self block st Hst Htag Hq). cbn [fst snd].
    destruct (IH (mkRun (_mkabbrs block) (trace st) None)) as (a' & cs' & ->); [done | done |].
    by exists a', (block :: cs').
  - cbn [visit_kids]. rewrite (visit_description self d st Hst Htag Hq). cbn [fst snd].
    destruct (IH (emit (Yield (Tag "copyright" (Some (or_empty (text d))))) st))
      as (a' & cs' & ->); [done | done |].
    exists a', (clear d :: cs'). cbn [fst snd emit trace fmap list_fmap].
    by rewrite <- app_assoc.
  - cbn [visit_kids]. rewrite (visit_full_name self f st Hst Htag Hq). cbn [fst snd].
    destruct (IH (emit (Yield (Tag "uri" (Some (quote (encode_utf8 (or_empty (text f)))))))
                    (emit (Yield (Tag "label" (Some (or_empty (text f))))) st)))
      as (a' & cs' & ->); [done | done |].
    exists a', (clear f :: cs'). cbn [fst snd emit trace fmap list_fmap].
    by rewrite <- !app_assoc.
  - cbn [visit_kids]. rewrite (visit_quiet self c Hq st). cbn [fst snd].
    destruct (IH st) as (a' & cs' & ->); [done | done |].
    by exists a', (c :: cs').
Qed.

(** X24.  A document from end to end.  Take a well-formed document whose
    root is an [xdxf] element, whose articles, blocks of abbreviations,
    [description] and [full_name] are children of the root, with none of
    these five tags below them, and whose articles render and have a
    title.  Then [parse] yields, in the order of the document, the
    [copyright] tag of each [description], the [label] and [uri] tags of
    each [full_name] and one [Content] for each article, rendered under
    the table of the last block of abbreviations before it (the empty
    table if there is none); then the two language tags; and nothing
    else.  It logs no warning, raises nothing and leaves the root
    empty. *)
Theorem parse_document (self : XDXF) (root : Element) (its : list item) :
  tag root = "xdxf"%string ->
  yields self ∅ (children root) its ->
  items (parse self (WellFormed root))
  = its ++ [Tag "lang_to" (default (Some ""%string) (attr_get "lang_to" (attrib root)));
            Tag "lang_from" (default (Some ""%string) (attr_get "lang_from" (attrib root)))]
  /\ warnings (parse self (WellFormed root)) = []
  /\ raised (parse self (WellFormed root)) = None
  /\ (visit self root start).2 = clear root.
Proof.
  intros Htag Hall. destruct root as [n]. cbn [parse node] in *.
  destruct (visit_kids_yields self ∅ (children n) its Hall start) as (a' & cs' & Hkids);
    [done | done |].
  rewrite visit_unfold, Hkids. cbn [fst snd start trace app].
  rewrite on_end_xdxf by done.
  cbn [fst snd emit trace raised node set_children attrib].
  assert (Hitems : forall l : list item,
             omap (fun eff => match eff with Yield i => Some i | Warn _ _ => None end)
                  (Yield <$> l) = l).
  { induction l as [|i l IH]; [done |]. cbn. by rewrite IH. }
  assert (Hwarn : forall l : list item,
             omap (fun eff => match eff with Warn _ a => Some a | Yield _ => None end)
                  (Yield <$> l) = []).
  { induction l as [|i l IH]; [done |]. cbn. exact IH. }
  unfold items, warnings. cbn [emit trace].
  rewrite !omap_app, Hitems, Hwarn, <- app_assoc. done.
Qed.

Lemma parse_document_witness :
  items (parse (mkXDXF false false) (WellFormed doc_small))
  = [Tag "label" (Some "My dict"); Tag "uri" (Some "My%20dict");
     Content body_small [Some "cat"] ARTICLE_CONTENT_TYPE;
     Tag "lang_to" (Some ""); Tag "lang_from" (Some "ENG")]%string.
Proof.
  refine (proj1 (parse_document (mkXDXF false false) doc_small
                   [Tag "label" (Some "My dict"); Tag "uri" (Some "My%20dict");
                    Content body_small [Some "cat"] ARTICLE_CONTENT_TYPE]%string
                   eq_refl _)).
  apply (yields_full_name _ _ (Elem (mkNode "full_name" [] (Some "My dict"%string) None [])));
    [done | constructor |].
  apply yields_block; [done | |].
  { repeat constructor; apply (bool_decide_unpack _); vm_compute; reflexivity. }
  apply yields_article; [| constructor].
  split; [done |]. split.
  { repeat constructor; apply (bool_decide_unpack _); vm_compute; reflexivity. }
  by eexists _, _, _.
Defined.

(** ** The handler calls and the tree they leave *)

Lemma run_calls_app (abbreviations : abbrs) (c1 c2 : list call) (e : Element) :
  run_calls abbreviations (c1 ++ c2) e
  = run_calls abbreviations c2 (run_calls abbreviations c1 e).
Proof. apply fold_left_app. Qed.

Lemma run_calls_cons (abbreviations : abbrs) (c : call) (calls : list call) (e : Element) :
  run_calls abbreviations (c :: calls) e
  = run_calls abbreviations calls (update_at (run_handler c.2 abbreviations) c.1 e).
Proof. reflexivity. Qed.

Lemma alter_head {A} (f : A -> A) (x : A) (l : list A) : alter f 0 (x :: l) = f x :: l.
Proof. reflexivity. Qed.

Lemma alter_same {A} (f : A -> A) (i : nat) (l : list A) :
  (forall x, f x = x) -> alter f i l = l.
Proof.
  intros Hf. revert i. induction l as [|a l IH]; intros i; [done |].
  destruct i as [|i]; cbn; [by rewrite Hf | by rewrite IH].
Qed.

Lemma run_calls_below (abbreviations : abbrs) (i : nat) (calls : list call) :
  forall n : Node Element,
    run_calls abbreviations ((fun c : call => (i :: c.1, c.2)) <$> calls) (Elem n)
    = Elem (set_children (alter (run_calls abbreviations calls) i (children n)) n).
Proof.
  induction calls as [|c calls IH]; intros n.
  - cbn [fmap list_fmap run_calls fold_left].
    rewrite alter_same by done. by rewrite set_children_same.
  - cbn [fmap list_fmap]. rewrite run_calls_cons. cbn [fst snd update_at node].
    rewrite IH. cbn [set_children children]. rewrite list_alter_alter_eq.
    reflexivity.
Qed.

Lemma preorder_below (i : nat) (e : Element) :
  forall p : path,
    preorder (i :: p) e
    = (fun pn : path * Node Element => (i :: pn.1, pn.2)) <$> preorder p e.
Proof.
  induction e as [n IH] using Element_ind'. intros p.
  rewrite !preorder_unfold. cbn [fmap list_fmap fst snd]. f_equal.
  generalize 0%nat as j.
  induction IH as [|c cs Hc _ IHcs]; intros j; [done |].
  cbn [preorder_kids]. rewrite fmap_app, <- IHcs. f_equal.
  change ((i :: p) ++ [j]) with (i :: (p ++ [j])). apply Hc.
Qed.

Lemma run_calls_kids (abbreviations : abbrs) (cs : list Element) :
  Forall (fun c =>
            run_calls abbreviations
              ((fun pn : path * Node Element => (pn.1, handler_for pn.2)) <$> preorder [] c) c
            = transform_all abbreviations c) cs ->
  forall (done_ : list Element) (m : Node Element),
    children m = done_ ++ cs ->
    run_calls abbreviations
      ((fun pn : path * Node Element => (pn.1, handler_for pn.2))
         <$> preorder_kids [] (length done_) cs) (Elem m)
    = Elem (set_children (done_ ++ (transform_all abbreviations <$> cs)) m).
Proof.
  induction 1 as [|c cs Hc _ IH]; intros done_ m Hm.
  - cbn. rewrite app_nil_r in *. by rewrite <- Hm, set_children_same.
  - cbn [preorder_kids app]. rewrite fmap_app, run_calls_app.
    rewrite (preorder_below (length done_) c []), <- list_fmap_compose.
    change ((fun pn : path * Node Element => (pn.1, handler_for pn.2))
            ∘ (fun pn : path * Node Element => (length done_ :: pn.1, pn.2)))
      with ((fun c : call => (length done_ :: c.1, c.2))
            ∘ (fun pn : path * Node Element => (pn.1, handler_for pn.2))).
    rewrite list_fmap_compose, run_calls_below, Hm.
    rewrite alter_app_r_alt by lia. rewrite Nat.sub_diag.
    rewrite alter_head.
    match goal with
    | |- context [run_calls abbreviations ?l c] =>
        replace (run_calls abbreviations l c) with (transform_all abbreviations c)
          by (symmetry; exact Hc)
    end.
    pose proof (IH (done_ ++ [transform_all abbreviations c])
                  (set_children (done_ ++ transform_all abbreviations c :: cs) m)) as IH'.
    rewrite length_app in IH'. cbn [length] in IH'. rewrite Nat.add_1_r in IH'.
    etrans; [apply IH'; cbn [set_children children]; by rewrite <- (assoc_L (++)) |].
    rewrite set_children_twice, <- (assoc_L (++)). done.
Qed.

Lemma run_calls_preorder (abbreviations : abbrs) (e : Element) :
  run_calls abbreviations
    ((fun pn : path * Node Element => (pn.1, handler_for pn.2)) <$> preorder [] e) e
  = transform_all abbreviations e.
Proof.
  induction e as [n IH] using Element_ind'.
  rewrite preorder_unfold. cbn [fmap list_fmap fst snd].
  rewrite run_calls_cons. cbn [fst snd update_at node].
  fold (_transform_element abbreviations n).
  etrans; [apply (run_calls_kids abbreviations (children n) IH []
                    (_transform_element abbreviations n));
           apply _transform_element_children |].
  reflexivity.
Qed.

(** C3 (amended).  The handler of an element is found by its tag name in
    lower case, the default one when that name is none of the seven
    handler names.  [_text] runs a handler first on the root, then on the
    elements of the tree in document order (root first, then the
    descendants, each listed once): every descendant has its handler run
    exactly once, the root twice, the second time under the tag the first
    run left, and that second run changes nothing.  The tree that [_text]
    serialises is the one these runs leave: the copy on which each call
    of the list has been executed, in the order of the list, on the
    element at its path. *)
Theorem dispatch_order (self : XDXF) (abbreviations : abbrs) (e : Element) :
  let e0 := if skip_article_title self then strip_titles e else e in
  let root1 := Elem (_transform_element abbreviations e0) in
  (_text_walk self abbreviations e).2
    = ([], handler_for e0)
      :: ((fun pn : path * Node Element => (pn.1, handler_for pn.2)) <$> preorder [] root1)
  /\ preorder [] root1 = ([], node root1) :: drop 1 (preorder [] e0)
  /\ NoDup (preorder [] root1).*1
  /\ run_handler (handler_for root1) abbreviations root1 = node root1
  /\ (forall n : Node Element,
        handler_for n = lookup_handler (lower (tag n))
        /\ (handler_for n = H_default
            <-> lower (tag n) ∉ ["ar"; "c"; "iref"; "kref"; "su"; "def"; "abr"]))
  /\ (_text_walk self abbreviations e).1
     = run_calls abbreviations (_text_walk self abbreviations e).2 e0.
Proof.
  intros e0 root1.
  assert (Hlog : (_text_walk self abbreviations e).2
                 = ([], handler_for e0)
                   :: ((fun pn : path * Node Element => (pn.1, handler_for pn.2))
                         <$> preorder [] root1)).
  { unfold _text_walk. fold e0. fold root1. cbn [snd]. by rewrite iter_transform_calls. }
  split; [exact Hlog |]. split; [| split; [| split; [| split]]].
  - unfold root1. destruct e0 as [n0]. rewrite !preorder_unfold.
    cbn [node drop]. by rewrite _transform_element_children.
  - apply preorder_NoDup.
  - unfold root1. cbn [node]. apply _transform_element_idem.
  - intros n. split; [done | apply lookup_handler_default].
  - rewrite Hlog, run_calls_cons. cbn [fst snd update_at].
    fold (_transform_element abbreviations e0). fold root1.
    rewrite run_calls_preorder.
    unfold _text_walk. fold e0. fold root1. cbn [fst]. apply iter_transform_tree.
Qed.

(** C3 as stated fails: on the article [<ar/>] the root has a handler run
    twice, [_tag_handler_ar] and then the default one. *)
Lemma root_dispatched_twice :
  (_text_walk (mkXDXF false false) ∅ (Elem (mkNode "ar" [] None None []))).2
  = [([], H_ar); ([], H_default)].
Proof. reflexivity. Qed.

(** ** The tags of the rewritten tree *)

Lemma _transform_element_html_tag {C} (abbreviations : abbrs) (n : Node C) :
  tag n ∈ VISUAL_TAGS -> tag (_transform_element abbreviations n) = html_tag (tag n).
Proof.
  destruct n as [t a x tl cs]. cbn [tag]. unfold VISUAL_TAGS.
  rewrite !elem_of_cons, elem_of_nil.
  intros H. repeat (destruct H as [->|H]); try done; dispatch; try reflexivity.
  - by destruct (_ !! _).
  - by destruct (truthy _).
Qed.

Lemma html_tag_cases (t : string) :
  html_tag t ∈ ["div"; "span"; "a"; "blockquote"; "abbr"]%string.
Proof.
  unfold html_tag.
  destruct (str_in t _); [tag_mem |].
  destruct (String.eqb t _); [tag_mem |].
  destruct (str_in t _); [tag_mem |].
  destruct (String.eqb t _); tag_mem.
Qed.

Lemma transform_all_tags (abbreviations : abbrs) (e : Element) :
  Forall2 (fun n n' : Node Element =>
             tag n' = tag (_transform_element abbreviations n))
          (subnodes e) (subnodes (transform_all abbreviations e)).
Proof.
  induction e as [n IH] using Element_ind'.
  cbn [transform_all subnodes]. constructor; [done |].
  cbn [set_children children].
  induction IH as [|c cs Hc _ IHcs]; [constructor |].
  cbn [fmap list_fmap flat_map]. by apply Forall2_app.
Qed.

(** X9.  The tags of the tree that [_text] serialises, element for
    element against the tree that was rewritten: no element has a visual
    tag of XDXF any more, and an element whose tag was a visual tag has
    been given an HTML tag: [div] for [ar], [k] and [su], [blockquote]
    for [def], [a] for [kref] and [iref], [abbr] for [abr], and [span]
    for the other visual tags. *)
Theorem text_leaves_no_visual_tag (self : XDXF) (abbreviations : abbrs) (e : Element) :
  Forall2 (fun n n' : Node Element =>
             (tag n' ∉ VISUAL_TAGS)
             /\ (tag n ∈ VISUAL_TAGS ->
                 tag n' = html_tag (tag n)
                 /\ tag n' ∈ ["div"; "span"; "a"; "blockquote"; "abbr"]%string))
          (subnodes (text_input self e)) (subnodes (_text_walk self abbreviations e).1).
Proof.
  rewrite _text_walk_tree. destruct (text_input self e) as [n]. cbn [node].
  rewrite transform_all_root_twice.
  eapply Forall2_impl; [apply transform_all_tags |].
  intros n1 n2 Hn. cbn beta in Hn. rewrite Hn. split.
  - pose proof (_transform_element_not_visual abbreviations n1) as Hv.
    unfold str_in in Hv. by apply bool_decide_eq_false in Hv.
  - intros Hvis. rewrite (_transform_element_html_tag _ _ Hvis).
    split; [done | apply html_tag_cases].
Qed.
